(** * Hammerbeam slideshow: the no-repeat frame sequencer

    A shallow embedding of the slideshow logic of the nice!view peripheral
    widget ([shuffle_order], [slideshow_work_cb], [zmk_widget_status_init]
    and the two earlier LVGL-timer callbacks [rotate_art_cb] and
    [slideshow_cb]), with the properties of the design document proved
    about it. *)

From Stdlib Require Import ZArith List Lia Permutation Bool Arith.
Import ListNotations.
Local Open Scope Z_scope.

(** ** Machine integers *)

(** [uint8_t], [uint32_t] and [int] (32 bits on the target) as integers
    with their wrap-around written out. *)
Definition uint8 (z : Z) : Z := z mod 256.
Definition uint32 (z : Z) : Z := z mod 4294967296.
Definition int32 (z : Z) : Z := (z + 2147483648) mod 4294967296 - 2147483648.

(** ** Arrays with checked indices *)

(** A C array is a list of its elements; an access outside the array is
    reported as [None] instead of being given a meaning. *)
Definition array_get {A : Type} (l : list A) (i : Z) : option A :=
  if i <? 0 then None else nth_error l (Z.to_nat i).

Fixpoint list_set {A : Type} (l : list A) (n : nat) (v : A) : option (list A) :=
  match l, n with
  | [], _ => None
  | _ :: t, O => Some (v :: t)
  | h :: t, S n' => option_map (cons h) (list_set t n' v)
  end.

Definition array_set {A : Type} (l : list A) (i : Z) (v : A) : option (list A) :=
  if i <? 0 then None else list_set l (Z.to_nat i) v.

(** ** The world the widget runs in *)

(** [LV_IMG_DECLARE(hammerbeam1)] ... : the image descriptors, told apart by
    their number. *)
Inductive lv_img_dsc_t : Type :=
| hammerbeam (n : nat).

(** The calls the slideshow code makes, in the order it makes them.  The
    entry of [shuffle_order] is recorded as well, so that reshuffles can be
    counted even when they draw no random number. *)
Inductive call : Type :=
| shuffle_order_call
| sys_rand32_get_call (r : Z)
| lv_obj_clean_call
| lv_img_create_call
| lv_img_set_src_call (src : lv_img_dsc_t)
| lv_obj_align_call
| k_work_init_delayable_call
| k_work_schedule_call (delay : Z).

(** File-scope state of the widget ([order], [order_pos], [slideshow_work])
    together with what it observes of its environment: how many random words
    were drawn, the kernel uptime in milliseconds, and the calls made. *)
Record world : Type := mkWorld {
  order : list Z;
  order_pos : Z;
  drawn : nat;
  uptime : Z;
  slideshow_work : option Z;
  calls : list call
}.

Definition set_order (l : list Z) (w : world) : world :=
  mkWorld l (order_pos w) (drawn w) (uptime w) (slideshow_work w) (calls w).
Definition set_order_pos (p : Z) (w : world) : world :=
  mkWorld (order w) p (drawn w) (uptime w) (slideshow_work w) (calls w).
Definition set_drawn (n : nat) (w : world) : world :=
  mkWorld (order w) (order_pos w) n (uptime w) (slideshow_work w) (calls w).
Definition set_uptime (t : Z) (w : world) : world :=
  mkWorld (order w) (order_pos w) (drawn w) t (slideshow_work w) (calls w).
Definition set_slideshow_work (d : option Z) (w : world) : world :=
  mkWorld (order w) (order_pos w) (drawn w) (uptime w) d (calls w).
Definition log (c : call) (w : world) : world :=
  mkWorld (order w) (order_pos w) (drawn w) (uptime w) (slideshow_work w)
          (calls w ++ [c]).

(** ** A state monad with two ways to fail *)

(** [Fault]: an array was indexed outside its bounds.  [Timeout]: a loop was
    still running when its fuel ran out. *)
Inductive outcome (A : Type) : Type :=
| Done (a : A) (w : world)
| Fault
| Timeout.
Arguments Done {A} a w.
Arguments Fault {A}.
Arguments Timeout {A}.

Definition M (A : Type) : Type := world -> outcome A.

Definition ret {A : Type} (a : A) : M A := fun w => Done a w.

Definition bind {A B : Type} (c : M A) (k : A -> M B) : M B :=
  fun w => match c w with
           | Done a w' => k a w'
           | Fault => Fault
           | Timeout => Timeout
           end.

Notation "x <- c1 ;; c2" := (bind c1 (fun x => c2))
  (at level 61, c1 at next level, right associativity).
Notation "c1 ;; c2" := (bind c1 (fun _ => c2))
  (at level 61, right associativity).

Definition get {A : Type} (f : world -> A) : M A := fun w => Done (f w) w.
Definition modify (f : world -> world) : M unit := fun w => Done tt (f w).
Definition lift {A : Type} (o : option A) : M A :=
  fun w => match o with Some a => Done a w | None => Fault end.
Definition emit (c : call) : M unit := modify (log c).

(** Reads and writes of the [order] array. *)
Definition load_order (i : Z) : M Z :=
  l <- get order ;; lift (array_get l i).
Definition store_order (i v : Z) : M unit :=
  l <- get order ;; l' <- lift (array_set l i v) ;; modify (set_order l').

Section Slideshow.

(** [ARRAY_SIZE(anim_imgs)]: the number of frames in the catalog. *)
Variable N : nat.

(** The words the hardware random source hands out, in order. *)
Variable entropy : nat -> Z.

(** [static const lv_img_dsc_t *anim_imgs[] = { &hammerbeam1, ... }]. *)
Definition anim_imgs : list lv_img_dsc_t := map hammerbeam (seq 1 N).

Definition ART_FRAME_COUNT : Z := Z.of_nat N.

(** [sys_rand32_get()]: the next word of the source, as a [uint32_t]. *)
Definition sys_rand32_get : M Z :=
  n <- get drawn ;;
  let r := uint32 (entropy n) in
  modify (set_drawn (S n)) ;;
  emit (sys_rand32_get_call r) ;;
  ret r.

(** [for (uint8_t i = 0; i < ART_FRAME_COUNT; i++) order[i] = i;]
    The counter is eight bits wide, so [i++] wraps at 256. *)
Fixpoint fill_loop (fuel : nat) (i : Z) : M unit :=
  match fuel with
  | O => fun _ => Timeout
  | S fuel' =>
      if i <? ART_FRAME_COUNT
      then store_order i i ;; fill_loop fuel' (uint8 (i + 1))
      else ret tt
  end.

(** [for (int i = ...; i > 0; --i) { j = sys_rand32_get() % (i + 1); swap }]
    The counter only goes down to 1, so the loop is a recursion on it. *)
Fixpoint swap_loop (k : nat) : M unit :=
  match k with
  | O => ret tt
  | S k' =>
      let i := Z.of_nat k in
      r <- sys_rand32_get ;;
      let j := r mod (i + 1) in
      tmp <- load_order i ;;
      oj <- load_order j ;;
      store_order i oj ;;
      store_order j tmp ;;
      swap_loop k'
  end.

(** [static void shuffle_order(void)].  The same text in all three variants
    of the widget.  [ART_FRAME_COUNT - 1] is computed in [size_t] and
    converted to [int]. *)
Definition shuffle_order (fuel : nat) : M unit :=
  emit shuffle_order_call ;;
  fill_loop fuel 0 ;;
  swap_loop (Z.to_nat (int32 (uint32 (ART_FRAME_COUNT - 1)))) ;;
  modify (set_order_pos 0).

(** [k_work_schedule(&slideshow_work, K_MSEC(delay))]: Zephyr queues an idle
    work item to run once [delay] has passed, and leaves an item that is
    already scheduled as it is. *)
Definition k_work_schedule (delay : Z) : M unit :=
  emit (k_work_schedule_call delay) ;;
  pending <- get slideshow_work ;;
  match pending with
  | Some _ => ret tt
  | None => now <- get uptime ;; modify (set_slideshow_work (Some (now + delay)))
  end.

(** [#define ART_ROTATE_INTERVAL 600000] *)
Definition ART_ROTATE_INTERVAL : Z := 600000.

(** [static void slideshow_work_cb(struct k_work *work)], the reworked
    variant driven by the Zephyr work queue. *)
Definition slideshow_work_cb (fuel : nat) : M unit :=
  pos <- get order_pos ;;
  (if pos >=? ART_FRAME_COUNT then shuffle_order fuel else ret tt) ;;
  emit lv_obj_clean_call ;;
  emit lv_img_create_call ;;
  pos <- get order_pos ;;
  idx <- load_order pos ;;
  modify (set_order_pos (uint8 (pos + 1))) ;;
  src <- lift (array_get anim_imgs idx) ;;
  emit (lv_img_set_src_call src) ;;
  emit lv_obj_align_call ;;
  k_work_schedule ART_ROTATE_INTERVAL.

(** The slideshow part of [zmk_widget_status_init] (after the widget layout,
    before the battery and connection listeners are registered). *)
Definition zmk_widget_status_init (fuel : nat) : M unit :=
  shuffle_order fuel ;;
  emit k_work_init_delayable_call ;;
  slideshow_work_cb fuel ;;
  k_work_schedule ART_ROTATE_INTERVAL.

(** [static const lv_img_dsc_t *art_images[]] of the first LVGL-timer
    variant: the same thirty descriptors under another name. *)
Definition art_images : list lv_img_dsc_t := map hammerbeam (seq 1 N).

(** [static void rotate_art_cb(lv_timer_t *t)], first LVGL-timer variant.
    The image object goes to the file-scope [art_img]; nothing is re-armed,
    the LVGL timer is periodic. *)
Definition rotate_art_cb (fuel : nat) : M unit :=
  pos <- get order_pos ;;
  (if pos >=? Z.of_nat (length art_images) then shuffle_order fuel else ret tt) ;;
  emit lv_obj_clean_call ;;
  emit lv_img_create_call ;;
  pos <- get order_pos ;;
  idx <- load_order pos ;;
  modify (set_order_pos (uint8 (pos + 1))) ;;
  src <- lift (array_get art_images idx) ;;
  emit (lv_img_set_src_call src) ;;
  emit lv_obj_align_call.

(** [static void slideshow_cb(lv_timer_t *t)], second LVGL-timer variant. *)
Definition slideshow_cb (fuel : nat) : M unit :=
  pos <- get order_pos ;;
  (if pos >=? ART_FRAME_COUNT then shuffle_order fuel else ret tt) ;;
  emit lv_obj_clean_call ;;
  emit lv_img_create_call ;;
  pos <- get order_pos ;;
  idx <- load_order pos ;;
  modify (set_order_pos (uint8 (pos + 1))) ;;
  src <- lift (array_get anim_imgs idx) ;;
  emit (lv_img_set_src_call src) ;;
  emit lv_obj_align_call.


End Slideshow.

(** The work queue runs the handler of a scheduled item at some time [t] not
    before its deadline; the item is idle again while the handler runs. *)
Definition workq_dispatch (N : nat) (entropy : nat -> Z) (fuel : nat) (t : Z)
    : M unit :=
  fun w =>
    match slideshow_work w with
    | Some deadline =>
        if (deadline <=? t) && (uptime w <=? t)
        then slideshow_work_cb N entropy fuel
               (set_slideshow_work None (set_uptime t w))
        else Fault
    | None => Fault
    end.

(** ** Observations *)

(** The catalog indices [0, ..., n-1]. *)
Definition indices (n : nat) : list Z := map Z.of_nat (seq 0 n).

(** The catalog index of the frame a call puts on the display, if any. *)
Definition frame_of (c : call) : list Z :=
  match c with
  | lv_img_set_src_call (hammerbeam n) => [Z.of_nat n - 1]
  | _ => []
  end.

(** The frames displayed by a sequence of calls, oldest first. *)
Definition shown (cs : list call) : list Z := flat_map frame_of cs.

Definition is_shuffle (c : call) : bool :=
  match c with shuffle_order_call => true | _ => false end.

(** How many times [shuffle_order] was entered. *)
Definition reshuffles (cs : list call) : nat := length (filter is_shuffle cs).

(** The calls before the first entry of [shuffle_order] in a list. *)
Fixpoint until_shuffle (cs : list call) : list call :=
  match cs with
  | [] => []
  | c :: cs' => if is_shuffle c then [] else c :: until_shuffle cs'
  end.

(** The frames displayed since [shuffle_order] was last entered. *)
Definition shown_since_shuffle (cs : list call) : list Z :=
  shown (rev (until_shuffle (rev cs))).

(** The state at power-up: zeroed statics, nothing scheduled or called. *)
Definition boot (N : nat) (t : Z) : world :=
  mkWorld (repeat 0 N) 0 O t None [].

(** The declared length of [order]. *)
Definition sized (N : nat) (w : world) : Prop := length (order w) = N.

(** ** A functional reading of the shuffle *)

(** In-place update and swap of a list, used to say what the loops compute. *)
Fixpoint upd (l : list Z) (n : nat) (v : Z) : list Z :=
  match l, n with
  | [], _ => []
  | _ :: t, O => v :: t
  | h :: t, S n' => h :: upd t n' v
  end.

Definition swap_at (l : list Z) (i j : nat) : list Z :=
  upd (upd l i (nth j l 0)) j (nth i l 0).

(** The swaps of the second loop of [shuffle_order], for the picks [js]
    (the first pick is the one for [i = k]). *)
Fixpoint apply_swaps (k : nat) (js : list Z) (l : list Z) : list Z :=
  match k, js with
  | S k', j :: js' => apply_swaps k' js' (swap_at l k (Z.to_nat j))
  | _, _ => l
  end.

(** The picks [j = r % (i + 1)] made from the random words [rs], for
    [i = k] down to [1]. *)
Fixpoint picks_of (k : nat) (rs : list Z) : list Z :=
  match k, rs with
  | S k', r :: rs' => r mod (Z.of_nat k + 1) :: picks_of k' rs'
  | _, _ => []
  end.

(** The [k] words the random source hands out after [d] draws. *)
Fixpoint words (entropy : nat -> Z) (k : nat) (d : nat) : list Z :=
  match k with
  | O => []
  | S k' => uint32 (entropy d) :: words entropy k' (S d)
  end.

(** Picks as the loop may make them: one per step, [0 <= j <= i]. *)
Fixpoint valid_picks (k : nat) (js : list Z) : Prop :=
  match k, js with
  | O, [] => True
  | S k', j :: js' => 0 <= j <= Z.of_nat k /\ valid_picks k' js'
  | _, _ => False
  end.

(** A value of the random source: an unsigned word of 32 bits. *)
Definition word32 (r : Z) : Prop := 0 <= r < 4294967296.

(** [order] after [shuffle_order] when the source hands out [rs]. *)
Definition shuffled (N : nat) (rs : list Z) : list Z :=
  apply_swaps (N - 1) (picks_of (N - 1) rs) (indices N).

(** ** Reachable states *)

Section Reachability.

Variable N : nat.
Variable entropy : nat -> Z.

(** What can happen to the widget once [order] has been shuffled for the
    first time: the handler runs (called from the initialisation or by the
    work queue), or the initialisation goes on with its next statement. *)
Inductive step : world -> world -> Prop :=
| step_handler (fuel : nat) (w w' : world) :
    slideshow_work_cb N entropy fuel w = Done tt w' -> step w w'
| step_dispatch (fuel : nat) (t : Z) (w w' : world) :
    workq_dispatch N entropy fuel t w = Done tt w' -> step w w'
| step_init_delayable (w : world) :
    step w (log k_work_init_delayable_call w)
| step_schedule (w w' : world) :
    k_work_schedule ART_ROTATE_INTERVAL w = Done tt w' -> step w w'.

Inductive reachable : world -> Prop :=
| reach_shuffled (t : Z) (fuel : nat) (w : world) :
    shuffle_order N entropy fuel (boot N t) = Done tt w -> reachable w
| reach_step (w w' : world) :
    reachable w -> step w w' -> reachable w'.

(** The invariant of the sequencer. *)
Record sequencer_inv (w : world) : Prop := {
  inv_sized : sized N w;
  inv_cursor : 0 <= order_pos w <= Z.of_nat N;
  inv_perm : Permutation (order w) (indices N);
  inv_nodup : NoDup (order w);
  inv_shown :
    firstn (Z.to_nat (order_pos w)) (order w) = shown_since_shuffle (calls w)
}.

End Reachability.

(** The frame the handler puts on the display when it reads [order] at the
    cursor of [w]. *)
Definition frame_at_cursor (w : world) : Z :=
  nth (Z.to_nat (order_pos w)) (order w) 0.

(** The five calls every run of the handler ends with, for frame [idx]. *)
Definition display_calls (idx : Z) : list call :=
  [ lv_obj_clean_call; lv_img_create_call;
    lv_img_set_src_call (hammerbeam (S (Z.to_nat idx)));
    lv_obj_align_call; k_work_schedule_call ART_ROTATE_INTERVAL ].

(** [k_work_schedule] on the pending deadline. *)
Definition armed (now : Z) (pending : option Z) : option Z :=
  match pending with
  | Some d => Some d
  | None => Some (now + ART_ROTATE_INTERVAL)
  end.


(** The cursor the handler reads [order] at, seen from its start state. *)
Definition read_cursor (N : nat) (w : world) : Z :=
  if order_pos w >=? Z.of_nat N then 0 else order_pos w.

(** One or more runs of the handler by the work queue. *)
Inductive dispatched (N : nat) (entropy : nat -> Z) : world -> world -> Prop :=
| dispatched_once (fuel : nat) (t : Z) (w w' : world) :
    workq_dispatch N entropy fuel t w = Done tt w' ->
    dispatched N entropy w w'
| dispatched_more (fuel : nat) (t : Z) (w w1 w' : world) :
    dispatched N entropy w w1 ->
    workq_dispatch N entropy fuel t w1 = Done tt w' ->
    dispatched N entropy w w'.

(** What a run of a callback does to the sequencer: the new [order], the new
    cursor, the random words drawn so far and the frames displayed so far;
    or the way it failed. *)
Inductive sequencer_result : Type :=
| Advanced (ord : list Z) (pos : Z) (words_drawn : nat) (frames : list Z)
| OutOfBounds
| NoReturn.

Definition sequencer_view (r : outcome unit) : sequencer_result :=
  match r with
  | Done _ w => Advanced (order w) (order_pos w) (drawn w) (shown (calls w))
  | Fault => OutOfBounds
  | Timeout => NoReturn
  end.

(** ** Counting the random streams behind an ordering *)

(** The random words [rs], handed out in this order from power-up, make
    [shuffle_order] on a catalog of [N] frames return with [order = p]. *)
Definition shuffle_yields (N : nat) (rs : list Z) (p : list Z) : Prop :=
  exists (fuel : nat) (w' : world),
    shuffle_order N (fun n => nth n rs 0) fuel (boot N 0) = Done tt w' /\
    order w' = p.

(** [l] lists, each exactly once, the streams of [N - 1] words of 32 bits
    that make [shuffle_order] produce [p]: its length is the number of
    equally likely outcomes of the random source that lead to [p]. *)
Definition preimages (N : nat) (p : list Z) (l : list (list Z)) : Prop :=
  NoDup l /\
  forall rs : list Z,
    In rs l <->
    length rs = (N - 1)%nat /\ Forall word32 rs /\ shuffle_yields N rs p.

(** All orderings of a catalog of [N] frames have the same number of random
    streams behind them. *)
Definition equally_likely (N : nat) : Prop :=
  forall (p q : list Z) (lp lq : list (list Z)),
    Permutation p (indices N) -> Permutation q (indices N) ->
    preimages N p lp -> preimages N q lq ->
    length lp = length lq.

(** How many 32-bit words [r] have [r mod m = j], for [0 <= j < m]: the
    quotient of [2^32] by [m], and one more for the picks below the
    remainder. *)
Definition count_mod (m j : Z) : Z :=
  4294967296 / m + (if j <? 4294967296 mod m then 1 else 0).

(** These words, in increasing order. *)
Definition residues (m j : Z) : list Z :=
  map (fun n => j + m * Z.of_nat n) (seq 0 (Z.to_nat (count_mod m j))).

(** The streams of [k] words that give the picks [js]. *)
Fixpoint streams (k : nat) (js : list Z) : list (list Z) :=
  match k, js with
  | O, [] => [[]]
  | S k', j :: js' =>
      flat_map (fun r => map (cons r) (streams k' js'))
               (residues (Z.of_nat k + 1) j)
  | _, _ => []
  end.

(** Their number: the product of the numbers of words behind each pick. *)
Fixpoint weight (k : nat) (js : list Z) : Z :=
  match k, js with
  | S k', j :: js' => count_mod (Z.of_nat k + 1) j * weight k' js'
  | _, _ => 1
  end.

(** The least and the greatest number of streams behind picks for [k]
    swaps. *)
Fixpoint weight_low (k : nat) : Z :=
  match k with
  | O => 1
  | S k' => (4294967296 / (Z.of_nat k + 1)) * weight_low k'
  end.

Fixpoint weight_high (k : nat) : Z :=
  match k with
  | O => 1
  | S k' => (4294967296 / (Z.of_nat k + 1) + 1) * weight_high k'
  end.

(** ** The slideshow once it runs *)

(** The states of the widget from the end of its initialisation on, with
    the work queue running the handler again and again. *)
Inductive running (N : nat) (entropy : nat -> Z) : world -> Prop :=
| running_init (t : Z) (fuel : nat) (w : world) :
    zmk_widget_status_init N entropy fuel (boot N t) = Done tt w ->
    running N entropy w
| running_dispatch (fuel : nat) (t : Z) (w w' : world) :
    running N entropy w ->
    workq_dispatch N entropy fuel t w = Done tt w' ->
    running N entropy w'.

(** The image objects in the art box after the calls [cs], each with its
    source once it has one: [lv_obj_clean] deletes the children of the box,
    [lv_img_create] adds an image to it, [lv_img_set_src] sets the source of
    the image just created. *)
Fixpoint art_box_images (cs : list call) (imgs : list (option lv_img_dsc_t))
    : list (option lv_img_dsc_t) :=
  match cs with
  | [] => imgs
  | lv_obj_clean_call :: cs' => art_box_images cs' []
  | lv_img_create_call :: cs' => art_box_images cs' (imgs ++ [None])
  | lv_img_set_src_call src :: cs' =>
      art_box_images cs' (removelast imgs ++ [Some src])
  | _ :: cs' => art_box_images cs' imgs
  end.



(** A run of a catalog of two frames, for the examples: the state at the
    end of the initialisation at time 0 when the random source hands out
    0, 1, 2, ..., and the states after the work queue has run the handler at
    600000 ms and again at 1200007 ms. *)
Definition sample_source (n : nat) : Z := Z.of_nat n.

Definition sample_started : world :=
  mkWorld [1; 0] 1 1 0 (Some 600000)
    [shuffle_order_call; sys_rand32_get_call 0;
     k_work_init_delayable_call; lv_obj_clean_call;
     lv_img_create_call; lv_img_set_src_call (hammerbeam 2);
     lv_obj_align_call; k_work_schedule_call 600000;
     k_work_schedule_call 600000].

Definition sample_second : world :=
  mkWorld [1; 0] 2 1 600000 (Some 1200000)
    (calls sample_started
       ++ [lv_obj_clean_call; lv_img_create_call;
           lv_img_set_src_call (hammerbeam 1); lv_obj_align_call;
           k_work_schedule_call 600000]).

Definition sample_third : world :=
  mkWorld [0; 1] 1 2 1200007 (Some 1800007)
    (calls sample_second
       ++ [shuffle_order_call; sys_rand32_get_call 1; lv_obj_clean_call;
           lv_img_create_call; lv_img_set_src_call (hammerbeam 1);
           lv_obj_align_call; k_work_schedule_call 600000]).

(** ** The widget around the slideshow: layout and status bar *)

Module Status.

(** LVGL objects as the widget code sees them: [NULL], the objects it has
    created, numbered in the order of their creation, and the object that
    [lv_obj_get_child(o, idx)] returns. *)
Inductive lv_obj_t : Type :=
| lv_null
| lv_created (n : nat)
| lv_obj_get_child (o : lv_obj_t) (idx : Z).

Inductive lv_symbol : Type := LV_SYMBOL_WIFI | LV_SYMBOL_CLOSE.
Inductive lv_align_t : Type := LV_ALIGN_TOP_RIGHT | LV_ALIGN_TOP_LEFT.
Inductive lv_color : Type := LVGL_FOREGROUND | LVGL_BACKGROUND.

(** [struct status_state], as the widget code uses it. *)
Record status_state : Type := mkStatus {
  battery : Z;
  charging : bool;
  connected : bool
}.

(** [struct battery_status_state] and [struct peripheral_status_state]; the
    field of the latter is [connected] in the source. *)
Record battery_status_state : Type := mkBattery {
  level : Z;
  usb_present : bool
}.

Record peripheral_status_state : Type := mkPeripheral {
  peripheral_connected : bool
}.

(** [struct zmk_widget_status]: its root object and its status; its canvas
    buffer [cbuf] and its list node are told apart by the address of the
    widget. *)
Record zmk_widget_status : Type := mkWidget {
  obj : lv_obj_t;
  state : status_state
}.

(** The calls the layout and status-bar code makes.  A draw descriptor is
    given by the colour it was initialised with. *)
Inductive gui_call : Type :=
| lv_obj_create_call (parent result : lv_obj_t)
| lv_canvas_create_call (parent result : lv_obj_t)
| lv_obj_set_size_call (o : lv_obj_t) (w h : Z)
| lv_obj_align_to_call (o : lv_obj_t) (a : lv_align_t) (x y : Z)
| lv_canvas_set_buffer_call (canvas : lv_obj_t) (cbuf_of : nat) (w h : Z)
| lv_obj_clear_flag_scrollable_call (o : lv_obj_t)
| lv_canvas_draw_rect_call (canvas : lv_obj_t) (x y w h : Z) (c : lv_color)
| draw_battery_call (canvas : lv_obj_t) (st : status_state)
| lv_canvas_draw_text_call (canvas : lv_obj_t) (x y max_w : Z) (c : lv_color)
    (sym : lv_symbol)
| rotate_canvas_call (canvas : lv_obj_t) (cbuf_of : nat).

(** The state of the whole widget module: the sequencer and kernel state of
    the slideshow, the file-scope [art_box] and [widgets], the widget
    structures by address, what the battery, USB and split-link drivers
    report at the moment, and the layout and status-bar calls made. *)
Record display : Type := mkDisplay {
  seq : world;
  created : nat;
  art_box : lv_obj_t;
  widgets : list nat;
  memory : nat -> zmk_widget_status;
  state_of_charge : Z;
  usb_powered : bool;
  peripheral_is_connected : bool;
  gui : list gui_call
}.

Definition set_seq (w : world) (d : display) : display :=
  mkDisplay w (created d) (art_box d) (widgets d) (memory d)
    (state_of_charge d) (usb_powered d) (peripheral_is_connected d) (gui d).
Definition set_created (n : nat) (d : display) : display :=
  mkDisplay (seq d) n (art_box d) (widgets d) (memory d)
    (state_of_charge d) (usb_powered d) (peripheral_is_connected d) (gui d).
Definition set_art_box (o : lv_obj_t) (d : display) : display :=
  mkDisplay (seq d) (created d) o (widgets d) (memory d)
    (state_of_charge d) (usb_powered d) (peripheral_is_connected d) (gui d).
Definition set_widgets (l : list nat) (d : display) : display :=
  mkDisplay (seq d) (created d) (art_box d) l (memory d)
    (state_of_charge d) (usb_powered d) (peripheral_is_connected d) (gui d).
Definition set_memory (m : nat -> zmk_widget_status) (d : display) : display :=
  mkDisplay (seq d) (created d) (art_box d) (widgets d) m
    (state_of_charge d) (usb_powered d) (peripheral_is_connected d) (gui d).
Definition set_gui (l : list gui_call) (d : display) : display :=
  mkDisplay (seq d) (created d) (art_box d) (widgets d) (memory d)
    (state_of_charge d) (usb_powered d) (peripheral_is_connected d) l.

(** The widget at address [a] replaced by [wd]. *)
Definition store (a : nat) (wd : zmk_widget_status)
    (m : nat -> zmk_widget_status) : nat -> zmk_widget_status :=
  fun b => if (b =? a)%nat then wd else m b.

(** The state monad of the widget code; the slideshow can make it fail. *)
Inductive result (A : Type) : Type :=
| Ok (a : A) (d : display)
| Crash
| Hang.
Arguments Ok {A} a d.
Arguments Crash {A}.
Arguments Hang {A}.

Definition G (A : Type) : Type := display -> result A.

Definition gret {A : Type} (a : A) : G A := fun d => Ok a d.

Definition gbind {A B : Type} (c : G A) (k : A -> G B) : G B :=
  fun d => match c d with
           | Ok a d' => k a d'
           | Crash => Crash
           | Hang => Hang
           end.

Declare Scope gui_scope.
Delimit Scope gui_scope with gui.
Notation "x <- c1 ;; c2" := (gbind c1 (fun x => c2))
  (at level 61, c1 at next level, right associativity) : gui_scope.
Notation "c1 ;; c2" := (gbind c1 (fun _ => c2))
  (at level 61, right associativity) : gui_scope.
Local Open Scope gui_scope.

Definition gget {A : Type} (f : display -> A) : G A := fun d => Ok (f d) d.
Definition gmodify (f : display -> display) : G unit := fun d => Ok tt (f d).
Definition gemit (c : gui_call) : G unit :=
  gmodify (fun d => set_gui (gui d ++ [c]) d).

(** Slideshow code run inside the widget code. *)
Definition lift_seq {A : Type} (m : M A) : G A :=
  fun d => match m (seq d) with
           | Done a w' => Ok a (set_seq w' d)
           | Fault => Crash
           | Timeout => Hang
           end.

(** [lv_obj_create(parent)] and [lv_canvas_create(parent)]: LVGL hands out
    a new object. *)
Definition lv_obj_create (parent : lv_obj_t) : G lv_obj_t :=
  n <- gget created ;;
  gmodify (set_created (S n)) ;;
  gemit (lv_obj_create_call parent (lv_created n)) ;;
  gret (lv_created n).

Definition lv_canvas_create (parent : lv_obj_t) : G lv_obj_t :=
  n <- gget created ;;
  gmodify (set_created (S n)) ;;
  gemit (lv_canvas_create_call parent (lv_created n)) ;;
  gret (lv_created n).

(** Writes to the fields of the widget at address [a]. *)
Definition write_obj (a : nat) (o : lv_obj_t) : G unit :=
  gmodify (fun d => set_memory (store a (mkWidget o (state (memory d a)))
                                  (memory d)) d).
Definition write_state (a : nat) (f : status_state -> status_state) : G unit :=
  gmodify (fun d =>
             set_memory (store a (mkWidget (obj (memory d a))
                                    (f (state (memory d a))))
                           (memory d)) d).

(** The list [widgets] is an intrusive [sys_slist_t]: the model keeps the
    nodes reached from its head, in order.  [sys_slist_peek_tail] gives its
    last node, [before a l] the nodes in front of the node [a]. *)
Definition sys_slist_peek_tail (l : list nat) : option nat :=
  match l with
  | [] => None
  | _ :: _ => Some (last l O)
  end.

Fixpoint before (a : nat) (l : list nat) : list nat :=
  match l with
  | [] => []
  | b :: l' => if (b =? a)%nat then [] else b :: before a l'
  end.

(** [sys_slist_append(&widgets, &widget->node)]: [node->next = NULL], then
    [head = tail = node] on an empty list and [tail->next = node;
    tail = node] otherwise.  A node that is not in the list comes last.  For
    a node that is in the list in front of the tail, clearing its [next] cuts
    the list behind it: the nodes behind it are no longer reached from the
    head, and the node is the tail.  For the tail node itself,
    [tail->next = node] makes the node its own successor: the list is
    circular and every traversal of it runs forever.  The lists of the model
    have an end, and the only code that follows an append is such a
    traversal, so that this case is the code not returning. *)
Definition sys_slist_append (a : nat) : G unit :=
  l <- gget widgets ;;
  match sys_slist_peek_tail l with
  | None => gmodify (set_widgets [a])
  | Some t =>
      if (t =? a)%nat
      then fun _ => Hang
      else gmodify (set_widgets (before a l ++ [a]))
  end.

Section Widget.

Variable N : nat.
Variable entropy : nat -> Z.

(** [IS_ENABLED(CONFIG_USB_DEVICE_STACK)] and [CANVAS_SIZE], fixed when the
    firmware is built. *)
Variable usb_device_stack : bool.
Variable CANVAS_SIZE : Z.

(** [static void draw_top(lv_obj_t *widget, lv_color_t cbuf[],
    const struct status_state *state)]; [cbuf] is the buffer of the widget
    at address [a]. *)
Definition draw_top (widget : lv_obj_t) (a : nat) (st : status_state)
    : G unit :=
  let canvas := lv_obj_get_child widget 0 in
  gemit (lv_canvas_draw_rect_call canvas 0 0 CANVAS_SIZE CANVAS_SIZE
           LVGL_BACKGROUND) ;;
  gemit (draw_battery_call canvas st) ;;
  gemit (lv_canvas_draw_text_call canvas 0 0 CANVAS_SIZE LVGL_FOREGROUND
           (if connected st then LV_SYMBOL_WIFI else LV_SYMBOL_CLOSE)) ;;
  gemit (rotate_canvas_call canvas a).

(** [static void set_battery_status(struct zmk_widget_status *widget,
    struct battery_status_state state)] *)
Definition set_battery_status (a : nat) (s : battery_status_state) : G unit :=
  (if usb_device_stack
   then write_state a (fun st => mkStatus (battery st) (usb_present s)
                                   (connected st))
   else gret tt) ;;
  write_state a (fun st => mkStatus (level s) (charging st) (connected st)) ;;
  wd <- gget (fun d => memory d a) ;;
  draw_top (obj wd) a (state wd).

(** [SYS_SLIST_FOR_EACH_CONTAINER(&widgets, widget, node) { ... }] *)
Fixpoint for_each_widget (l : list nat) (body : nat -> G unit) : G unit :=
  match l with
  | [] => gret tt
  | a :: l' => body a ;; for_each_widget l' body
  end.

(** [static void battery_status_update_cb(struct battery_status_state state)] *)
Definition battery_status_update_cb (s : battery_status_state) : G unit :=
  l <- gget widgets ;;
  for_each_widget l (fun a => set_battery_status a s).

(** [static struct battery_status_state battery_status_get_state(
    const zmk_event_t *eh)]; [zmk_battery_state_of_charge()] returns a
    [uint8_t], and without the USB stack [usb_present] is not set. *)
Definition battery_status_get_state : G battery_status_state :=
  soc <- gget state_of_charge ;;
  usb <- gget usb_powered ;;
  gret (mkBattery (uint8 soc) (if usb_device_stack then usb else false)).

(** [static struct peripheral_status_state get_state(const zmk_event_t *_eh)] *)
Definition get_state : G peripheral_status_state :=
  c <- gget peripheral_is_connected ;;
  gret (mkPeripheral c).

(** [static void set_connection_status(struct zmk_widget_status *widget,
    struct peripheral_status_state state)] *)
Definition set_connection_status (a : nat) (s : peripheral_status_state)
    : G unit :=
  write_state a (fun st => mkStatus (battery st) (charging st)
                             (peripheral_connected s)) ;;
  wd <- gget (fun d => memory d a) ;;
  draw_top (obj wd) a (state wd).

(** [static void output_status_update_cb(struct peripheral_status_state
    state)] *)
Definition output_status_update_cb (s : peripheral_status_state) : G unit :=
  l <- gget widgets ;;
  for_each_widget l (fun a => set_connection_status a s).

(** [widget_battery_status_init()] and [widget_peripheral_status_init()], as
    [ZMK_DISPLAY_WIDGET_LISTENER] generates them: take the state with the
    getter and hand it to the update callback. *)
Definition widget_battery_status_init : G unit :=
  s <- battery_status_get_state ;; battery_status_update_cb s.

Definition widget_peripheral_status_init : G unit :=
  s <- get_state ;; output_status_update_cb s.

(** [int zmk_widget_status_init(struct zmk_widget_status *widget,
    lv_obj_t *parent)] of the work-queue variant, in full. *)
Definition zmk_widget_status_init (fuel : nat) (a : nat) (parent : lv_obj_t)
    : G Z :=
  o <- lv_obj_create parent ;;
  write_obj a o ;;
  gemit (lv_obj_set_size_call o 160 68) ;;
  top <- lv_canvas_create o ;;
  gemit (lv_obj_align_to_call top LV_ALIGN_TOP_RIGHT 0 0) ;;
  gemit (lv_canvas_set_buffer_call top a CANVAS_SIZE CANVAS_SIZE) ;;
  box <- lv_obj_create o ;;
  gmodify (set_art_box box) ;;
  gemit (lv_obj_clear_flag_scrollable_call box) ;;
  gemit (lv_obj_set_size_call box 140 68) ;;
  gemit (lv_obj_align_to_call box LV_ALIGN_TOP_LEFT 0 0) ;;
  lift_seq (shuffle_order N entropy fuel) ;;
  lift_seq (emit k_work_init_delayable_call) ;;
  lift_seq (slideshow_work_cb N entropy fuel) ;;
  lift_seq (k_work_schedule ART_ROTATE_INTERVAL) ;;
  sys_slist_append a ;;
  widget_battery_status_init ;;
  widget_peripheral_status_init ;;
  gret 0.

(** [lv_obj_t *zmk_widget_status_obj(struct zmk_widget_status *widget)] *)
Definition zmk_widget_status_obj (a : nat) : G lv_obj_t :=
  gget (fun d => obj (memory d a)).

(** An update of the status bar, as the display work queue delivers it. *)
Inductive status_update : Type :=
| battery_update (s : battery_status_state)
| connection_update (s : peripheral_status_state).

Definition deliver (u : status_update) : G unit :=
  match u with
  | battery_update s => battery_status_update_cb s
  | connection_update s => output_status_update_cb s
  end.

Fixpoint deliver_all (us : list status_update) : G unit :=
  match us with
  | [] => gret tt
  | u :: us' => deliver u ;; deliver_all us'
  end.

End Widget.

(** The calls of one [draw_top] for the widget at [a]. *)
Definition draw_top_calls (CANVAS_SIZE : Z) (widget : lv_obj_t) (a : nat)
    (st : status_state) : list gui_call :=
  [ lv_canvas_draw_rect_call (lv_obj_get_child widget 0) 0 0
      CANVAS_SIZE CANVAS_SIZE LVGL_BACKGROUND;
    draw_battery_call (lv_obj_get_child widget 0) st;
    lv_canvas_draw_text_call (lv_obj_get_child widget 0) 0 0 CANVAS_SIZE
      LVGL_FOREGROUND
      (if connected st then LV_SYMBOL_WIFI else LV_SYMBOL_CLOSE);
    rotate_canvas_call (lv_obj_get_child widget 0) a ].

(** What an update does to the status of a widget. *)
Definition updated (usb_device_stack : bool) (u : status_update)
    (st : status_state) : status_state :=
  match u with
  | battery_update s =>
      mkStatus (level s)
        (if usb_device_stack then usb_present s else charging st)
        (connected st)
  | connection_update s =>
      mkStatus (battery st) (charging st) (peripheral_connected s)
  end.

(** The latest battery level, USB presence and connection state among the
    updates [us], or the given one when there is none. *)
Fixpoint latest_level (us : list status_update) (old : Z) : Z :=
  match us with
  | [] => old
  | battery_update s :: us' => latest_level us' (level s)
  | connection_update _ :: us' => latest_level us' old
  end.

Fixpoint latest_usb (us : list status_update) (old : bool) : bool :=
  match us with
  | [] => old
  | battery_update s :: us' => latest_usb us' (usb_present s)
  | connection_update _ :: us' => latest_usb us' old
  end.

Fixpoint latest_connected (us : list status_update) (old : bool) : bool :=
  match us with
  | [] => old
  | battery_update _ :: us' => latest_connected us' old
  | connection_update s :: us' => latest_connected us' (peripheral_connected s)
  end.

End Status.

(** Everything but the widget structures and the call log is the same in
    [d] and [d']. *)
Definition status_frame (d d' : Status.display) : Prop :=
  Status.seq d' = Status.seq d /\
  Status.created d' = Status.created d /\
  Status.art_box d' = Status.art_box d /\
  Status.widgets d' = Status.widgets d /\
  Status.state_of_charge d' = Status.state_of_charge d /\
  Status.usb_powered d' = Status.usb_powered d /\
  Status.peripheral_is_connected d' = Status.peripheral_is_connected d.

(** The widget at [b] after the status of each widget of [l] went through
    [f]. *)
Definition restated (f : Status.status_state -> Status.status_state)
    (l : list nat) (m : nat -> Status.zmk_widget_status) (b : nat)
    : Status.zmk_widget_status :=
  if in_dec Nat.eq_dec b l
  then Status.mkWidget (Status.obj (m b)) (f (Status.state (m b)))
  else m b.

(** One [draw_top] for each widget of [l], in this order, with the status in
    [m]. *)
Definition redraws (CANVAS_SIZE : Z) (l : list nat)
    (m : nat -> Status.zmk_widget_status) : list Status.gui_call :=
  flat_map (fun a => Status.draw_top_calls CANVAS_SIZE (Status.obj (m a)) a
                       (Status.state (m a))) l.

(** The status a widget shows once the drivers' current readings have gone
    through both update callbacks. *)
Definition current_status (usb_device_stack : bool) (d : Status.display)
    (st : Status.status_state) : Status.status_state :=
  Status.mkStatus (uint8 (Status.state_of_charge d))
    (if usb_device_stack then Status.usb_powered d else Status.charging st)
    (Status.peripheral_is_connected d).

(** The layout calls of [zmk_widget_status_init] for the widget at [a],
    when [n] objects were created before. *)
Definition layout_calls (CANVAS_SIZE : Z) (a : nat) (parent : Status.lv_obj_t)
    (n : nat) : list Status.gui_call :=
  [ Status.lv_obj_create_call parent (Status.lv_created n);
    Status.lv_obj_set_size_call (Status.lv_created n) 160 68;
    Status.lv_canvas_create_call (Status.lv_created n)
      (Status.lv_created (S n));
    Status.lv_obj_align_to_call (Status.lv_created (S n))
      Status.LV_ALIGN_TOP_RIGHT 0 0;
    Status.lv_canvas_set_buffer_call (Status.lv_created (S n)) a
      CANVAS_SIZE CANVAS_SIZE;
    Status.lv_obj_create_call (Status.lv_created n)
      (Status.lv_created (S (S n)));
    Status.lv_obj_clear_flag_scrollable_call (Status.lv_created (S (S n)));
    Status.lv_obj_set_size_call (Status.lv_created (S (S n))) 140 68;
    Status.lv_obj_align_to_call (Status.lv_created (S (S n)))
      Status.LV_ALIGN_TOP_LEFT 0 0 ].

(** For the examples: the module at power-up with a catalog of two frames,
    nothing created and no widget registered, the battery at 87 percent, USB
    power present and the split link up. *)
Definition sample_display : Status.display :=
  Status.mkDisplay (boot 2 0) 0 Status.lv_null []
    (fun _ => Status.mkWidget Status.lv_null (Status.mkStatus 0 false false))
    87 true true [].


(** ** The two LVGL-timer variants of the widget *)

Module LvTimer.

(** An LVGL timer of the widget: its period and the tick it last ran (or was
    created) at.  Its callback is the rotation callback of the variant. *)
Record lv_timer_t : Type := mkTimer {
  period : Z;
  last_run : Z
}.

(** The state of a timer variant: the sequencer state and the timers
    created so far. *)
Record lv_world : Type := mkLv {
  base : world;
  timers : list lv_timer_t
}.

Inductive lv_outcome : Type :=
| LvDone (lw : lv_world)
| LvFault
| LvTimeout.

(** Slideshow code run in a timer variant. *)
Definition lift_base (m : M unit) (lw : lv_world) : lv_outcome :=
  match m (base lw) with
  | Done _ w' => LvDone (mkLv w' (timers lw))
  | Fault => LvFault
  | Timeout => LvTimeout
  end.

(** [lv_timer_create(cb, period, NULL)]: a new timer, which LVGL stamps with
    the current tick. *)
Definition lv_timer_create (p : Z) (lw : lv_world) : lv_world :=
  mkLv (base lw) (timers lw ++ [mkTimer p (uptime (base lw))]).

(** [lv_timer_handler] running the callback [cb] of the timer number [i] at
    the tick [t]: LVGL does so once the period has elapsed since the timer
    last ran, stamps the timer and calls the callback. *)
Definition lv_timer_exec (cb : M unit) (i : nat) (t : Z) (lw : lv_world)
    : lv_outcome :=
  match nth_error (timers lw) i with
  | Some tm =>
      if (last_run tm + period tm <=? t) && (uptime (base lw) <=? t)
      then match cb (set_uptime t (base lw)) with
           | Done _ w' =>
               LvDone (mkLv w' (firstn i (timers lw)
                                  ++ mkTimer (period tm) t
                                  :: skipn (S i) (timers lw)))
           | Fault => LvFault
           | Timeout => LvTimeout
           end
      else LvFault
  | None => LvFault
  end.

(** Power-up of a timer variant at the tick [t]. *)
Definition lv_boot (N : nat) (t : Z) : lv_world := mkLv (boot N t) [].

End LvTimer.

(** The first LVGL-timer variant, with [rotate_art_cb]. *)
Module ArtTimer.

Section Variant.

Variable N : nat.
Variable entropy : nat -> Z.

(** [#define ART_ROTATE_INTERVAL CONFIG_CUSTOM_ANIMATION_SPEED] *)
Variable CONFIG_CUSTOM_ANIMATION_SPEED : Z.
Definition ART_ROTATE_INTERVAL : Z := CONFIG_CUSTOM_ANIMATION_SPEED.

(** The slideshow part of [zmk_widget_status_init]: [shuffle_order();
    rotate_art_cb(NULL); lv_timer_create(rotate_art_cb, ART_ROTATE_INTERVAL,
    NULL);] *)
Definition zmk_widget_status_init (fuel : nat) (lw : LvTimer.lv_world)
    : LvTimer.lv_outcome :=
  match LvTimer.lift_base (shuffle_order N entropy fuel) lw with
  | LvTimer.LvDone lw1 =>
      match LvTimer.lift_base (rotate_art_cb N entropy fuel) lw1 with
      | LvTimer.LvDone lw2 =>
          LvTimer.LvDone (LvTimer.lv_timer_create ART_ROTATE_INTERVAL lw2)
      | r => r
      end
  | r => r
  end.

(** The widget after its initialisation at power-up and [k] runs of the
    timer callback. *)
Inductive after : nat -> LvTimer.lv_world -> Prop :=
| after_init (t : Z) (fuel : nat) (lw : LvTimer.lv_world) :
    zmk_widget_status_init fuel (LvTimer.lv_boot N t) = LvTimer.LvDone lw ->
    after O lw
| after_timer (k : nat) (fuel : nat) (i : nat) (t : Z)
    (lw lw' : LvTimer.lv_world) :
    after k lw ->
    LvTimer.lv_timer_exec (rotate_art_cb N entropy fuel) i t lw
    = LvTimer.LvDone lw' ->
    after (S k) lw'.

End Variant.

End ArtTimer.

(** The second LVGL-timer variant, with [slideshow_cb]. *)
Module SlideTimer.

Section Variant.

Variable N : nat.
Variable entropy : nat -> Z.

(** [#define ART_ROTATE_INTERVAL CONFIG_CUSTOM_ANIMATION_SPEED] *)
Variable CONFIG_CUSTOM_ANIMATION_SPEED : Z.
Definition ART_ROTATE_INTERVAL : Z := CONFIG_CUSTOM_ANIMATION_SPEED.

(** The slideshow part of [zmk_widget_status_init]: [shuffle_order();
    slideshow_cb(NULL); lv_timer_create(slideshow_cb, ART_ROTATE_INTERVAL,
    NULL);] *)
Definition zmk_widget_status_init (fuel : nat) (lw : LvTimer.lv_world)
    : LvTimer.lv_outcome :=
  match LvTimer.lift_base (shuffle_order N entropy fuel) lw with
  | LvTimer.LvDone lw1 =>
      match LvTimer.lift_base (slideshow_cb N entropy fuel) lw1 with
      | LvTimer.LvDone lw2 =>
          LvTimer.LvDone (LvTimer.lv_timer_create ART_ROTATE_INTERVAL lw2)
      | r => r
      end
  | r => r
  end.

Inductive after : nat -> LvTimer.lv_world -> Prop :=
| after_init (t : Z) (fuel : nat) (lw : LvTimer.lv_world) :
    zmk_widget_status_init fuel (LvTimer.lv_boot N t) = LvTimer.LvDone lw ->
    after O lw
| after_timer (k : nat) (fuel : nat) (i : nat) (t : Z)
    (lw lw' : LvTimer.lv_world) :
    after k lw ->
    LvTimer.lv_timer_exec (slideshow_cb N entropy fuel) i t lw
    = LvTimer.LvDone lw' ->
    after (S k) lw'.

End Variant.

End SlideTimer.

(** The work-queue variant after its initialisation at power-up and [k] runs
    of the handler by the work queue. *)
Inductive after_runs (N : nat) (entropy : nat -> Z) : nat -> world -> Prop :=
| after_runs_init (t : Z) (fuel : nat) (w : world) :
    zmk_widget_status_init N entropy fuel (boot N t) = Done tt w ->
    after_runs N entropy O w
| after_runs_dispatch (k : nat) (fuel : nat) (t : Z) (w w' : world) :
    after_runs N entropy k w ->
    workq_dispatch N entropy fuel t w = Done tt w' ->
    after_runs N entropy (S k) w'.

(** The sequencer as a function of the random words alone: what one run of
    a rotation callback does to [order], the cursor, the number of words
    drawn and the frames displayed. *)
Record sequence : Type := mkSequence {
  seq_order : list Z;
  seq_pos : Z;
  seq_drawn : nat;
  seq_frames : list Z
}.

Definition sequence_of (w : world) : sequence :=
  mkSequence (order w) (order_pos w) (drawn w) (shown (calls w)).

Definition sequencer_step (N : nat) (entropy : nat -> Z) (q : sequence)
    : sequence :=
  if seq_pos q =? Z.of_nat N
  then
    let ord := shuffled N (words entropy (N - 1) (seq_drawn q)) in
    mkSequence ord 1 (seq_drawn q + (N - 1)) (seq_frames q ++ [nth 0 ord 0])
  else
    mkSequence (seq_order q) (seq_pos q + 1) (seq_drawn q)
      (seq_frames q ++ [nth (Z.to_nat (seq_pos q)) (seq_order q) 0]).

(** The sequence after the initialisation and [k] more runs. *)
Fixpoint sequence_after (N : nat) (entropy : nat -> Z) (k : nat) : sequence :=
  match k with
  | O =>
      sequencer_step N entropy
        (mkSequence (shuffled N (words entropy (N - 1) 0)) 0 (N - 1) [])
  | S k' => sequencer_step N entropy (sequence_after N entropy k')
  end.

(** A short run of each timer variant with two frames: initialised at tick
    0, the callback run once when the period (5000, respectively 7000) has
    elapsed. *)
Definition sample_art_timer : LvTimer.lv_world :=
  LvTimer.mkLv
    (mkWorld [1; 0] 2 1 5000 None
       [shuffle_order_call; sys_rand32_get_call 0;
        lv_obj_clean_call; lv_img_create_call;
        lv_img_set_src_call (hammerbeam 2); lv_obj_align_call;
        lv_obj_clean_call; lv_img_create_call;
        lv_img_set_src_call (hammerbeam 1); lv_obj_align_call])
    [LvTimer.mkTimer 5000 5000].

Definition sample_slide_timer : LvTimer.lv_world :=
  LvTimer.mkLv
    (mkWorld [1; 0] 2 1 7000 None
       [shuffle_order_call; sys_rand32_get_call 0;
        lv_obj_clean_call; lv_img_create_call;
        lv_img_set_src_call (hammerbeam 2); lv_obj_align_call;
        lv_obj_clean_call; lv_img_create_call;
        lv_img_set_src_call (hammerbeam 1); lv_obj_align_call])
    [LvTimer.mkTimer 7000 7000].

(** ** Lists as arrays *)

Lemma list_set_upd (l : list Z) (n : nat) (v : Z) :
  (n < length l)%nat -> list_set l n v = Some (upd l n v).
Proof.
  revert n; induction l as [|h t IH]; intros [|n] Hn; simpl in *;
    try lia; try reflexivity.
  rewrite IH by lia. reflexivity.
Qed.

Lemma list_set_None (l : list Z) (n : nat) (v : Z) :
  (length l <= n)%nat -> list_set l n v = None.
Proof.
  revert n; induction l as [|h t IH]; intros [|n] Hn; simpl in *;
    try lia; try reflexivity.
  rewrite IH by lia. reflexivity.
Qed.

Lemma length_upd (l : list Z) (n : nat) (v : Z) : length (upd l n v) = length l.
Proof.
  revert n; induction l as [|h t IH]; intros [|n]; simpl; auto.
Qed.

Lemma nth_upd_eq (l : list Z) (n : nat) (v : Z) :
  (n < length l)%nat -> nth n (upd l n v) 0 = v.
Proof.
  revert n; induction l as [|h t IH]; intros [|n] Hn; simpl in *;
    try lia; auto.
  apply IH; lia.
Qed.

Lemma nth_upd_ne (l : list Z) (n m : nat) (v : Z) :
  n <> m -> nth m (upd l n v) 0 = nth m l 0.
Proof.
  revert n m; induction l as [|h t IH]; intros [|n] [|m] Hne; simpl;
    try reflexivity; try congruence.
  apply IH; congruence.
Qed.

Lemma firstn_upd_snoc (l : list Z) (n : nat) (v : Z) :
  (n < length l)%nat -> firstn (S n) (upd l n v) = firstn n l ++ [v].
Proof.
  revert n; induction l as [|h t IH]; intros [|n] Hn; simpl in *; try lia.
  - reflexivity.
  - f_equal. apply IH; lia.
Qed.

Lemma count_occ_upd (l : list Z) (n : nat) (v x : Z) :
  (n < length l)%nat ->
  (count_occ Z.eq_dec (upd l n v) x
     + (if Z.eq_dec (nth n l 0%Z) x then 1 else 0)
   = count_occ Z.eq_dec l x + (if Z.eq_dec v x then 1 else 0))%nat.
Proof.
  revert n; induction l as [|h t IH]; intros [|n] Hn; simpl in *; try lia.
  - destruct (Z.eq_dec v x), (Z.eq_dec h x); lia.
  - specialize (IH n ltac:(lia)). destruct (Z.eq_dec h x); lia.
Qed.

Lemma length_swap_at (l : list Z) (i j : nat) :
  length (swap_at l i j) = length l.
Proof. unfold swap_at. now rewrite !length_upd. Qed.

Lemma swap_at_perm (l : list Z) (i j : nat) :
  (i < length l)%nat -> (j < length l)%nat -> Permutation (swap_at l i j) l.
Proof.
  intros Hi Hj. apply (Permutation_count_occ Z.eq_dec). intro x.
  unfold swap_at.
  pose proof (count_occ_upd l i (nth j l 0) x Hi) as H1.
  pose proof (count_occ_upd (upd l i (nth j l 0)) j (nth i l 0) x) as H2.
  rewrite length_upd in H2. specialize (H2 Hj).
  assert (Hnj : nth j (upd l i (nth j l 0)) 0 = nth j l 0).
  { destruct (Nat.eq_dec i j) as [->|Hne].
    - now apply nth_upd_eq.
    - now apply nth_upd_ne. }
  rewrite Hnj in H2. lia.
Qed.

(** Position [i] holds after the swap what position [j] held before. *)
Lemma nth_swap_at_left (l : list Z) (i j : nat) :
  (i < length l)%nat -> (j < length l)%nat ->
  nth i (swap_at l i j) 0 = nth j l 0.
Proof.
  intros Hi Hj. unfold swap_at. destruct (Nat.eq_dec j i) as [->|Hne].
  - rewrite nth_upd_eq; [reflexivity | now rewrite length_upd].
  - rewrite nth_upd_ne by assumption. now apply nth_upd_eq.
Qed.


Lemma nth_swap_at_other (l : list Z) (i j m : nat) :
  m <> i -> m <> j -> nth m (swap_at l i j) 0 = nth m l 0.
Proof.
  intros Hi Hj. unfold swap_at. rewrite !nth_upd_ne; auto.
Qed.

Lemma length_indices (n : nat) : length (indices n) = n.
Proof. unfold indices. now rewrite length_map, length_seq. Qed.


Lemma NoDup_indices (n : nat) : NoDup (indices n).
Proof.
  unfold indices. apply Finite.Injective_map_NoDup.
  - intros a b. apply Nat2Z.inj.
  - apply seq_NoDup.
Qed.

Lemma In_indices (n : nat) (z : Z) : In z (indices n) <-> 0 <= z < Z.of_nat n.
Proof.
  unfold indices. rewrite in_map_iff. split.
  - intros [m [<- Hm]]. apply in_seq in Hm. lia.
  - intros Hz. exists (Z.to_nat z). split; [lia|]. apply in_seq. lia.
Qed.

(** ** Running the primitive operations *)

Lemma load_order_run (w : world) (i : Z) :
  0 <= i < Z.of_nat (length (order w)) ->
  load_order i w = Done (nth (Z.to_nat i) (order w) 0) w.
Proof.
  intros Hi. unfold load_order, bind, get, lift, array_get.
  destruct (i <? 0) eqn:E; [lia|].
  rewrite (nth_error_nth' _ 0) by lia. reflexivity.
Qed.

Lemma store_order_run (w : world) (i v : Z) :
  0 <= i < Z.of_nat (length (order w)) ->
  store_order i v w = Done tt (set_order (upd (order w) (Z.to_nat i) v) w).
Proof.
  intros Hi. unfold store_order, bind, get, lift, array_set, modify.
  destruct (i <? 0) eqn:E; [lia|].
  rewrite list_set_upd by lia. reflexivity.
Qed.

Lemma anim_imgs_run (N : nat) (idx : Z) (w : world) :
  0 <= idx < Z.of_nat N ->
  lift (array_get (anim_imgs N) idx) w
  = Done (hammerbeam (S (Z.to_nat idx))) w.
Proof.
  intros Hi. unfold lift, array_get, anim_imgs.
  destruct (idx <? 0) eqn:E; [lia|].
  rewrite nth_error_map, (nth_error_nth' _ O) by (rewrite length_seq; lia).
  rewrite seq_nth by lia. reflexivity.
Qed.

Lemma uint8_small (z : Z) : 0 <= z < 256 -> uint8 z = z.
Proof. intros H. unfold uint8. now apply Z.mod_small. Qed.

Lemma uint8_range (z : Z) : 0 <= uint8 z < 256.
Proof. unfold uint8. apply Z.mod_pos_bound. lia. Qed.

Lemma uint32_range (z : Z) : word32 (uint32 z).
Proof. unfold uint32, word32. apply Z.mod_pos_bound. lia. Qed.

Lemma loop_start (N : nat) :
  (N <= 256)%nat ->
  Z.to_nat (int32 (uint32 (ART_FRAME_COUNT N - 1))) = (N - 1)%nat.
Proof.
  intros HN. unfold ART_FRAME_COUNT, int32, uint32.
  destruct N as [|n].
  - reflexivity.
  - rewrite (Z.mod_small (Z.of_nat (S n) - 1)) by lia.
    rewrite Z.mod_small by lia. lia.
Qed.

(** ** The first loop: identity fill *)

Lemma fill_loop_run (N : nat) (m : nat) :
  forall (i fuel : nat) (w : world),
    (N <= 255)%nat -> (i + m = N)%nat -> sized N w -> (m < fuel)%nat ->
    fill_loop N fuel (Z.of_nat i) w
    = Done tt (set_order (firstn i (order w) ++ map Z.of_nat (seq i m)) w).
Proof.
  induction m as [|m IH]; intros i fuel w HN Him Hw Hfuel;
    (destruct fuel as [|fuel]; [lia|]); simpl.
  - unfold ART_FRAME_COUNT. destruct (Z.of_nat i <? Z.of_nat N) eqn:E; [lia|].
    unfold ret, set_order. rewrite app_nil_r.
    red in Hw. rewrite firstn_all2 by lia. now destruct w.
  - unfold ART_FRAME_COUNT. destruct (Z.of_nat i <? Z.of_nat N) eqn:E; [|lia].
    red in Hw. unfold bind at 1. rewrite store_order_run by lia.
    rewrite uint8_small by lia.
    replace (Z.of_nat i + 1) with (Z.of_nat (S i)) by lia.
    rewrite IH; try lia.
    + unfold set_order; cbn [order order_pos drawn uptime slideshow_work calls].
      rewrite Nat2Z.id, firstn_upd_snoc by lia.
      rewrite <- app_assoc. reflexivity.
    + red. simpl. now rewrite length_upd.
Qed.

(** With 256 frames or more the eight-bit counter never reaches the bound:
    the loop does not end, whatever the fuel. *)
Lemma fill_loop_diverges (N : nat) (fuel : nat) :
  forall (i : Z) (w w' : world),
    (256 <= N)%nat -> 0 <= i < 256 -> fill_loop N fuel i w <> Done tt w'.
Proof.
  induction fuel as [|fuel IH]; intros i w w' HN Hi; simpl; [discriminate|].
  unfold ART_FRAME_COUNT. destruct (i <? Z.of_nat N) eqn:E; [|lia].
  unfold bind at 1. destruct (store_order i i w) as [[] w1| |];
    try discriminate.
  apply IH; [assumption | apply uint8_range].
Qed.

(** More fuel than the loop needs changes nothing. *)
Lemma fill_loop_fuel (N : nat) (fuel : nat) :
  forall (i : Z) (w w' : world),
    fill_loop N fuel i w = Done tt w' ->
    forall fuel', (fuel <= fuel')%nat -> fill_loop N fuel' i w = Done tt w'.
Proof.
  induction fuel as [|fuel IH]; intros i w w' H fuel' Hle; simpl in H;
    [discriminate|].
  destruct fuel' as [|fuel']; [lia|]. simpl.
  destruct (i <? ART_FRAME_COUNT N); [|assumption].
  unfold bind in *. destruct (store_order i i w) as [[] w1| |];
    try discriminate.
  apply IH with (fuel' := fuel') in H; [assumption | lia].
Qed.

(** ** The second loop: the swaps *)

Lemma sys_rand32_get_run (entropy : nat -> Z) (w : world) :
  sys_rand32_get entropy w
  = Done (uint32 (entropy (drawn w)))
         (log (sys_rand32_get_call (uint32 (entropy (drawn w))))
              (set_drawn (S (drawn w)) w)).
Proof. reflexivity. Qed.

Lemma swap_loop_S (entropy : nat -> Z) (k : nat) :
  swap_loop entropy (S k)
  = (r <- sys_rand32_get entropy ;;
     tmp <- load_order (Z.of_nat (S k)) ;;
     oj <- load_order (r mod (Z.of_nat (S k) + 1)) ;;
     store_order (Z.of_nat (S k)) oj ;;
     store_order (r mod (Z.of_nat (S k) + 1)) tmp ;;
     swap_loop entropy k).
Proof. reflexivity. Qed.

Lemma swap_loop_run (entropy : nat -> Z) (k : nat) :
  forall w : world,
    (k < length (order w))%nat ->
    swap_loop entropy k w
    = Done tt
        (mkWorld
           (apply_swaps k (picks_of k (words entropy k (drawn w))) (order w))
           (order_pos w) (drawn w + k) (uptime w) (slideshow_work w)
           (calls w ++ map sys_rand32_get_call (words entropy k (drawn w)))).
Proof.
  induction k as [|k IH]; intros w Hk.
  - simpl. unfold ret. rewrite Nat.add_0_r, app_nil_r. now destruct w.
  - rewrite swap_loop_S. unfold bind at 1. rewrite sys_rand32_get_run.
    set (r := uint32 (entropy (drawn w))).
    set (i := Z.of_nat (S k)).
    assert (Hj : 0 <= r mod (i + 1) < i + 1) by (apply Z.mod_pos_bound; lia).
    set (j := r mod (i + 1)) in *.
    set (w1 := log (sys_rand32_get_call r) (set_drawn (S (drawn w)) w)).
    assert (Hl1 : length (order w1) = length (order w)) by reflexivity.
    unfold bind at 1. rewrite load_order_run by lia.
    unfold bind at 1. rewrite load_order_run by lia.
    unfold bind at 1. rewrite store_order_run by lia.
    unfold bind at 1. rewrite store_order_run
      by (unfold set_order; simpl; rewrite length_upd; lia).
    rewrite IH by (unfold set_order; simpl; rewrite !length_upd; lia).
    unfold set_order, w1, log, set_drawn;
      cbn [order order_pos drawn uptime slideshow_work calls].
    unfold i at 1 2. rewrite Nat2Z.id.
    cbn [words picks_of apply_swaps map].
    fold r. fold i. fold j. unfold swap_at.
    rewrite <- app_assoc. cbn [app].
    f_equal. f_equal. lia.
Qed.

Lemma picks_of_valid (k : nat) :
  forall rs : list Z, length rs = k -> valid_picks k (picks_of k rs).
Proof.
  induction k as [|k IH]; intros [|r rs] H; simpl in *; try discriminate;
    auto.
  split.
  - assert (0 <= r mod (Z.of_nat (S k) + 1) < Z.of_nat (S k) + 1)
      by (apply Z.mod_pos_bound; lia).
    lia.
  - apply IH. lia.
Qed.

Lemma length_words (entropy : nat -> Z) (k : nat) :
  forall d : nat, length (words entropy k d) = k.
Proof. induction k as [|k IH]; intro d; simpl; auto. Qed.

Lemma words_word32 (entropy : nat -> Z) (k : nat) :
  forall d : nat, Forall word32 (words entropy k d).
Proof.
  induction k as [|k IH]; intro d; simpl; constructor; auto.
  apply uint32_range.
Qed.

Lemma length_apply_swaps (k : nat) :
  forall (js l : list Z), length (apply_swaps k js l) = length l.
Proof.
  induction k as [|k IH]; intros [|j js] l; simpl; auto.
  rewrite IH. apply length_swap_at.
Qed.

Lemma apply_swaps_perm (k : nat) :
  forall (js l : list Z),
    (k < length l)%nat -> valid_picks k js ->
    Permutation (apply_swaps k js l) l.
Proof.
  induction k as [|k IH]; intros [|j js] l Hk Hv; simpl in *;
    try reflexivity; try contradiction.
  destruct Hv as [Hj Hv].
  rewrite IH by (rewrite ?length_swap_at; auto; lia).
  apply swap_at_perm; lia.
Qed.

(** ** [shuffle_order] as a whole *)

Lemma shuffle_order_run (N : nat) (entropy : nat -> Z) (fuel : nat) (w : world) :
  (N <= 255)%nat -> sized N w -> (N < fuel)%nat ->
  shuffle_order N entropy fuel w
  = Done tt
      (mkWorld (shuffled N (words entropy (N - 1) (drawn w))) 0
         (drawn w + (N - 1)) (uptime w) (slideshow_work w)
         (calls w ++ shuffle_order_call
            :: map sys_rand32_get_call (words entropy (N - 1) (drawn w)))).
Proof.
  intros HN Hw Hfuel. unfold shuffle_order.
  unfold bind at 1. unfold emit at 1, modify at 1.
  unfold bind at 1.
  rewrite (fill_loop_run N N 0 fuel) by (auto; lia).
  rewrite loop_start by lia.
  unfold bind at 1.
  destruct N as [|n].
  - simpl. unfold ret, modify, set_order_pos, set_order, log, shuffled; simpl.
    rewrite Nat.add_0_r. reflexivity.
  - rewrite swap_loop_run.
    + unfold modify, set_order_pos, set_order, log, shuffled;
        cbn [order order_pos drawn uptime slideshow_work calls firstn app].
      fold (indices (S n)). rewrite <- app_assoc. reflexivity.
    + unfold set_order, log; cbn [order firstn app].
      fold (indices (S n)). rewrite length_indices. lia.
Qed.

Lemma shuffle_order_fuel (N : nat) (entropy : nat -> Z) (fuel fuel' : nat)
    (w w' : world) :
  shuffle_order N entropy fuel w = Done tt w' -> (fuel <= fuel')%nat ->
  shuffle_order N entropy fuel' w = Done tt w'.
Proof.
  unfold shuffle_order. intros H Hle.
  unfold bind at 1. unfold bind at 1 in H.
  unfold emit at 1, modify at 1. unfold emit at 1, modify at 1 in H.
  unfold bind at 1. unfold bind at 1 in H.
  destruct (fill_loop N fuel 0 (log shuffle_order_call w)) as [[] w1| |] eqn:E;
    try discriminate.
  now rewrite (fill_loop_fuel N fuel 0 _ w1 E fuel' Hle).
Qed.

(** [shuffle_order] returns only for catalogs that an eight-bit counter can
    walk through. *)
Lemma shuffle_order_done_small (N : nat) (entropy : nat -> Z) (fuel : nat)
    (w w' : world) :
  shuffle_order N entropy fuel w = Done tt w' -> (N <= 255)%nat.
Proof.
  unfold shuffle_order. intros H.
  unfold bind at 1 in H. unfold emit at 1, modify at 1 in H.
  unfold bind at 1 in H.
  destruct (fill_loop N fuel 0 (log shuffle_order_call w)) as [[] w1| |] eqn:E;
    try discriminate.
  destruct (le_lt_dec N 255) as [Hle|Hgt]; [assumption|].
  exfalso. revert E. apply fill_loop_diverges; lia.
Qed.

(** What a returned [shuffle_order] left behind. *)
Lemma shuffle_order_done (N : nat) (entropy : nat -> Z) (fuel : nat)
    (w w' : world) :
  sized N w ->
  shuffle_order N entropy fuel w = Done tt w' ->
  (N <= 255)%nat /\
  w' = mkWorld (shuffled N (words entropy (N - 1) (drawn w))) 0
         (drawn w + (N - 1)) (uptime w) (slideshow_work w)
         (calls w ++ shuffle_order_call
            :: map sys_rand32_get_call (words entropy (N - 1) (drawn w))).
Proof.
  intros Hw H.
  pose proof (shuffle_order_done_small _ _ _ _ _ H) as HN.
  split; [assumption|].
  apply shuffle_order_fuel with (fuel' := (fuel + S N)%nat) in H; [|lia].
  rewrite shuffle_order_run in H by (auto; lia).
  now inversion H.
Qed.

Lemma shuffled_perm (N : nat) (rs : list Z) :
  length rs = (N - 1)%nat -> Permutation (shuffled N rs) (indices N).
Proof.
  intros Hrs. unfold shuffled. destruct N as [|n]; [reflexivity|].
  apply apply_swaps_perm.
  - rewrite length_indices. lia.
  - now apply picks_of_valid.
Qed.

Lemma length_shuffled (N : nat) (rs : list Z) : length (shuffled N rs) = N.
Proof. unfold shuffled. now rewrite length_apply_swaps, length_indices. Qed.

Lemma perm_indices_NoDup (N : nat) (l : list Z) :
  Permutation l (indices N) -> NoDup l.
Proof.
  intros H. apply Permutation_sym in H.
  apply (Permutation_NoDup H). apply NoDup_indices.
Qed.

Lemma perm_indices_range (N : nat) (l : list Z) (n : nat) :
  Permutation l (indices N) -> (n < N)%nat -> 0 <= nth n l 0 < Z.of_nat N.
Proof.
  intros H Hn. apply In_indices.
  apply (Permutation_in _ H). apply nth_In.
  rewrite (Permutation_length H), length_indices. assumption.
Qed.

(** ** One run of the handler *)

Ltac run_emit := unfold bind at 1; unfold emit at 1, modify at 1.
Ltac run_get := unfold bind at 1; unfold get at 1.

Lemma k_work_schedule_run (delay : Z) (w : world) :
  k_work_schedule delay w
  = Done tt (mkWorld (order w) (order_pos w) (drawn w) (uptime w)
               (match slideshow_work w with
                | Some d => Some d
                | None => Some (uptime w + delay)
                end)
               (calls w ++ [k_work_schedule_call delay])).
Proof.
  unfold k_work_schedule. run_emit. run_get.
  unfold log; cbn [slideshow_work].
  destruct (slideshow_work w) as [d|]; reflexivity.
Qed.

(** The handler from the point where the cursor is known to be inside the
    array. *)
Lemma handler_tail_run_wrap (N : nat) (w : world) :
  sized N w ->
  0 <= order_pos w < Z.of_nat N ->
  0 <= frame_at_cursor w < Z.of_nat N ->
  (emit lv_obj_clean_call ;;
   emit lv_img_create_call ;;
   pos <- get order_pos ;;
   idx <- load_order pos ;;
   modify (set_order_pos (uint8 (pos + 1))) ;;
   src <- lift (array_get (anim_imgs N) idx) ;;
   emit (lv_img_set_src_call src) ;;
   emit lv_obj_align_call ;;
   k_work_schedule ART_ROTATE_INTERVAL) w
  = Done tt
      (mkWorld (order w) (uint8 (order_pos w + 1)) (drawn w) (uptime w)
         (armed (uptime w) (slideshow_work w))
         (calls w ++ display_calls (frame_at_cursor w))).
Proof.
  intros Hw Hpos Hidx. red in Hw.
  run_emit. run_emit. run_get.
  unfold log at 1 2; cbn [order_pos].
  unfold bind at 1. rewrite load_order_run by (unfold log; simpl; lia).
  unfold log at 1 2 3 4; cbn [order].
  fold (frame_at_cursor w).
  unfold bind at 1. unfold modify at 1.
  unfold bind at 1. rewrite anim_imgs_run by assumption.
  run_emit. run_emit.
  rewrite k_work_schedule_run.
  unfold log, set_order_pos, armed, display_calls;
    cbn [order order_pos drawn uptime slideshow_work calls].
  rewrite <- !app_assoc. reflexivity.
Qed.

Lemma handler_tail_run (N : nat) (w : world) :
  sized N w -> (N <= 255)%nat ->
  0 <= order_pos w < Z.of_nat N ->
  0 <= frame_at_cursor w < Z.of_nat N ->
  (emit lv_obj_clean_call ;;
   emit lv_img_create_call ;;
   pos <- get order_pos ;;
   idx <- load_order pos ;;
   modify (set_order_pos (uint8 (pos + 1))) ;;
   src <- lift (array_get (anim_imgs N) idx) ;;
   emit (lv_img_set_src_call src) ;;
   emit lv_obj_align_call ;;
   k_work_schedule ART_ROTATE_INTERVAL) w
  = Done tt
      (mkWorld (order w) (order_pos w + 1) (drawn w) (uptime w)
         (armed (uptime w) (slideshow_work w))
         (calls w ++ display_calls (frame_at_cursor w))).
Proof.
  intros Hw HN Hpos Hidx. rewrite (handler_tail_run_wrap N) by assumption.
  rewrite uint8_small by lia. reflexivity.
Qed.

Lemma handler_run_below (N : nat) (entropy : nat -> Z) (fuel : nat) (w : world) :
  sized N w -> (N <= 255)%nat ->
  0 <= order_pos w < Z.of_nat N ->
  0 <= frame_at_cursor w < Z.of_nat N ->
  slideshow_work_cb N entropy fuel w
  = Done tt
      (mkWorld (order w) (order_pos w + 1) (drawn w) (uptime w)
         (armed (uptime w) (slideshow_work w))
         (calls w ++ display_calls (frame_at_cursor w))).
Proof.
  intros Hw HN Hpos Hidx. unfold slideshow_work_cb. run_get.
  unfold ART_FRAME_COUNT.
  destruct (order_pos w >=? Z.of_nat N) eqn:E; [lia|].
  unfold bind at 1. unfold ret at 1.
  now apply handler_tail_run.
Qed.

Lemma handler_run_exhausted (N : nat) (entropy : nat -> Z) (fuel : nat)
    (w : world) :
  sized N w -> (1 <= N <= 255)%nat -> Z.of_nat N <= order_pos w ->
  (N < fuel)%nat ->
  slideshow_work_cb N entropy fuel w
  = Done tt
      (mkWorld (shuffled N (words entropy (N - 1) (drawn w))) 1
         (drawn w + (N - 1)) (uptime w)
         (armed (uptime w) (slideshow_work w))
         (calls w
            ++ (shuffle_order_call
                  :: map sys_rand32_get_call (words entropy (N - 1) (drawn w)))
            ++ display_calls
                 (nth 0 (shuffled N (words entropy (N - 1) (drawn w))) 0))).
Proof.
  intros Hw HN Hpos Hfuel. unfold slideshow_work_cb. run_get.
  unfold ART_FRAME_COUNT.
  destruct (order_pos w >=? Z.of_nat N) eqn:E; [|lia].
  unfold bind at 1. rewrite shuffle_order_run by (auto; lia).
  set (rs := words entropy (N - 1) (drawn w)).
  assert (Hperm : Permutation (shuffled N rs) (indices N))
    by (apply shuffled_perm; apply length_words).
  rewrite handler_tail_run.
  - unfold frame_at_cursor;
      cbn [order order_pos drawn uptime slideshow_work calls Z.to_nat].
    rewrite <- app_assoc. reflexivity.
  - red. cbn [order]. apply length_shuffled.
  - lia.
  - cbn [order_pos]. lia.
  - unfold frame_at_cursor; cbn [order order_pos Z.to_nat].
    apply perm_indices_range; [assumption | lia].
Qed.

(** ** Frames and reshuffles read off the call log *)

Lemma shown_app (cs ds : list call) : shown (cs ++ ds) = shown cs ++ shown ds.
Proof. unfold shown. apply flat_map_app. Qed.

Lemma shown_rands (rs : list Z) : shown (map sys_rand32_get_call rs) = [].
Proof. induction rs as [|r rs IH]; simpl; auto. Qed.

Lemma shown_display_calls (idx : Z) : 0 <= idx -> shown (display_calls idx) = [idx].
Proof.
  intros H. unfold display_calls, shown. cbn [flat_map frame_of app].
  f_equal. lia.
Qed.

Lemma reshuffles_app (cs ds : list call) :
  reshuffles (cs ++ ds) = (reshuffles cs + reshuffles ds)%nat.
Proof. unfold reshuffles. now rewrite filter_app, length_app. Qed.

Lemma reshuffles_rands (rs : list Z) :
  reshuffles (map sys_rand32_get_call rs) = O.
Proof. induction rs as [|r rs IH]; simpl; auto. Qed.

Lemma reshuffles_display_calls (idx : Z) : reshuffles (display_calls idx) = O.
Proof. reflexivity. Qed.

Lemma until_shuffle_app (cs ds : list call) :
  until_shuffle (cs ++ ds)
  = if existsb is_shuffle cs then until_shuffle cs
    else cs ++ until_shuffle ds.
Proof.
  induction cs as [|c cs IH]; simpl; [reflexivity|].
  destruct (is_shuffle c); simpl; [reflexivity|].
  rewrite IH. destruct (existsb is_shuffle cs); reflexivity.
Qed.

Lemma existsb_rev_eq (f : call -> bool) (cs : list call) :
  existsb f (rev cs) = existsb f cs.
Proof.
  induction cs as [|c cs IH]; simpl; [reflexivity|].
  rewrite existsb_app, IH. simpl. rewrite orb_false_r. apply orb_comm.
Qed.

(** Calls that contain no reshuffle extend the frames shown since the last
    one; a reshuffle starts the list afresh. *)
Lemma shown_since_shuffle_app (cs ds : list call) :
  shown_since_shuffle (cs ++ ds)
  = if existsb is_shuffle ds then shown_since_shuffle ds
    else shown_since_shuffle cs ++ shown ds.
Proof.
  unfold shown_since_shuffle. rewrite rev_app_distr, until_shuffle_app.
  rewrite existsb_rev_eq.
  destruct (existsb is_shuffle ds); [reflexivity|].
  rewrite rev_app_distr, rev_involutive. apply shown_app.
Qed.

(** ** Consecutive runs of the handler *)




Lemma no_shuffle_flat_display (l : list Z) :
  existsb is_shuffle (flat_map display_calls l) = false.
Proof.
  induction l as [|z l IH]; [reflexivity|].
  cbn [flat_map]. rewrite existsb_app, IH. reflexivity.
Qed.




(** ** The properties of the design document *)

(** What [shuffle_order] leaves behind, put as a property of the state. *)
Lemma shuffle_order_post (N : nat) (entropy : nat -> Z) (fuel : nat)
    (w w' : world) :
  sized N w -> shuffle_order N entropy fuel w = Done tt w' ->
  (N <= 255)%nat /\ sized N w' /\ Permutation (order w') (indices N) /\
  order_pos w' = 0 /\ uptime w' = uptime w /\
  slideshow_work w' = slideshow_work w /\
  calls w' = calls w ++ shuffle_order_call
               :: map sys_rand32_get_call (words entropy (N - 1) (drawn w)).
Proof.
  intros Hw H. destruct (shuffle_order_done _ _ _ _ _ Hw H) as [HN ->].
  cbn [order order_pos uptime slideshow_work calls].
  repeat split; try assumption.
  - red. cbn [order]. apply length_shuffled.
  - apply shuffled_perm, length_words.
Qed.

Lemma perm_indices_In (N : nat) (l : list Z) :
  Permutation l (indices N) ->
  forall z : Z, In z l <-> 0 <= z < Z.of_nat N.
Proof.
  intros H z. rewrite <- In_indices. split; apply Permutation_in.
  - assumption.
  - now apply Permutation_sym.
Qed.

(** C2, as amended: for every catalog size [1 <= N <= 255] and every
    sequence of words from the random source, [shuffle_order] returns, and
    then [order] is a permutation of the indices [0 .. N-1] without
    duplicates and the cursor [order_pos] is 0. *)
Theorem shuffle_order_permutation (N : nat) (entropy : nat -> Z) (fuel : nat)
    (w : world) :
  (1 <= N <= 255)%nat -> sized N w -> (N < fuel)%nat ->
  exists w' : world,
    shuffle_order N entropy fuel w = Done tt w' /\
    Permutation (order w') (indices N) /\
    NoDup (order w') /\
    (forall z : Z, In z (order w') <-> 0 <= z < Z.of_nat N) /\
    order_pos w' = 0.
Proof.
  intros HN Hw Hfuel.
  eexists. split; [apply shuffle_order_run; auto; lia|].
  cbn [order order_pos].
  assert (Hperm : Permutation (shuffled N (words entropy (N - 1) (drawn w)))
                    (indices N)) by apply shuffled_perm, length_words.
  split; [assumption|]. split; [now apply perm_indices_NoDup with (N := N)|].
  split; [now apply perm_indices_In | reflexivity].
Qed.

Lemma shuffle_order_permutation_witness :
  exists w' : world,
    shuffle_order 5 (fun n => 2654435761 * Z.of_nat n + 12345) 6 (boot 5 0)
    = Done tt w' /\
    Permutation (order w') (indices 5) /\
    NoDup (order w') /\
    (forall z : Z, In z (order w') <-> 0 <= z < Z.of_nat 5) /\
    order_pos w' = 0.
Proof.
  apply shuffle_order_permutation; [lia | reflexivity | lia].
Defined.

(** C2 as stated fails for a catalog of 256 frames: the eight-bit counter of
    the identity fill never reaches the bound, so [shuffle_order] does not
    return, whatever the fuel. *)
Lemma shuffle_order_256_never_returns :
  ~ exists (fuel : nat) (w' : world),
      shuffle_order 256 (fun _ => 0) fuel (boot 256 0) = Done tt w'.
Proof.
  intros [fuel [w' H]]. apply shuffle_order_done_small in H. lia.
Qed.





(** ** The invariant of the reachable states *)

Lemma shown_since_shuffle_restart (cs ds : list call) :
  existsb is_shuffle ds = false ->
  shown_since_shuffle (cs ++ shuffle_order_call :: ds) = shown ds.
Proof.
  intros Hds.
  change (shuffle_order_call :: ds) with ([shuffle_order_call] ++ ds).
  rewrite app_assoc, shown_since_shuffle_app, Hds.
  rewrite shown_since_shuffle_app. reflexivity.
Qed.

Lemma no_shuffle_rands (rs : list Z) :
  existsb is_shuffle (map sys_rand32_get_call rs) = false.
Proof. induction rs as [|r rs IH]; simpl; auto. Qed.

Lemma firstn_succ_nth (l : list Z) (p : nat) :
  (p < length l)%nat -> firstn (S p) l = firstn p l ++ [nth p l 0].
Proof.
  revert p; induction l as [|h t IH]; intros [|p] Hp; simpl in *; try lia.
  - reflexivity.
  - f_equal. apply IH. lia.
Qed.

Lemma handler_fuel (N : nat) (entropy : nat -> Z) (fuel fuel' : nat)
    (w w' : world) :
  slideshow_work_cb N entropy fuel w = Done tt w' -> (fuel <= fuel')%nat ->
  slideshow_work_cb N entropy fuel' w = Done tt w'.
Proof.
  unfold slideshow_work_cb. intros H Hle.
  unfold bind at 1. unfold bind at 1 in H. unfold get at 1.
  unfold get at 1 in H.
  destruct (order_pos w >=? ART_FRAME_COUNT N); [|exact H].
  unfold bind at 1. unfold bind at 1 in H.
  destruct (shuffle_order N entropy fuel w) as [[] w1| |] eqn:E;
    try discriminate.
  now rewrite (shuffle_order_fuel _ _ _ _ _ _ E Hle).
Qed.

(** With an empty catalog the handler has nothing to read. *)
Lemma handler_empty_catalog (entropy : nat -> Z) (fuel : nat) (w w' : world) :
  sized 0 w -> slideshow_work_cb 0 entropy fuel w <> Done tt w'.
Proof.
  intros Hw. unfold slideshow_work_cb. run_get.
  assert (Htail : forall w1 : world, order w1 = [] ->
            (emit lv_obj_clean_call ;;
             emit lv_img_create_call ;;
             pos <- get order_pos ;;
             idx <- load_order pos ;;
             modify (set_order_pos (uint8 (pos + 1))) ;;
             src <- lift (array_get (anim_imgs 0) idx) ;;
             emit (lv_img_set_src_call src) ;;
             emit lv_obj_align_call ;;
             k_work_schedule ART_ROTATE_INTERVAL) w1 <> Done tt w').
  { intros w1 Hw1. run_emit. run_emit. run_get. unfold bind at 1.
    unfold load_order, bind, get, lift, array_get, log; cbn [order order_pos].
    rewrite Hw1. destruct (order_pos w1 <? 0); [discriminate|].
    destruct (Z.to_nat (order_pos w1)); discriminate. }
  destruct (order_pos w >=? ART_FRAME_COUNT 0).
  - unfold bind at 1.
    destruct (shuffle_order 0 entropy fuel w) as [[] w1| |] eqn:E;
      try discriminate.
    apply Htail. destruct (shuffle_order_done _ _ _ _ _ Hw E) as [_ ->].
    reflexivity.
  - unfold bind at 1. unfold ret at 1. apply Htail.
    red in Hw. now apply length_zero_iff_nil.
Qed.

Section Invariant.

Variable N : nat.
Variable entropy : nat -> Z.
Hypothesis N_small : (N <= 255)%nat.

Lemma inv_after_shuffle (fuel : nat) (w w' : world) :
  sized N w -> shuffle_order N entropy fuel w = Done tt w' ->
  sequencer_inv N w'.
Proof.
  intros Hw H. destruct (shuffle_order_post _ _ _ _ _ Hw H)
    as [_ [Hw' [Hperm [Hpos [_ [_ Hc]]]]]].
  split; try assumption.
  - lia.
  - now apply perm_indices_NoDup with (N := N).
  - rewrite Hpos, Hc. cbn [Z.to_nat firstn].
    rewrite shown_since_shuffle_restart by apply no_shuffle_rands.
    now rewrite shown_rands.
Qed.

Lemma inv_log_quiet (c : call) (w : world) :
  is_shuffle c = false -> frame_of c = [] ->
  sequencer_inv N w -> sequencer_inv N (log c w).
Proof.
  intros Hc Hf [Hs Hp Hperm Hnd Hsh]. split; try assumption.
  unfold log; cbn [order order_pos calls].
  rewrite shown_since_shuffle_app. cbn [existsb]. rewrite Hc.
  cbn [orb shown flat_map]. rewrite Hf, !app_nil_r. exact Hsh.
Qed.

Lemma inv_after_handler (fuel : nat) (w w' : world) :
  sequencer_inv N w -> slideshow_work_cb N entropy fuel w = Done tt w' ->
  sequencer_inv N w'.
Proof.
  intros Hinv H. pose proof Hinv as [Hs Hp Hperm Hnd Hsh].
  destruct N as [|n] eqn:EN.
  { exfalso. revert H. now apply handler_empty_catalog. }
  rewrite <- EN in *.
  destruct (Z.eq_dec (order_pos w) (Z.of_nat N)) as [Hend|Hbelow].
  - apply handler_fuel with (fuel' := (fuel + S N)%nat) in H; [|lia].
    rewrite handler_run_exhausted in H by (auto; lia).
    inversion H; subst w'; clear H.
    set (rs := words entropy (N - 1) (drawn w)).
    assert (Hperm' : Permutation (shuffled N rs) (indices N))
      by apply shuffled_perm, length_words.
    split; cbn [order order_pos calls].
    + red. cbn [order]. apply length_shuffled.
    + lia.
    + assumption.
    + now apply perm_indices_NoDup with (N := N).
    + rewrite shown_since_shuffle_restart
        by (rewrite existsb_app, no_shuffle_rands; reflexivity).
      rewrite shown_app, shown_rands, shown_display_calls
        by (apply (perm_indices_range N _ 0 Hperm'); lia).
      change (Z.to_nat 1) with 1%nat.
      rewrite (firstn_succ_nth _ 0) by (rewrite length_shuffled; lia).
      reflexivity.
  - assert (Hidx : 0 <= frame_at_cursor w < Z.of_nat N).
    { unfold frame_at_cursor. apply perm_indices_range; [assumption | lia]. }
    rewrite handler_run_below in H by (auto; lia).
    inversion H; subst w'; clear H.
    split; cbn [order order_pos calls]; try assumption.
    + lia.
    + rewrite shown_since_shuffle_app.
      change (existsb is_shuffle (display_calls (frame_at_cursor w)))
        with false.
      cbv iota. rewrite shown_display_calls, <- Hsh by lia.
      replace (Z.to_nat (order_pos w + 1)) with (S (Z.to_nat (order_pos w)))
        by lia.
      red in Hs. rewrite firstn_succ_nth by lia. reflexivity.
Qed.

Lemma inv_frame (f : world -> world) (w : world) :
  order (f w) = order w -> order_pos (f w) = order_pos w ->
  calls (f w) = calls w ->
  sequencer_inv N w -> sequencer_inv N (f w).
Proof.
  intros Ho Hp Hc [Hs Hcur Hperm Hnd Hsh].
  split; unfold sized; rewrite ?Ho, ?Hp, ?Hc; assumption.
Qed.

Lemma inv_after_step (w w' : world) :
  sequencer_inv N w -> step N entropy w w' -> sequencer_inv N w'.
Proof.
  intros Hinv Hstep. destruct Hstep as [fuel w w' H|fuel t w w' H|w|w w' H].
  - eapply inv_after_handler; eassumption.
  - unfold workq_dispatch in H.
    destruct (slideshow_work w) as [d|]; [|discriminate].
    destruct ((d <=? t) && (uptime w <=? t)); [|discriminate].
    eapply inv_after_handler; [|exact H].
    apply (inv_frame (fun x => set_slideshow_work None (set_uptime t x)));
      auto.
  - now apply inv_log_quiet.
  - rewrite k_work_schedule_run in H. inversion H; subst w'; clear H.
    apply (inv_log_quiet (k_work_schedule_call ART_ROTATE_INTERVAL))
      with (w := set_slideshow_work
                   (armed (uptime w) (slideshow_work w)) w); auto.
    apply (inv_frame (set_slideshow_work _)); auto.
Qed.

End Invariant.

Lemma reachable_small (N : nat) (entropy : nat -> Z) (w : world) :
  reachable N entropy w -> (N <= 255)%nat.
Proof.
  induction 1 as [t fuel w H|w w' _ IH _]; [|assumption].
  eapply shuffle_order_done_small; eassumption.
Qed.

Lemma sized_boot (N : nat) (t : Z) : sized N (boot N t).
Proof. red. cbn [boot order]. apply repeat_length. Qed.

Lemma reachable_inv (N : nat) (entropy : nat -> Z) (w : world) :
  reachable N entropy w -> sequencer_inv N w.
Proof.
  intros Hr. pose proof (reachable_small _ _ _ Hr) as HN.
  induction Hr as [t fuel w H|w w' Hr IH Hstep].
  - eapply inv_after_shuffle; [assumption | apply sized_boot | eassumption].
  - eapply inv_after_step; eauto.
Qed.




(** ** Array accesses stay in bounds *)

Lemma fill_loop_no_fault (N : nat) (fuel : nat) :
  forall (i : Z) (w : world),
    sized N w -> 0 <= i -> fill_loop N fuel i w <> Fault.
Proof.
  induction fuel as [|fuel IH]; intros i w Hw Hi; simpl; [discriminate|].
  unfold ART_FRAME_COUNT. destruct (i <? Z.of_nat N) eqn:E;
    [|unfold ret; discriminate].
  red in Hw. unfold bind at 1. rewrite store_order_run by lia.
  apply IH.
  - red. unfold set_order; cbn [order]. now rewrite length_upd.
  - apply uint8_range.
Qed.

Lemma shuffle_order_no_fault (N : nat) (entropy : nat -> Z) (fuel : nat)
    (w : world) :
  sized N w -> shuffle_order N entropy fuel w <> Fault.
Proof.
  intros Hw.
  destruct (shuffle_order N entropy fuel w) as [[] w'| |] eqn:E;
    try discriminate.
  exfalso. revert E. unfold shuffle_order.
  unfold bind at 1. unfold emit at 1, modify at 1. unfold bind at 1.
  assert (Hw0 : sized N (log shuffle_order_call w)) by exact Hw.
  destruct (fill_loop N fuel 0 (log shuffle_order_call w)) as [[] w1| |] eqn:F;
    try discriminate.
  - assert (HN : (N <= 255)%nat).
    { destruct (le_lt_dec N 255) as [Hle|Hgt]; [assumption|].
      exfalso. revert F. apply fill_loop_diverges; lia. }
    apply fill_loop_fuel with (fuel' := (fuel + S N)%nat) in F; [|lia].
    rewrite (fill_loop_run N N 0) in F by (auto; lia).
    inversion F; subst w1; clear F.
    rewrite loop_start by lia. unfold bind at 1.
    destruct N as [|n]; [discriminate|].
    rewrite swap_loop_run; [discriminate|].
    unfold set_order, log; cbn [order firstn app].
    fold (indices (S n)). rewrite length_indices. lia.
  - intros _. revert F. apply fill_loop_no_fault; [assumption | lia].
Qed.

(** C9: for every [N >= 1], from a state where [order] is a permutation of
    [0 .. N-1] and the cursor is at most [N], a run of the handler never
    indexes an array outside its bounds: [order] is read at a cursor below
    [N] (the cursor itself, or 0 after the reshuffle on exhaustion), and the
    value read is below [N] when it indexes [anim_imgs].  With at most 255
    frames and enough fuel for the fill loop the run returns. *)
Theorem handler_accesses_in_bounds (N : nat) (entropy : nat -> Z) (w : world) :
  (1 <= N)%nat -> Permutation (order w) (indices N) ->
  0 <= order_pos w <= Z.of_nat N ->
  (forall fuel : nat, slideshow_work_cb N entropy fuel w <> Fault) /\
  (forall (fuel : nat) (w' : world),
     slideshow_work_cb N entropy fuel w = Done tt w' ->
     0 <= read_cursor N w < Z.of_nat N /\
     0 <= nth (Z.to_nat (read_cursor N w)) (order w') 0 < Z.of_nat N /\
     array_get (order w') (read_cursor N w)
     = Some (nth (Z.to_nat (read_cursor N w)) (order w') 0) /\
     array_get (anim_imgs N) (nth (Z.to_nat (read_cursor N w)) (order w') 0)
     = Some (hammerbeam
               (S (Z.to_nat (nth (Z.to_nat (read_cursor N w)) (order w') 0))))) /\
  ((N <= 255)%nat -> forall fuel : nat, (N < fuel)%nat ->
     exists w' : world, slideshow_work_cb N entropy fuel w = Done tt w').
Proof.
  intros HN Hperm Hpos.
  assert (Hw : sized N w)
    by (red; rewrite (Permutation_length Hperm); apply length_indices).
  assert (Hcases :
    forall fuel : nat,
    exists r : outcome unit,
      slideshow_work_cb N entropy fuel w = r /\
      (r = Timeout \/
       exists w1 : world,
         sized N w1 /\ Permutation (order w1) (indices N) /\
         order_pos w1 = read_cursor N w /\
         0 <= read_cursor N w < Z.of_nat N /\
         r = Done tt
               (mkWorld (order w1) (uint8 (order_pos w1 + 1)) (drawn w1)
                  (uptime w1) (armed (uptime w1) (slideshow_work w1))
                  (calls w1 ++ display_calls (frame_at_cursor w1))))).
  { intro fuel. unfold slideshow_work_cb, read_cursor. run_get.
    unfold ART_FRAME_COUNT.
    destruct (order_pos w >=? Z.of_nat N) eqn:E.
    - unfold bind at 1.
      destruct (shuffle_order N entropy fuel w) as [[] w1| |] eqn:S.
      + destruct (shuffle_order_post _ _ _ _ _ Hw S)
          as [_ [Hw1 [Hperm1 [Hpos1 _]]]].
        rewrite (handler_tail_run_wrap N); [|assumption|lia|].
        * eexists. split; [reflexivity|]. right. exists w1.
          repeat (split; [assumption || lia|]). reflexivity.
        * unfold frame_at_cursor. rewrite Hpos1.
          apply perm_indices_range; [assumption | lia].
      + exfalso. revert S. now apply shuffle_order_no_fault.
      + eexists. split; [reflexivity|]. left. reflexivity.
    - unfold bind at 1. unfold ret at 1.
      rewrite (handler_tail_run_wrap N); [|assumption|lia|].
      + eexists. split; [reflexivity|]. right. exists w.
        repeat (split; [assumption || lia|]). reflexivity.
      + unfold frame_at_cursor. apply perm_indices_range; [assumption | lia]. }
  split; [|split].
  - intro fuel.
    destruct (Hcases fuel) as [r [-> [-> | [w1 [_ [_ [_ [_ ->]]]]]]]];
      discriminate.
  - intros fuel w' H.
    destruct (Hcases fuel)
      as [r [Hd [Ht | [w1 [Hw1 [Hperm1 [Hpos1 [Hr Hd']]]]]]]];
      [congruence|].
    rewrite Hd, Hd' in H. inversion H; subst w'; clear H. cbn [order].
    assert (Hv : 0 <= nth (Z.to_nat (read_cursor N w)) (order w1) 0
                 < Z.of_nat N)
      by (apply perm_indices_range; [assumption | lia]).
    split; [assumption|]. split; [assumption|]. split.
    + unfold array_get. destruct (read_cursor N w <? 0) eqn:E; [lia|].
      red in Hw1. apply nth_error_nth'. lia.
    + unfold array_get, anim_imgs.
      destruct (nth (Z.to_nat (read_cursor N w)) (order w1) 0 <? 0) eqn:E;
        [lia|].
      rewrite nth_error_map, (nth_error_nth' _ O) by (rewrite length_seq; lia).
      rewrite seq_nth by lia. reflexivity.
  - intros Hsmall fuel Hfuel.
    destruct (Z.eq_dec (order_pos w) (Z.of_nat N)) as [Hend|Hbelow].
    + eexists. apply handler_run_exhausted; auto; lia.
    + eexists. apply handler_run_below; auto; try lia.
      unfold frame_at_cursor. apply perm_indices_range; [assumption | lia].
Qed.

Lemma handler_accesses_in_bounds_witness :
  (forall fuel : nat,
     slideshow_work_cb 3 (fun n => Z.of_nat n) fuel
       (mkWorld [2; 0; 1] 3 0 0 None []) <> Fault) /\
  (forall (fuel : nat) (w' : world),
     slideshow_work_cb 3 (fun n => Z.of_nat n) fuel
       (mkWorld [2; 0; 1] 3 0 0 None []) = Done tt w' ->
     0 <= read_cursor 3 (mkWorld [2; 0; 1] 3 0 0 None []) < Z.of_nat 3 /\
     0 <= nth (Z.to_nat (read_cursor 3 (mkWorld [2; 0; 1] 3 0 0 None [])))
            (order w') 0 < Z.of_nat 3 /\
     array_get (order w') (read_cursor 3 (mkWorld [2; 0; 1] 3 0 0 None []))
     = Some (nth (Z.to_nat (read_cursor 3 (mkWorld [2; 0; 1] 3 0 0 None [])))
               (order w') 0) /\
     array_get (anim_imgs 3)
       (nth (Z.to_nat (read_cursor 3 (mkWorld [2; 0; 1] 3 0 0 None [])))
          (order w') 0)
     = Some (hammerbeam
               (S (Z.to_nat
                     (nth (Z.to_nat
                             (read_cursor 3 (mkWorld [2; 0; 1] 3 0 0 None [])))
                        (order w') 0))))) /\
  ((3 <= 255)%nat -> forall fuel : nat, (3 < fuel)%nat ->
     exists w' : world,
       slideshow_work_cb 3 (fun n => Z.of_nat n) fuel
         (mkWorld [2; 0; 1] 3 0 0 None []) = Done tt w').
Proof.
  apply handler_accesses_in_bounds.
  - lia.
  - change (Permutation [2; 0; 1] [0; 1; 2]).
    apply perm_trans with [0; 2; 1]; [apply perm_swap|].
    apply perm_skip, perm_swap.
  - cbn [order_pos]. lia.
Defined.

(** ** A catalog with a single frame *)




(** ** The handler and the initialisation, call by call *)

(** The two ways a run of the handler can go from a state that satisfies the
    invariant. *)
Lemma handler_done_cases (N : nat) (entropy : nat -> Z) (fuel : nat)
    (w w' : world) :
  sequencer_inv N w -> (N <= 255)%nat ->
  slideshow_work_cb N entropy fuel w = Done tt w' ->
  (order_pos w < Z.of_nat N /\
   0 <= frame_at_cursor w < Z.of_nat N /\
   w' = mkWorld (order w) (order_pos w + 1) (drawn w) (uptime w)
          (armed (uptime w) (slideshow_work w))
          (calls w ++ display_calls (frame_at_cursor w))) \/
  (order_pos w = Z.of_nat N /\
   0 <= nth 0 (shuffled N (words entropy (N - 1) (drawn w))) 0 < Z.of_nat N /\
   w' = mkWorld (shuffled N (words entropy (N - 1) (drawn w))) 1
          (drawn w + (N - 1)) (uptime w)
          (armed (uptime w) (slideshow_work w))
          (calls w
             ++ (shuffle_order_call
                   :: map sys_rand32_get_call (words entropy (N - 1) (drawn w)))
             ++ display_calls
                  (nth 0 (shuffled N (words entropy (N - 1) (drawn w))) 0))).
Proof.
  intros [Hs Hp Hperm Hnd Hsh] HN H.
  destruct N as [|n] eqn:EN.
  { exfalso. revert H. now apply handler_empty_catalog. }
  rewrite <- EN in *.
  destruct (Z.eq_dec (order_pos w) (Z.of_nat N)) as [Hend|Hbelow].
  - right. apply handler_fuel with (fuel' := (fuel + S N)%nat) in H; [|lia].
    rewrite handler_run_exhausted in H by (auto; lia).
    inversion H; subst w'; clear H.
    split; [assumption|]. split; [|reflexivity].
    apply perm_indices_range; [|lia]. apply shuffled_perm, length_words.
  - left.
    assert (Hidx : 0 <= frame_at_cursor w < Z.of_nat N).
    { unfold frame_at_cursor. apply perm_indices_range; [assumption | lia]. }
    rewrite handler_run_below in H by (auto; lia).
    inversion H; subst w'; clear H.
    split; [lia|]. split; [assumption | reflexivity].
Qed.

Lemma handler_returns (N : nat) (entropy : nat -> Z) (fuel : nat) (w : world) :
  sequencer_inv N w -> (1 <= N <= 255)%nat -> (N < fuel)%nat ->
  exists w' : world, slideshow_work_cb N entropy fuel w = Done tt w'.
Proof.
  intros [Hs Hp Hperm Hnd Hsh] HN Hfuel.
  destruct (Z.eq_dec (order_pos w) (Z.of_nat N)) as [Hend|Hbelow].
  - eexists. apply handler_run_exhausted; auto; lia.
  - eexists. apply handler_run_below; auto; try lia.
    unfold frame_at_cursor. apply perm_indices_range; [assumption | lia].
Qed.



(** The initialisation from power-up, as one state change. *)
Lemma init_run (N : nat) (entropy : nat -> Z) (fuel : nat) (t : Z) :
  (1 <= N <= 255)%nat -> (N < fuel)%nat ->
  zmk_widget_status_init N entropy fuel (boot N t)
  = Done tt
      (mkWorld (shuffled N (words entropy (N - 1) 0)) 1 (N - 1) t
         (Some (t + ART_ROTATE_INTERVAL))
         ((shuffle_order_call
             :: map sys_rand32_get_call (words entropy (N - 1) 0))
            ++ [k_work_init_delayable_call]
            ++ display_calls (nth 0 (shuffled N (words entropy (N - 1) 0)) 0)
            ++ [k_work_schedule_call ART_ROTATE_INTERVAL])).
Proof.
  intros HN Hfuel. unfold zmk_widget_status_init.
  unfold bind at 1. rewrite shuffle_order_run by (auto using sized_boot; lia).
  run_emit. unfold bind at 1.
  set (ord := shuffled N (words entropy (N - 1) 0)).
  assert (Hperm : Permutation ord (indices N))
    by apply shuffled_perm, length_words.
  rewrite handler_run_below.
  - rewrite k_work_schedule_run. unfold log, boot, frame_at_cursor, armed;
      cbn [order order_pos drawn uptime slideshow_work calls Z.to_nat app].
    fold ord. rewrite <- !app_assoc. reflexivity.
  - red. unfold log; cbn [order]. apply length_shuffled.
  - lia.
  - unfold log; cbn [order_pos]. lia.
  - unfold frame_at_cursor, log; cbn [order order_pos Z.to_nat].
    apply perm_indices_range; [assumption | lia].
Qed.

(** What a run of the handler by the work queue does to the clock, the
    pending deadline and the number of frames on the log. *)
Lemma dispatch_effect (N : nat) (entropy : nat -> Z) (fuel : nat) (t : Z)
    (w w' : world) :
  sequencer_inv N w -> (N <= 255)%nat ->
  workq_dispatch N entropy fuel t w = Done tt w' ->
  sequencer_inv N w' /\
  (exists d : Z, slideshow_work w = Some d /\ d <= t) /\
  uptime w <= t /\ uptime w' = t /\
  slideshow_work w' = Some (t + ART_ROTATE_INTERVAL) /\
  length (shown (calls w')) = S (length (shown (calls w))).
Proof.
  intros Hinv HN H.
  pose proof H as Hd. unfold workq_dispatch in Hd.
  destruct (slideshow_work w) as [d|] eqn:Ed; [|discriminate].
  destruct ((d <=? t) && (uptime w <=? t)) eqn:Et; [|discriminate].
  apply andb_true_iff in Et. destruct Et as [Et1 Et2].
  assert (Hinv0 : sequencer_inv N (set_slideshow_work None (set_uptime t w)))
    by (apply (inv_frame N (fun x => set_slideshow_work None (set_uptime t x)));
        auto).
  split; [eapply inv_after_handler; eassumption|].
  split; [exists d; split; [reflexivity | lia]|].
  split; [lia|].
  destruct (handler_done_cases _ _ _ _ _ Hinv0 HN Hd)
    as [[_ [Hidx ->]] | [_ [Hidx ->]]];
    cbn [uptime slideshow_work calls set_slideshow_work set_uptime armed];
    (split; [reflexivity|]); (split; [reflexivity|]).
  - rewrite shown_app, shown_display_calls, length_app by lia.
    cbn [length]. lia.
  - change (shuffle_order_call :: ?l) with ([shuffle_order_call] ++ l).
    rewrite !shown_app, shown_rands, shown_display_calls, !length_app by lia.
    cbn [length shown flat_map frame_of app]. lia.
Qed.

Lemma dispatched_not_before (N : nat) (entropy : nat -> Z) (T : Z)
    (w w' : world) :
  (N <= 255)%nat -> sequencer_inv N w ->
  slideshow_work w = Some T ->
  dispatched N entropy w w' ->
  sequencer_inv N w' /\ T <= uptime w' /\
  (length (shown (calls w)) < length (shown (calls w')))%nat.
Proof.
  intros HN Hinv Hpend Hd.
  induction Hd as [fuel t w w' H | fuel t w w1 w' Hd IH H].
  - destruct (dispatch_effect _ _ _ _ _ _ Hinv HN H)
      as [Hinv' [[d [Hd1 Hd2]] [_ [Hu [_ Hlen]]]]].
    split; [assumption|]. split; [|lia].
    rewrite Hpend in Hd1. inversion Hd1. lia.
  - destruct (IH Hinv Hpend) as [Hinv1 [Hu1 Hlen1]].
    destruct (dispatch_effect _ _ _ _ _ _ Hinv1 HN H)
      as [Hinv' [_ [Hle [Hu [_ Hlen]]]]].
    split; [assumption|]. split; lia.
Qed.

(** C7: the initialisation shuffles once, and does shuffle: it draws the
    first [N - 1] words of the random source and leaves in [order] the
    Fisher-Yates arrangement of [0 .. N-1] that these words pick, a
    permutation of the indices.  It then runs the handler once itself, so
    that exactly one frame, the first of this order, is on the display when
    it returns, and leaves the work item scheduled one [ART_ROTATE_INTERVAL]
    after the time of the initialisation; every later run of the handler, and
    so the second frame, comes from the work queue at a time not before that
    deadline. *)
Theorem init_shows_one_frame_then_waits (N : nat) (entropy : nat -> Z)
    (fuel : nat) (t : Z) :
  (1 <= N <= 255)%nat -> (N < fuel)%nat ->
  exists (w : world) (rs : list Z) (idx : Z),
    zmk_widget_status_init N entropy fuel (boot N t) = Done tt w /\
    rs = words entropy (N - 1) 0 /\
    order w = shuffled N rs /\
    Permutation (order w) (indices N) /\
    drawn w = (N - 1)%nat /\
    (exists w0 : world,
       shuffle_order N entropy fuel (boot N t) = Done tt w0 /\
       order w = order w0 /\ order_pos w0 = 0) /\
    calls w
    = shuffle_order_call
        :: map sys_rand32_get_call rs
        ++ [ k_work_init_delayable_call;
             lv_obj_clean_call; lv_img_create_call;
             lv_img_set_src_call (hammerbeam (S (Z.to_nat idx)));
             lv_obj_align_call;
             k_work_schedule_call ART_ROTATE_INTERVAL;
             k_work_schedule_call ART_ROTATE_INTERVAL ] /\
    reshuffles (calls w) = 1%nat /\
    shown (calls w) = [idx] /\
    idx = nth 0 (order w) 0 /\
    order_pos w = 1 /\
    uptime w = t /\
    slideshow_work w = Some (t + ART_ROTATE_INTERVAL) /\
    (forall (fuel' : nat) (t' : Z) (w' : world),
       workq_dispatch N entropy fuel' t' w = Done tt w' ->
       t + ART_ROTATE_INTERVAL <= t') /\
    (forall w' : world,
       dispatched N entropy w w' ->
       t + ART_ROTATE_INTERVAL <= uptime w' /\
       (2 <= length (shown (calls w')))%nat).
Proof.
  intros HN Hfuel.
  set (rs := words entropy (N - 1) 0).
  assert (Hperm : Permutation (shuffled N rs) (indices N))
    by apply shuffled_perm, length_words.
  assert (Hidx : 0 <= nth 0 (shuffled N rs) 0 < Z.of_nat N)
    by (apply perm_indices_range; [assumption | lia]).
  pose proof (init_run N entropy fuel t HN Hfuel) as Hrun. fold rs in Hrun.
  eexists _, rs, (nth 0 (shuffled N rs) 0).
  split; [exact Hrun|].
  cbn [order order_pos drawn uptime slideshow_work calls].
  assert (Hshown :
    shown ((shuffle_order_call :: map sys_rand32_get_call rs)
             ++ [k_work_init_delayable_call]
             ++ display_calls (nth 0 (shuffled N rs) 0)
             ++ [k_work_schedule_call ART_ROTATE_INTERVAL])
    = [nth 0 (shuffled N rs) 0]).
  { change (shuffle_order_call :: ?l) with ([shuffle_order_call] ++ l).
    rewrite !shown_app, shown_rands, shown_display_calls by lia.
    reflexivity. }
  assert (Hinv : sequencer_inv N
    (mkWorld (shuffled N rs) 1 (N - 1) t (Some (t + ART_ROTATE_INTERVAL))
       ((shuffle_order_call :: map sys_rand32_get_call rs)
          ++ [k_work_init_delayable_call]
          ++ display_calls (nth 0 (shuffled N rs) 0)
          ++ [k_work_schedule_call ART_ROTATE_INTERVAL]))).
  { split; cbn [order order_pos calls].
    - red. cbn [order]. apply length_shuffled.
    - lia.
    - assumption.
    - now apply perm_indices_NoDup with (N := N).
    - change ((shuffle_order_call :: ?l) ++ ?r)
        with ([] ++ shuffle_order_call :: (l ++ r)).
      rewrite shown_since_shuffle_restart
        by (rewrite existsb_app, no_shuffle_rands; reflexivity).
      rewrite !shown_app, shown_rands, shown_display_calls by lia.
      change (Z.to_nat 1) with 1%nat.
      rewrite (firstn_succ_nth _ 0) by (rewrite length_shuffled; lia).
      reflexivity. }
  split; [reflexivity|]. split; [reflexivity|]. split; [exact Hperm|].
  split; [reflexivity|].
  split.
  { eexists. split.
    - apply shuffle_order_run; [lia | apply sized_boot | assumption].
    - split; reflexivity. }
  split.
  { unfold display_calls. cbn [app]. reflexivity. }
  split.
  { change (shuffle_order_call :: ?l) with ([shuffle_order_call] ++ l).
    rewrite !reshuffles_app, reshuffles_rands, reshuffles_display_calls.
    reflexivity. }
  split; [exact Hshown|].
  split; [reflexivity|]. split; [reflexivity|]. split; [reflexivity|].
  split; [reflexivity|]. split.
  - intros fuel' t' w' H.
    destruct (dispatch_effect _ _ _ _ _ _ Hinv ltac:(lia) H)
      as [_ [[d [Hd1 Hd2]] _]].
    cbn [slideshow_work] in Hd1. inversion Hd1. lia.
  - intros w' Hd.
    destruct (dispatched_not_before N entropy (t + ART_ROTATE_INTERVAL) _ w'
                ltac:(lia) Hinv eq_refl Hd) as [_ [Hu Hlen]].
    split; [assumption|]. cbn [calls] in Hlen. rewrite Hshown in Hlen.
    cbn [length] in Hlen. lia.
Qed.

Lemma init_shows_one_frame_then_waits_witness :
  exists (w : world) (rs : list Z) (idx : Z),
    zmk_widget_status_init 30 (fun n => 2654435761 * Z.of_nat n + 40503) 31
      (boot 30 0) = Done tt w /\
    rs = words (fun n => 2654435761 * Z.of_nat n + 40503) (30 - 1) 0 /\
    order w = shuffled 30 rs /\
    Permutation (order w) (indices 30) /\
    drawn w = (30 - 1)%nat /\
    (exists w0 : world,
       shuffle_order 30 (fun n => 2654435761 * Z.of_nat n + 40503) 31
         (boot 30 0) = Done tt w0 /\
       order w = order w0 /\ order_pos w0 = 0) /\
    calls w
    = shuffle_order_call
        :: map sys_rand32_get_call rs
        ++ [ k_work_init_delayable_call;
             lv_obj_clean_call; lv_img_create_call;
             lv_img_set_src_call (hammerbeam (S (Z.to_nat idx)));
             lv_obj_align_call;
             k_work_schedule_call ART_ROTATE_INTERVAL;
             k_work_schedule_call ART_ROTATE_INTERVAL ] /\
    reshuffles (calls w) = 1%nat /\
    shown (calls w) = [idx] /\
    idx = nth 0 (order w) 0 /\
    order_pos w = 1 /\
    uptime w = 0 /\
    slideshow_work w = Some (0 + ART_ROTATE_INTERVAL) /\
    (forall (fuel' : nat) (t' : Z) (w' : world),
       workq_dispatch 30 (fun n => 2654435761 * Z.of_nat n + 40503) fuel' t' w
       = Done tt w' ->
       0 + ART_ROTATE_INTERVAL <= t') /\
    (forall w' : world,
       dispatched 30 (fun n => 2654435761 * Z.of_nat n + 40503) w w' ->
       0 + ART_ROTATE_INTERVAL <= uptime w' /\
       (2 <= length (shown (calls w')))%nat).
Proof.
  apply (init_shows_one_frame_then_waits 30
           (fun n => 2654435761 * Z.of_nat n + 40503) 31 0); lia.
Defined.

(** ** The three variants of the callback *)

(** C10: the two LVGL-timer callbacks [rotate_art_cb] and [slideshow_cb]
    and the work-queue handler [slideshow_work_cb] make the same transition
    on the sequencer state ([order], [order_pos], words drawn) and select
    the same frame, for the same catalog size and random words, from every
    state; they fail in the same way when they fail.  The handler differs
    from [slideshow_cb] by its final [k_work_schedule] only. *)
Theorem callback_variants_agree (N : nat) (entropy : nat -> Z) (fuel : nat)
    (w : world) :
  rotate_art_cb N entropy fuel w = slideshow_cb N entropy fuel w /\
  slideshow_work_cb N entropy fuel w
  = (slideshow_cb N entropy fuel ;; k_work_schedule ART_ROTATE_INTERVAL) w /\
  sequencer_view (rotate_art_cb N entropy fuel w)
  = sequencer_view (slideshow_work_cb N entropy fuel w) /\
  sequencer_view (slideshow_cb N entropy fuel w)
  = sequencer_view (slideshow_work_cb N entropy fuel w).
Proof.
  assert (H1 : rotate_art_cb N entropy fuel w = slideshow_cb N entropy fuel w).
  { unfold rotate_art_cb, slideshow_cb, art_images, anim_imgs, ART_FRAME_COUNT.
    rewrite length_map, length_seq. reflexivity. }
  assert (H2 : slideshow_work_cb N entropy fuel w
               = (slideshow_cb N entropy fuel ;;
                  k_work_schedule ART_ROTATE_INTERVAL) w).
  { cbv beta iota delta [slideshow_work_cb slideshow_cb bind get emit modify
                            ret load_order lift].
    destruct (order_pos w >=? ART_FRAME_COUNT N).
    - destruct (shuffle_order N entropy fuel w) as [[] w1| |];
        try reflexivity.
      cbn [order order_pos log].
      destruct (array_get (order w1) (order_pos w1)) as [idx|];
        try reflexivity.
      destruct (array_get (anim_imgs N) idx); reflexivity.
    - cbn [order order_pos log].
      destruct (array_get (order w) (order_pos w)) as [idx|];
        try reflexivity.
      destruct (array_get (anim_imgs N) idx); reflexivity. }
  assert (H3 : sequencer_view (slideshow_cb N entropy fuel w)
               = sequencer_view (slideshow_work_cb N entropy fuel w)).
  { rewrite H2. unfold bind at 1.
    destruct (slideshow_cb N entropy fuel w) as [[] w1| |]; try reflexivity.
    rewrite k_work_schedule_run. unfold sequencer_view.
    cbn [order order_pos drawn calls]. rewrite shown_app.
    cbn [shown flat_map frame_of app]. now rewrite app_nil_r. }
  split; [exact H1|]. split; [exact H2|]. split; [|exact H3].
  rewrite H1. exact H3.
Qed.

(** ** How many random words give a pick *)

Lemma count_mod_last (m j : Z) :
  0 <= j < m -> count_mod m j = (4294967296 - 1 - j) / m + 1.
Proof.
  intros Hj. unfold count_mod.
  pose proof (Z.div_mod 4294967296 m ltac:(lia)) as Hdm.
  pose proof (Z.mod_pos_bound 4294967296 m ltac:(lia)) as Hr.
  set (q := 4294967296 / m) in *. set (r := 4294967296 mod m) in *.
  destruct (j <? r) eqn:E.
  - assert ((4294967296 - 1 - j) / m = q); [|lia].
    symmetry. apply (Z.div_unique_pos _ _ q (r - 1 - j)); lia.
  - assert ((4294967296 - 1 - j) / m = q - 1); [|lia].
    symmetry. apply (Z.div_unique_pos _ _ (q - 1) (m + r - 1 - j)); lia.
Qed.

Lemma count_mod_pos (m j : Z) :
  0 <= j < m -> m <= 4294967296 -> 0 < count_mod m j.
Proof.
  intros Hj Hm. rewrite count_mod_last by assumption.
  assert (0 <= (4294967296 - 1 - j) / m) by (apply Z.div_pos; lia). lia.
Qed.

Lemma In_residues (m j r : Z) :
  0 <= j < m -> m <= 4294967296 ->
  In r (residues m j) <-> word32 r /\ r mod m = j.
Proof.
  intros Hj Hm. unfold residues, word32. rewrite in_map_iff.
  pose proof (count_mod_pos m j Hj Hm) as Hc.
  rewrite count_mod_last in * by assumption.
  assert (Hbound : m * ((4294967296 - 1 - j) / m) <= 4294967296 - 1 - j)
    by (apply Z.mul_div_le; lia).
  assert (Hupper : 4294967296 - 1 - j < m * ((4294967296 - 1 - j) / m + 1)).
  { pose proof (Z.mul_succ_div_gt (4294967296 - 1 - j) m ltac:(lia)). lia. }
  split.
  - intros [n [<- Hn]]. apply in_seq in Hn.
    assert (Hn' : Z.of_nat n <= (4294967296 - 1 - j) / m) by lia.
    split.
    + nia.
    + rewrite (Z.mul_comm m), Z.mod_add by lia.
      apply Z.mod_small. lia.
  - intros [Hr Hmod].
    exists (Z.to_nat (r / m)).
    pose proof (Z.div_mod r m ltac:(lia)) as Hdm. rewrite Hmod in Hdm.
    assert (0 <= r / m) by (apply Z.div_pos; lia).
    split; [rewrite Z2Nat.id by assumption; lia|].
    apply in_seq.
    assert (Hq : r / m = (r - j) / m).
    { replace (r - j) with (r / m * m) by lia.
      now rewrite Z.div_mul by lia. }
    assert (r / m <= (4294967296 - 1 - j) / m); [|lia].
    rewrite Hq. apply Z.div_le_mono; lia.
Qed.

Lemma NoDup_residues (m j : Z) : 0 < m -> NoDup (residues m j).
Proof.
  intros Hm. unfold residues. apply Finite.Injective_map_NoDup.
  - intros a b H. nia.
  - apply seq_NoDup.
Qed.

Lemma length_residues (m j : Z) :
  0 <= j < m -> m <= 4294967296 ->
  Z.of_nat (length (residues m j)) = count_mod m j.
Proof.
  intros Hj Hm. unfold residues. rewrite length_map, length_seq.
  pose proof (count_mod_pos m j Hj Hm). lia.
Qed.

(** ** The streams behind a vector of picks *)

Lemma NoDup_flat_map_cons (l : list Z) (L : list (list Z)) :
  NoDup l -> NoDup L -> NoDup (flat_map (fun r => map (cons r) L) l).
Proof.
  intros Hl HL. induction Hl as [|a l Ha Hl IH]; [constructor|].
  cbn [flat_map]. apply NoDup_app.
  - apply Finite.Injective_map_NoDup; [|assumption].
    intros x y H. now inversion H.
  - assumption.
  - intros rs H1 H2. apply in_map_iff in H1. destruct H1 as [x [<- _]].
    apply in_flat_map in H2. destruct H2 as [r [Hr H2]].
    apply in_map_iff in H2. destruct H2 as [y [Heq _]].
    inversion Heq; subst. contradiction.
Qed.

Lemma In_streams (k : nat) :
  forall (js rs : list Z),
    valid_picks k js -> Z.of_nat k + 1 <= 4294967296 ->
    In rs (streams k js) <->
    length rs = k /\ Forall word32 rs /\ picks_of k rs = js.
Proof.
  induction k as [|k IH]; intros [|j js] rs Hv Hk; try contradiction.
  - cbn [streams picks_of]. split.
    + intros [<- | []]. repeat split. constructor.
    + intros [Hl _]. left. symmetry. now apply length_zero_iff_nil.
  - destruct Hv as [Hj Hv]. cbn [streams]. rewrite in_flat_map. split.
    + intros [r [Hr Hin]]. apply In_residues in Hr; [|lia|lia].
      destruct Hr as [Hr Hmod].
      apply in_map_iff in Hin. destruct Hin as [rs' [<- Hin]].
      apply IH in Hin; [|assumption|lia].
      destruct Hin as [Hl [Hf Hp]].
      cbn [length picks_of]. rewrite Hmod, Hp, Hl.
      repeat split. now constructor.
    + intros [Hl [Hf Hp]]. destruct rs as [|r rs']; [discriminate|].
      cbn [picks_of] in Hp. inversion Hp as [[Hmod Hp']].
      inversion Hf as [|? ? Hr Hf']; subst.
      exists r. split.
      * apply In_residues; [lia|lia|]. split; [assumption|reflexivity].
      * apply in_map. apply IH; [assumption|lia|].
        cbn [length] in Hl. repeat split; [lia|assumption].
Qed.

Lemma NoDup_streams (k : nat) :
  forall js : list Z, NoDup (streams k js).
Proof.
  induction k as [|k IH]; intros [|j js]; cbn [streams];
    try constructor; try (intros []); try constructor.
  apply NoDup_flat_map_cons; [|apply IH].
  apply NoDup_residues. lia.
Qed.

Lemma length_streams (k : nat) :
  forall js : list Z,
    valid_picks k js -> Z.of_nat k + 1 <= 4294967296 ->
    Z.of_nat (length (streams k js)) = weight k js.
Proof.
  induction k as [|k IH]; intros [|j js] Hv Hk; try contradiction.
  - reflexivity.
  - destruct Hv as [Hj Hv]. cbn [streams weight].
    rewrite flat_map_constant_length with (c := length (streams k js))
      by (intros; apply length_map).
    rewrite Nat2Z.inj_mul, IH, length_residues by (assumption || lia).
    reflexivity.
Qed.

Lemma weight_low_nonneg (k : nat) : 0 <= weight_low k.
Proof.
  induction k as [|k IH]; cbn [weight_low]; [lia|].
  apply Z.mul_nonneg_nonneg; [|assumption]. apply Z.div_pos; lia.
Qed.

Lemma weight_bounds (k : nat) :
  forall js : list Z,
    valid_picks k js -> weight_low k <= weight k js <= weight_high k.
Proof.
  induction k as [|k IH]; intros [|j js] Hv; try contradiction.
  - cbn. lia.
  - destruct Hv as [Hj Hv]. cbn [weight weight_low weight_high].
    specialize (IH js Hv). pose proof (weight_low_nonneg k) as Hl0.
    unfold count_mod.
    assert (Hq : 0 <= 4294967296 / (Z.of_nat (S k) + 1))
      by (apply Z.div_pos; lia).
    set (q := 4294967296 / (Z.of_nat (S k) + 1)) in *.
    destruct (j <? 4294967296 mod (Z.of_nat (S k) + 1)); nia.
Qed.

(** ** Picks and orderings correspond one to one *)

Lemma apply_swaps_high (k : nat) :
  forall (js l : list Z) (m : nat),
    valid_picks k js -> (k < m)%nat ->
    nth m (apply_swaps k js l) 0 = nth m l 0.
Proof.
  induction k as [|k IH]; intros [|j js] l m Hv Hm; try contradiction.
  - reflexivity.
  - destruct Hv as [Hj Hv]. cbn [apply_swaps].
    rewrite IH by (assumption || lia).
    apply nth_swap_at_other; lia.
Qed.

Lemma NoDup_swap_at (l : list Z) (i j : nat) :
  (i < length l)%nat -> (j < length l)%nat -> NoDup l ->
  NoDup (swap_at l i j).
Proof.
  intros Hi Hj Hnd.
  apply (Permutation_NoDup (Permutation_sym (swap_at_perm l i j Hi Hj))).
  assumption.
Qed.

Lemma apply_swaps_inj (k : nat) :
  forall (js js' l : list Z),
    NoDup l -> (k < length l)%nat ->
    valid_picks k js -> valid_picks k js' ->
    apply_swaps k js l = apply_swaps k js' l -> js = js'.
Proof.
  induction k as [|k IH]; intros [|j js] [|j' js'] l Hnd Hk Hv Hv' Heq;
    try contradiction; [reflexivity|].
  destruct Hv as [Hj Hv]. destruct Hv' as [Hj' Hv'].
  cbn [apply_swaps] in Heq.
  assert (Hjj : j = j').
  { pose proof (f_equal (fun x => nth (S k) x 0) Heq) as Hn. cbv beta in Hn.
    rewrite !apply_swaps_high in Hn by (assumption || lia).
    rewrite !nth_swap_at_left in Hn by lia.
    apply (proj1 (NoDup_nth l 0) Hnd) in Hn; lia. }
  subst j'. f_equal.
  apply (IH js js' (swap_at l (S k) (Z.to_nat j))); try assumption.
  - apply NoDup_swap_at; (assumption || lia).
  - rewrite length_swap_at. lia.
Qed.

Lemma perm_agree_above_zero (l p : list Z) :
  NoDup l -> Permutation p l ->
  (forall m : nat, (0 < m)%nat -> nth m p 0 = nth m l 0) -> p = l.
Proof.
  intros Hnd Hperm Hag.
  pose proof (Permutation_length Hperm) as Hlen.
  destruct l as [|a t], p as [|b t']; try discriminate; [reflexivity|].
  assert (Ht : t' = t).
  { apply (nth_ext _ _ 0 0); [cbn in Hlen; lia|].
    intros n _. apply (Hag (S n)). lia. }
  subst t'. f_equal.
  assert (Hin : In b (a :: t))
    by (apply (Permutation_in _ Hperm); now left).
  destruct Hin as [Hab | Hbt]; [auto|].
  exfalso.
  assert (Hnd' : NoDup (b :: t))
    by (apply (Permutation_NoDup (Permutation_sym Hperm)); assumption).
  inversion Hnd'. contradiction.
Qed.

Lemma apply_swaps_surj (k : nat) :
  forall (l p : list Z),
    NoDup l -> Permutation p l -> (k < length l)%nat ->
    (forall m : nat, (k < m)%nat -> nth m p 0 = nth m l 0) ->
    exists js : list Z, valid_picks k js /\ apply_swaps k js l = p.
Proof.
  induction k as [|k IH]; intros l p Hnd Hperm Hk Hag.
  - exists []. split; [exact I|]. cbn [apply_swaps]. symmetry.
    now apply perm_agree_above_zero.
  - pose proof (Permutation_length Hperm) as Hlen.
    assert (Hndp : NoDup p)
      by (apply (Permutation_NoDup (Permutation_sym Hperm)); assumption).
    assert (Hin : In (nth (S k) p 0) l).
    { apply (Permutation_in _ Hperm). apply nth_In. lia. }
    destruct (In_nth l _ 0 Hin) as [j [Hj Hnj]].
    assert (Hjk : (j <= S k)%nat).
    { destruct (le_lt_dec j (S k)) as [Hle|Hgt]; [assumption|].
      exfalso. rewrite <- (Hag j Hgt) in Hnj.
      apply (proj1 (NoDup_nth p 0) Hndp) in Hnj; lia. }
    destruct (IH (swap_at l (S k) j) p) as [js [Hv Hjs]].
    + apply NoDup_swap_at; (assumption || lia).
    + rewrite swap_at_perm by lia. assumption.
    + rewrite length_swap_at. lia.
    + intros m Hm. destruct (Nat.eq_dec m (S k)) as [->|Hne].
      * rewrite nth_swap_at_left by lia. now symmetry.
      * rewrite nth_swap_at_other by lia. apply Hag. lia.
    + exists (Z.of_nat j :: js). split.
      * cbn [valid_picks]. split; [lia | assumption].
      * cbn [apply_swaps]. now rewrite Nat2Z.id.
Qed.

(** ** From the code to the streams *)

Lemma words_of_list (rs : list Z) :
  forall (pre : list Z),
    Forall word32 rs ->
    words (fun n => nth n (pre ++ rs) 0) (length rs) (length pre) = rs.
Proof.
  induction rs as [|r rs IH]; intros pre Hf; [reflexivity|].
  inversion Hf as [|? ? Hr Hf']; subst. cbn [length words].
  rewrite app_nth2, Nat.sub_diag by lia. cbn [nth]. f_equal.
  - unfold uint32. apply Z.mod_small. exact Hr.
  - specialize (IH (pre ++ [r]) Hf').
    rewrite <- app_assoc, length_app in IH. cbn [length app] in IH.
    rewrite Nat.add_1_r in IH. exact IH.
Qed.

Lemma shuffle_yields_shuffled (N : nat) (rs p : list Z) :
  (N <= 255)%nat -> length rs = (N - 1)%nat -> Forall word32 rs ->
  shuffle_yields N rs p <-> shuffled N rs = p.
Proof.
  intros HN Hlen Hf.
  pose proof (words_of_list rs [] Hf) as Hw. cbn [app length] in Hw.
  rewrite Hlen in Hw. split.
  - intros [fuel [w' [H Ho]]].
    destruct (shuffle_order_done _ _ _ _ _ (sized_boot N 0) H) as [_ ->].
    cbn [order boot drawn] in Ho. rewrite Hw in Ho. exact Ho.
  - intros Hs. exists (S N). eexists. split.
    + apply shuffle_order_run; [assumption | apply sized_boot | lia].
    + cbn [order boot drawn]. rewrite Hw. exact Hs.
Qed.

(** The streams behind the ordering that the picks [js] produce. *)
Lemma preimages_streams (N : nat) (js : list Z) :
  (N <= 255)%nat -> valid_picks (N - 1) js ->
  preimages N (apply_swaps (N - 1) js (indices N)) (streams (N - 1) js).
Proof.
  intros HN Hv. split; [apply NoDup_streams|].
  intro rs. rewrite In_streams by (assumption || lia).
  split.
  - intros [Hl [Hf Hp]]. split; [assumption|]. split; [assumption|].
    apply shuffle_yields_shuffled; try assumption.
    unfold shuffled. now rewrite Hp.
  - intros [Hl [Hf Hy]]. split; [assumption|]. split; [assumption|].
    apply shuffle_yields_shuffled in Hy; try assumption.
    unfold shuffled in Hy.
    destruct N as [|n]; [destruct js; [now destruct rs | contradiction]|].
    apply (apply_swaps_inj (S n - 1) _ _ (indices (S n)));
      try assumption.
    + apply NoDup_indices.
    + rewrite length_indices. lia.
    + now apply picks_of_valid.
Qed.

Lemma preimages_length (N : nat) (p : list Z) (l1 l2 : list (list Z)) :
  preimages N p l1 -> preimages N p l2 -> length l1 = length l2.
Proof.
  intros [Hnd1 H1] [Hnd2 H2]. apply Permutation_length.
  apply NoDup_Permutation; try assumption.
  intro rs. now rewrite H1, H2.
Qed.

Lemma weight_low_pos (k : nat) :
  Z.of_nat k + 1 <= 4294967296 -> 0 < weight_low k.
Proof.
  induction k as [|k IH]; intros Hk; cbn [weight_low]; [lia|].
  apply Z.mul_pos_pos; [|apply IH; lia].
  apply Z.div_str_pos. lia.
Qed.

Lemma ordering_picks (N : nat) (p : list Z) :
  (1 <= N)%nat -> Permutation p (indices N) ->
  exists js : list Z,
    valid_picks (N - 1) js /\ apply_swaps (N - 1) js (indices N) = p.
Proof.
  intros HN Hperm. apply apply_swaps_surj.
  - apply NoDup_indices.
  - assumption.
  - rewrite length_indices. lia.
  - intros m Hm. rewrite !nth_overflow; [reflexivity | |].
    + rewrite length_indices. lia.
    + rewrite (Permutation_length Hperm), length_indices. lia.
Qed.

(** C3, as amended: each reshuffle draws [j = r mod (i + 1)], so
    [0 <= j <= i], for [i] from [N - 1] down to 1.  For [1 <= N <= 255],
    every ordering [p] of the indices is produced by exactly one vector of
    picks [js]; the streams of 32-bit random words that produce [p] are
    those whose picks are [js], and their number is the product over the
    steps of [2^32 / (i + 1)], plus one when [j < 2^32 mod (i + 1)].  So all
    orderings are possible and their likelihoods lie between
    [weight_low] and [weight_high] out of [2^(32 (N - 1))]: equal up to
    the bias of the modulo, not exactly. *)
Theorem orderings_likely_up_to_modulo_bias (N : nat) (p : list Z) :
  (1 <= N <= 255)%nat -> Permutation p (indices N) ->
  exists js : list Z,
    valid_picks (N - 1) js /\
    apply_swaps (N - 1) js (indices N) = p /\
    (forall js' : list Z,
       valid_picks (N - 1) js' ->
       apply_swaps (N - 1) js' (indices N) = p -> js' = js) /\
    (forall rs : list Z,
       length rs = (N - 1)%nat -> Forall word32 rs ->
       (shuffle_yields N rs p <-> picks_of (N - 1) rs = js)) /\
    preimages N p (streams (N - 1) js) /\
    (forall l : list (list Z),
       preimages N p l -> Z.of_nat (length l) = weight (N - 1) js) /\
    0 < weight_low (N - 1) <= weight (N - 1) js /\
    weight (N - 1) js <= weight_high (N - 1).
Proof.
  intros HN Hperm.
  destruct (ordering_picks N p ltac:(lia) Hperm) as [js [Hv Hjs]].
  pose proof (preimages_streams N js ltac:(lia) Hv) as Hpre.
  rewrite Hjs in Hpre.
  assert (Hinj : forall js' : list Z,
            valid_picks (N - 1) js' ->
            apply_swaps (N - 1) js' (indices N) = p -> js' = js).
  { intros js' Hv' Hjs'.
    apply (apply_swaps_inj (N - 1) _ _ (indices N)); try assumption.
    - apply NoDup_indices.
    - rewrite length_indices. lia.
    - congruence. }
  exists js. split; [assumption|]. split; [assumption|].
  split; [assumption|]. split; [|split; [assumption|split]].
  - intros rs Hl Hf.
    destruct Hpre as [_ Hpre]. specialize (Hpre rs).
    pose proof (In_streams (N - 1) js rs Hv ltac:(lia)) as Hin.
    rewrite Hin in Hpre. tauto.
  - intros l Hl. rewrite (preimages_length N p l _ Hl Hpre).
    apply length_streams; (assumption || lia).
  - pose proof (weight_bounds (N - 1) js Hv).
    pose proof (weight_low_pos (N - 1) ltac:(lia)). lia.
Qed.

Lemma orderings_likely_up_to_modulo_bias_witness :
  exists js : list Z,
    valid_picks (3 - 1) js /\
    apply_swaps (3 - 1) js (indices 3) = [1; 2; 0] /\
    (forall js' : list Z,
       valid_picks (3 - 1) js' ->
       apply_swaps (3 - 1) js' (indices 3) = [1; 2; 0] -> js' = js) /\
    (forall rs : list Z,
       length rs = (3 - 1)%nat -> Forall word32 rs ->
       (shuffle_yields 3 rs [1; 2; 0] <-> picks_of (3 - 1) rs = js)) /\
    preimages 3 [1; 2; 0] (streams (3 - 1) js) /\
    (forall l : list (list Z),
       preimages 3 [1; 2; 0] l -> Z.of_nat (length l) = weight (3 - 1) js) /\
    0 < weight_low (3 - 1) <= weight (3 - 1) js /\
    weight (3 - 1) js <= weight_high (3 - 1).
Proof.
  apply (orderings_likely_up_to_modulo_bias 3 [1; 2; 0]); [lia|].
  change (Permutation [1; 2; 0] [0; 1; 2]).
  apply perm_trans with [1; 0; 2]; [apply perm_skip, perm_swap|].
  apply perm_swap.
Defined.

(** C3 as stated fails for the deployed catalog of 30 frames: the ordering
    produced when every pick is 0 has more random streams behind it than
    the ordering produced when the pick at [i = 2] is 1 and all others are
    0, because [2^32 mod 3 = 1] favours the pick 0 at that step. *)
Lemma thirty_frames_not_equally_likely : ~ equally_likely 30.
Proof.
  intro H.
  pose (js0 := repeat 0 29).
  pose (js1 := repeat 0 27 ++ [1; 0]).
  assert (Hv0 : valid_picks (30 - 1) js0)
    by (subst js0; cbn; repeat split; lia).
  assert (Hv1 : valid_picks (30 - 1) js1)
    by (subst js1; cbn; repeat split; lia).
  pose proof (preimages_streams 30 js0 ltac:(lia) Hv0) as Hp0.
  pose proof (preimages_streams 30 js1 ltac:(lia) Hv1) as Hp1.
  assert (Hperm : forall js, valid_picks (30 - 1) js ->
            Permutation (apply_swaps (30 - 1) js (indices 30)) (indices 30)).
  { intros js Hv. apply apply_swaps_perm; [|assumption].
    rewrite length_indices. lia. }
  specialize (H _ _ _ _ (Hperm js0 Hv0) (Hperm js1 Hv1) Hp0 Hp1).
  apply (f_equal Z.of_nat) in H.
  rewrite !length_streams in H by (assumption || lia).
  subst js0 js1. vm_compute in H. discriminate.
Qed.

(** With two frames the single pick [r mod 2] is fair, and the two
    orderings are equally likely. *)
Lemma two_frames_equally_likely : equally_likely 2.
Proof.
  intros p q lp lq Hp Hq Hlp Hlq.
  destruct (ordering_picks 2 p ltac:(lia) Hp) as [jp [Hvp Hjp]].
  destruct (ordering_picks 2 q ltac:(lia) Hq) as [jq [Hvq Hjq]].
  pose proof (preimages_streams 2 jp ltac:(lia) Hvp) as Hsp.
  pose proof (preimages_streams 2 jq ltac:(lia) Hvq) as Hsq.
  rewrite Hjp in Hsp. rewrite Hjq in Hsq.
  rewrite (preimages_length 2 p lp _ Hlp Hsp).
  rewrite (preimages_length 2 q lq _ Hlq Hsq).
  apply Nat2Z.inj. rewrite !length_streams by (assumption || lia).
  cbn [Nat.sub] in Hvp, Hvq |- *.
  destruct jp as [|a [|? ?]]; [contradiction | | now destruct Hvp].
  destruct jq as [|b [|? ?]]; [contradiction | | now destruct Hvq].
  destruct Hvp as [Ha _]. destruct Hvq as [Hb _].
  cbn [weight]. change (Z.of_nat 1 + 1) with 2.
  unfold count_mod.
  change (4294967296 mod 2) with 0.
  destruct (a <? 0) eqn:Ea; [lia|]. destruct (b <? 0) eqn:Eb; [lia|].
  reflexivity.
Qed.

(** ** Further properties of the sequencer *)

(** X1. A reshuffle starts from the identity fill: the new order depends on
    the random words alone, not on what [order] and the cursor held. *)
Theorem reshuffle_forgets_previous_order (N : nat) (entropy : nat -> Z)
    (fuel : nat) (w1 w2 : world) :
  (N <= 255)%nat -> sized N w1 -> sized N w2 -> drawn w1 = drawn w2 ->
  (N < fuel)%nat ->
  exists w1' w2' : world,
    shuffle_order N entropy fuel w1 = Done tt w1' /\
    shuffle_order N entropy fuel w2 = Done tt w2' /\
    order w1' = order w2' /\
    order_pos w1' = 0 /\ order_pos w2' = 0 /\
    drawn w1' = drawn w2'.
Proof.
  intros HN H1 H2 Hd Hfuel.
  eexists _, _.
  split; [apply shuffle_order_run; assumption|].
  split; [apply shuffle_order_run; assumption|].
  cbn [order order_pos drawn]. rewrite Hd. repeat split.
Qed.

Lemma reshuffle_forgets_previous_order_witness :
  exists w1' w2' : world,
    shuffle_order 4 (fun n => 7919 * Z.of_nat n + 2) 5
      (mkWorld [3; 0; 1; 2] 4 3 0 None []) = Done tt w1' /\
    shuffle_order 4 (fun n => 7919 * Z.of_nat n + 2) 5
      (mkWorld [0; 0; 0; 0] 0 3 9 (Some 5) [lv_obj_clean_call]) = Done tt w2' /\
    order w1' = order w2' /\
    order_pos w1' = 0 /\ order_pos w2' = 0 /\
    drawn w1' = drawn w2'.
Proof.
  apply reshuffle_forgets_previous_order;
    [lia | reflexivity | reflexivity | reflexivity | lia].
Defined.




(** ** The cadence of the slideshow *)

Lemma init_fuel (N : nat) (entropy : nat -> Z) (fuel fuel' : nat)
    (w w' : world) :
  zmk_widget_status_init N entropy fuel w = Done tt w' -> (fuel <= fuel')%nat ->
  zmk_widget_status_init N entropy fuel' w = Done tt w'.
Proof.
  unfold zmk_widget_status_init. intros H Hle.
  unfold bind at 1. unfold bind at 1 in H.
  destruct (shuffle_order N entropy fuel w) as [[] w1| |] eqn:E;
    try discriminate.
  rewrite (shuffle_order_fuel _ _ _ _ _ _ E Hle).
  unfold bind at 1. unfold bind at 1 in H.
  unfold emit at 1, modify at 1. unfold emit at 1, modify at 1 in H.
  unfold bind at 1. unfold bind at 1 in H.
  destruct (slideshow_work_cb N entropy fuel (log k_work_init_delayable_call w1))
    as [[] w2| |] eqn:F; try discriminate.
  now rewrite (handler_fuel _ _ _ _ _ _ F Hle).
Qed.

Lemma init_done (N : nat) (entropy : nat -> Z) (fuel : nat) (t : Z) (w : world) :
  zmk_widget_status_init N entropy fuel (boot N t) = Done tt w ->
  (1 <= N <= 255)%nat /\
  w = mkWorld (shuffled N (words entropy (N - 1) 0)) 1 (N - 1) t
        (Some (t + ART_ROTATE_INTERVAL))
        ((shuffle_order_call
            :: map sys_rand32_get_call (words entropy (N - 1) 0))
           ++ [k_work_init_delayable_call]
           ++ display_calls (nth 0 (shuffled N (words entropy (N - 1) 0)) 0)
           ++ [k_work_schedule_call ART_ROTATE_INTERVAL]).
Proof.
  intros H.
  assert (HN : (1 <= N <= 255)%nat).
  { pose proof H as H0. unfold zmk_widget_status_init in H0.
    unfold bind at 1 in H0.
    destruct (shuffle_order N entropy fuel (boot N t)) as [[] w1| |] eqn:E;
      try discriminate.
    destruct (shuffle_order_post _ _ _ _ _ (sized_boot N t) E)
      as [Hsmall [Hw1 _]].
    split; [|assumption].
    destruct N as [|n]; [|lia]. exfalso.
    unfold bind at 1 in H0. unfold emit at 1, modify at 1 in H0.
    unfold bind at 1 in H0.
    destruct (slideshow_work_cb 0 entropy fuel
                (log k_work_init_delayable_call w1)) as [[] w2| |] eqn:F;
      try discriminate.
    revert F. apply handler_empty_catalog. exact Hw1. }
  split; [assumption|].
  apply init_fuel with (fuel' := (fuel + S N)%nat) in H; [|lia].
  rewrite init_run in H by lia. now inversion H.
Qed.

Lemma init_state_inv (N : nat) (entropy : nat -> Z) (t : Z) :
  (1 <= N <= 255)%nat ->
  sequencer_inv N
    (mkWorld (shuffled N (words entropy (N - 1) 0)) 1 (N - 1) t
       (Some (t + ART_ROTATE_INTERVAL))
       ((shuffle_order_call
           :: map sys_rand32_get_call (words entropy (N - 1) 0))
          ++ [k_work_init_delayable_call]
          ++ display_calls (nth 0 (shuffled N (words entropy (N - 1) 0)) 0)
          ++ [k_work_schedule_call ART_ROTATE_INTERVAL])).
Proof.
  intros HN. set (rs := words entropy (N - 1) 0).
  assert (Hperm : Permutation (shuffled N rs) (indices N))
    by apply shuffled_perm, length_words.
  assert (Hidx : 0 <= nth 0 (shuffled N rs) 0 < Z.of_nat N)
    by (apply perm_indices_range; [assumption | lia]).
  split; cbn [order order_pos calls].
  - red. cbn [order]. apply length_shuffled.
  - lia.
  - assumption.
  - now apply perm_indices_NoDup with (N := N).
  - change ((shuffle_order_call :: ?l) ++ ?r)
      with ([] ++ shuffle_order_call :: (l ++ r)).
    rewrite shown_since_shuffle_restart
      by (rewrite existsb_app, no_shuffle_rands; reflexivity).
    rewrite !shown_app, shown_rands, shown_display_calls by lia.
    change (Z.to_nat 1) with 1%nat.
    rewrite (firstn_succ_nth _ 0) by (rewrite length_shuffled; lia).
    reflexivity.
Qed.

Lemma running_inv (N : nat) (entropy : nat -> Z) (w : world) :
  running N entropy w ->
  (1 <= N <= 255)%nat /\ sequencer_inv N w /\
  exists d : Z, slideshow_work w = Some d.
Proof.
  induction 1 as [t fuel w H | fuel t w w' Hr IH H].
  - destruct (init_done _ _ _ _ _ H) as [HN ->].
    split; [assumption|]. split; [now apply init_state_inv|].
    eexists. reflexivity.
  - destruct IH as [HN [Hinv _]]. split; [assumption|].
    destruct (dispatch_effect _ _ _ _ _ _ Hinv ltac:(lia) H)
      as [Hinv' [_ [_ [_ [Hp _]]]]].
    split; [assumption|]. eexists. exact Hp.
Qed.

(** X3. Two consecutive runs of the handler by the work queue are at least
    one [ART_ROTATE_INTERVAL] apart: each run re-arms the work item for one
    interval after the time it ran at. *)
Theorem handler_runs_one_interval_apart (N : nat) (entropy : nat -> Z)
    (fuel fuel' : nat) (t t' : Z) (w w' w'' : world) :
  running N entropy w ->
  workq_dispatch N entropy fuel t w = Done tt w' ->
  workq_dispatch N entropy fuel' t' w' = Done tt w'' ->
  slideshow_work w' = Some (t + ART_ROTATE_INTERVAL) /\
  t + ART_ROTATE_INTERVAL <= t'.
Proof.
  intros Hr H1 H2. destruct (running_inv _ _ _ Hr) as [HN [Hinv _]].
  destruct (dispatch_effect _ _ _ _ _ _ Hinv ltac:(lia) H1)
    as [Hinv' [_ [_ [_ [Hp _]]]]].
  destruct (dispatch_effect _ _ _ _ _ _ Hinv' ltac:(lia) H2)
    as [_ [[d [Hd1 Hd2]] _]].
  split; [assumption|]. rewrite Hp in Hd1. inversion Hd1. lia.
Qed.

(** X4. The slideshow never stalls: from the end of the initialisation on
    the work item is always scheduled, and whenever the work queue runs the
    handler, at or after the deadline, the handler returns, has displayed
    one more frame and has the item scheduled again. *)
Theorem slideshow_never_stalls (N : nat) (entropy : nat -> Z) (w : world) :
  running N entropy w ->
  exists d : Z,
    slideshow_work w = Some d /\
    forall (t : Z) (fuel : nat),
      d <= t -> uptime w <= t -> (N < fuel)%nat ->
      exists w' : world,
        workq_dispatch N entropy fuel t w = Done tt w' /\
        running N entropy w' /\
        length (shown (calls w')) = S (length (shown (calls w))) /\
        slideshow_work w' = Some (t + ART_ROTATE_INTERVAL).
Proof.
  intros Hr. destruct (running_inv _ _ _ Hr) as [HN [Hinv [d Hd]]].
  exists d. split; [assumption|]. intros t fuel Hdt Hut Hfuel.
  assert (Hinv0 : sequencer_inv N (set_slideshow_work None (set_uptime t w)))
    by (apply (inv_frame N (fun x => set_slideshow_work None (set_uptime t x)));
        auto).
  destruct (handler_returns N entropy fuel _ Hinv0 HN Hfuel) as [w' H].
  assert (Hdisp : workq_dispatch N entropy fuel t w = Done tt w').
  { unfold workq_dispatch. rewrite Hd.
    replace ((d <=? t) && (uptime w <=? t)) with true; [exact H|].
    symmetry. apply andb_true_iff. split; lia. }
  exists w'. split; [assumption|].
  split; [eapply running_dispatch; eassumption|].
  destruct (dispatch_effect _ _ _ _ _ _ Hinv ltac:(lia) Hdisp)
    as [_ [_ [_ [_ [Hp Hlen]]]]].
  split; assumption.
Qed.

Lemma sample_started_running : running 2 sample_source sample_started.
Proof. apply (running_init 2 sample_source 0 3). vm_compute. reflexivity. Qed.

Lemma handler_runs_one_interval_apart_witness :
  slideshow_work sample_second = Some (600000 + ART_ROTATE_INTERVAL) /\
  600000 + ART_ROTATE_INTERVAL <= 1200007.
Proof.
  apply (handler_runs_one_interval_apart 2 sample_source 3 3 600000 1200007
           sample_started sample_second sample_third).
  - apply (running_init 2 sample_source 0 3). vm_compute. reflexivity.
  - vm_compute. reflexivity.
  - vm_compute. reflexivity.
Defined.

Lemma slideshow_never_stalls_witness :
  exists d : Z,
    slideshow_work sample_started = Some d /\
    forall (t : Z) (fuel : nat),
      d <= t -> uptime sample_started <= t -> (2 < fuel)%nat ->
      exists w' : world,
        workq_dispatch 2 sample_source fuel t sample_started = Done tt w' /\
        running 2 sample_source w' /\
        length (shown (calls w')) = S (length (shown (calls sample_started))) /\
        slideshow_work w' = Some (t + ART_ROTATE_INTERVAL).
Proof.
  apply slideshow_never_stalls.
  apply (running_init 2 sample_source 0 3). vm_compute. reflexivity.
Defined.

(** ** Cycle after cycle *)







(** ** Across a reshuffle *)








(** ** The images in the art box *)

Lemma art_box_images_app (cs ds : list call) :
  forall imgs : list (option lv_img_dsc_t),
    art_box_images (cs ++ ds) imgs = art_box_images ds (art_box_images cs imgs).
Proof.
  induction cs as [|c cs IH]; intro imgs; [reflexivity|].
  destruct c; cbn [app art_box_images]; apply IH.
Qed.

Lemma art_box_images_rands (rs : list Z) (imgs : list (option lv_img_dsc_t)) :
  art_box_images (map sys_rand32_get_call rs) imgs = imgs.
Proof. induction rs as [|r rs IH]; cbn [map art_box_images]; auto. Qed.

Lemma art_box_images_display (idx : Z) (imgs : list (option lv_img_dsc_t)) :
  art_box_images (display_calls idx) imgs
  = [Some (hammerbeam (S (Z.to_nat idx)))].
Proof. reflexivity. Qed.

Lemma last_shown_display (cs : list call) (idx : Z) :
  0 <= idx -> last (shown (cs ++ display_calls idx)) 0 = idx.
Proof.
  intros H. rewrite shown_app, shown_display_calls by assumption.
  apply last_last.
Qed.

(** X7. The art box never fills up: in every reachable state it holds no
    image before the first frame is displayed, and from then on exactly one
    image, whose source is the frame displayed last. *)
Theorem art_box_holds_the_current_frame (N : nat) (entropy : nat -> Z)
    (w : world) :
  reachable N entropy w ->
  (shown (calls w) = [] /\ art_box_images (calls w) [] = []) \/
  (shown (calls w) <> [] /\
   art_box_images (calls w) []
   = [Some (hammerbeam (S (Z.to_nat (last (shown (calls w)) 0))))]).
Proof.
  intros Hr. pose proof (reachable_small _ _ _ Hr) as HN.
  induction Hr as [t fuel w H | w w' Hr IH Hstep].
  - left. destruct (shuffle_order_post _ _ _ _ _ (sized_boot N t) H)
      as [_ [_ [_ [_ [_ [_ Hc]]]]]].
    rewrite Hc. cbn [boot calls app shown flat_map frame_of art_box_images].
    split; [apply shown_rands | apply art_box_images_rands].
  - pose proof (reachable_inv _ _ _ Hr) as Hinv.
    assert (Hhandler : forall (fuel : nat) (v : world),
              sequencer_inv N v -> calls v = calls w ->
              slideshow_work_cb N entropy fuel v = Done tt w' ->
              shown (calls w') <> [] /\
              art_box_images (calls w') []
              = [Some (hammerbeam (S (Z.to_nat (last (shown (calls w')) 0))))]).
    { intros fuel v Hv Hcv H.
      destruct (handler_done_cases _ _ _ _ _ Hv HN H)
        as [[_ [Hidx ->]] | [_ [Hidx ->]]]; cbn [calls].
      - rewrite last_shown_display, art_box_images_app,
          art_box_images_display by lia.
        split; [|reflexivity].
        rewrite shown_app, shown_display_calls by lia.
        intro E. now apply app_eq_nil in E.
      - rewrite app_assoc, last_shown_display, art_box_images_app,
          art_box_images_display by lia.
        split; [|reflexivity].
        rewrite shown_app, shown_display_calls by lia.
        intro E. now apply app_eq_nil in E. }
    destruct Hstep as [fuel w w' H|fuel t w w' H|w|w w' H].
    + right. now apply (Hhandler fuel w).
    + right. unfold workq_dispatch in H.
      destruct (slideshow_work w) as [d|]; [|discriminate].
      destruct ((d <=? t) && (uptime w <=? t)); [|discriminate].
      apply (Hhandler fuel (set_slideshow_work None (set_uptime t w)));
        [|reflexivity|exact H].
      apply (inv_frame N (fun x => set_slideshow_work None (set_uptime t x)));
        auto.
    + unfold log; cbn [calls].
      rewrite shown_app, art_box_images_app.
      cbn [shown flat_map frame_of art_box_images]. rewrite app_nil_r.
      exact IH.
    + rewrite k_work_schedule_run in H. inversion H; subst w'; clear H.
      cbn [calls]. rewrite shown_app, art_box_images_app.
      cbn [shown flat_map frame_of art_box_images]. rewrite app_nil_r.
      exact IH.
Qed.

Lemma art_box_holds_the_current_frame_witness :
  (shown (calls sample_third) = [] /\
   art_box_images (calls sample_third) [] = []) \/
  (shown (calls sample_third) <> [] /\
   art_box_images (calls sample_third) []
   = [Some (hammerbeam (S (Z.to_nat (last (shown (calls sample_third)) 0))))]).
Proof.
  apply (art_box_holds_the_current_frame 2 sample_source).
  apply (reach_step 2 sample_source sample_second).
  - apply (reach_step 2 sample_source sample_started).
    + apply (reach_step 2 sample_source
               (mkWorld [1; 0] 1 1 0 (Some 600000)
                  [shuffle_order_call; sys_rand32_get_call 0;
                   k_work_init_delayable_call; lv_obj_clean_call;
                   lv_img_create_call; lv_img_set_src_call (hammerbeam 2);
                   lv_obj_align_call; k_work_schedule_call 600000])).
      * apply (reach_step 2 sample_source
                 (mkWorld [1; 0] 0 1 0 None
                    [shuffle_order_call; sys_rand32_get_call 0;
                     k_work_init_delayable_call])).
        -- apply (reach_step 2 sample_source
                    (mkWorld [1; 0] 0 1 0 None
                       [shuffle_order_call; sys_rand32_get_call 0])).
           ++ apply (reach_shuffled 2 sample_source 0 3).
              vm_compute. reflexivity.
           ++ apply step_init_delayable.
        -- apply (step_handler 2 sample_source 3). vm_compute. reflexivity.
      * apply step_schedule. vm_compute. reflexivity.
    + apply (step_dispatch 2 sample_source 3 600000). vm_compute. reflexivity.
  - apply (step_dispatch 2 sample_source 3 1200007). vm_compute. reflexivity.
Defined.

(** ** The status bar *)

Lemma draw_top_run (CANVAS_SIZE : Z) (widget : Status.lv_obj_t) (a : nat)
    (st : Status.status_state) (d : Status.display) :
  Status.draw_top CANVAS_SIZE widget a st d
  = Status.Ok tt
      (Status.set_gui
         (Status.gui d ++ Status.draw_top_calls CANVAS_SIZE widget a st) d).
Proof.
  unfold Status.draw_top, Status.gbind, Status.gemit, Status.gmodify,
    Status.set_gui, Status.draw_top_calls.
  cbn [Status.seq Status.created Status.art_box Status.widgets Status.memory
       Status.state_of_charge Status.usb_powered
       Status.peripheral_is_connected Status.gui].
  rewrite <- !app_assoc. reflexivity.
Qed.

Lemma status_frame_refl (d : Status.display) : status_frame d d.
Proof. repeat split. Qed.

Lemma status_frame_trans (d1 d2 d3 : Status.display) :
  status_frame d1 d2 -> status_frame d2 d3 -> status_frame d1 d3.
Proof.
  unfold status_frame.
  intros [A1 [A2 [A3 [A4 [A5 [A6 A7]]]]]] [B1 [B2 [B3 [B4 [B5 [B6 B7]]]]]].
  repeat split; congruence.
Qed.

(** What the two setters have in common: the status of the widget goes
    through [updated], then the widget is redrawn. *)
Lemma set_status_spec (usb_device_stack : bool) (CANVAS_SIZE : Z) (a : nat)
    (u : Status.status_update) (d : Status.display) :
  exists d' : Status.display,
    match u with
    | Status.battery_update s =>
        Status.set_battery_status usb_device_stack CANVAS_SIZE a s d
    | Status.connection_update s =>
        Status.set_connection_status CANVAS_SIZE a s d
    end = Status.Ok tt d' /\
    status_frame d d' /\
    (forall b : nat,
       Status.memory d' b
       = restated (Status.updated usb_device_stack u) [a] (Status.memory d) b) /\
    Status.gui d'
    = Status.gui d
        ++ Status.draw_top_calls CANVAS_SIZE (Status.obj (Status.memory d a)) a
             (Status.updated usb_device_stack u
                (Status.state (Status.memory d a))).
Proof.
  assert (Hmem : forall (f : Status.status_state -> Status.status_state)
                   (m : nat -> Status.zmk_widget_status) (b : nat),
            Status.store a (Status.mkWidget (Status.obj (m a))
                              (f (Status.state (m a)))) m b
            = restated f [a] m b).
  { intros f m b. unfold Status.store, restated.
    destruct (in_dec Nat.eq_dec b [a]) as [Hin | Hout].
    - destruct Hin as [<- | []]. now rewrite Nat.eqb_refl.
    - destruct (b =? a)%nat eqn:E; [|reflexivity].
      apply Nat.eqb_eq in E. subst b. exfalso. apply Hout. now left. }
  destruct u as [s | s].
  - destruct usb_device_stack;
      cbv beta iota delta [Status.set_battery_status Status.gbind
                           Status.write_state Status.gmodify Status.gret
                           Status.gget];
      rewrite draw_top_run; eexists; (split; [reflexivity|]);
      cbn [Status.set_gui Status.set_memory Status.seq Status.created
           Status.art_box Status.widgets Status.memory Status.state_of_charge
           Status.usb_powered Status.peripheral_is_connected Status.gui
           Status.updated];
      (split; [repeat split|]).
    + split.
      * intro b. rewrite <- Hmem. unfold Status.store.
        destruct (b =? a)%nat; [|reflexivity].
        rewrite Nat.eqb_refl. reflexivity.
      * unfold Status.store. rewrite !Nat.eqb_refl. reflexivity.
    + split.
      * intro b. rewrite <- Hmem. reflexivity.
      * unfold Status.store. rewrite !Nat.eqb_refl. reflexivity.
  - cbv beta iota delta [Status.set_connection_status Status.gbind
                         Status.write_state Status.gmodify Status.gget].
    rewrite draw_top_run. eexists. split; [reflexivity|].
    cbn [Status.set_gui Status.set_memory Status.seq Status.created
         Status.art_box Status.widgets Status.memory Status.state_of_charge
         Status.usb_powered Status.peripheral_is_connected Status.gui
         Status.updated].
    split; [repeat split|]. split.
    + intro b. rewrite <- Hmem. reflexivity.
    + unfold Status.store. rewrite !Nat.eqb_refl. reflexivity.
Qed.

Lemma updated_idempotent (usb_device_stack : bool) (u : Status.status_update)
    (st : Status.status_state) :
  Status.updated usb_device_stack u (Status.updated usb_device_stack u st)
  = Status.updated usb_device_stack u st.
Proof. destruct u, usb_device_stack; reflexivity. Qed.

Lemma restated_nil (f : Status.status_state -> Status.status_state)
    (m : nat -> Status.zmk_widget_status) (b : nat) :
  restated f [] m b = m b.
Proof. unfold restated. now destruct (in_dec Nat.eq_dec b []). Qed.

Lemma restated_in (f : Status.status_state -> Status.status_state)
    (l : list nat) (m : nat -> Status.zmk_widget_status) (b : nat) :
  In b l ->
  restated f l m b
  = Status.mkWidget (Status.obj (m b)) (f (Status.state (m b))).
Proof.
  intros H. unfold restated. now destruct (in_dec Nat.eq_dec b l).
Qed.

Lemma restated_out (f : Status.status_state -> Status.status_state)
    (l : list nat) (m : nat -> Status.zmk_widget_status) (b : nat) :
  ~ In b l -> restated f l m b = m b.
Proof.
  intros H. unfold restated. now destruct (in_dec Nat.eq_dec b l).
Qed.

Lemma restated_cons (f : Status.status_state -> Status.status_state)
    (a : nat) (l : list nat) (m m1 : nat -> Status.zmk_widget_status)
    (b : nat) :
  (forall st, f (f st) = f st) ->
  m1 b = restated f [a] m b ->
  restated f l m1 b = restated f (a :: l) m b.
Proof.
  intros Hf H1.
  destruct (in_dec Nat.eq_dec b l) as [Hin | Hout];
    destruct (Nat.eq_dec b a) as [-> | Hne].
  - rewrite restated_in by assumption.
    rewrite (restated_in f (a :: l)) by now left.
    rewrite H1, restated_in by now left. cbn [Status.obj Status.state].
    now rewrite Hf.
  - rewrite restated_in by assumption.
    rewrite (restated_in f (a :: l)) by now right.
    rewrite H1, restated_out; [reflexivity|].
    intros [E | []]. congruence.
  - rewrite restated_out by assumption.
    rewrite (restated_in f (a :: l)) by now left.
    rewrite H1. apply restated_in. now left.
  - rewrite restated_out by assumption.
    rewrite (restated_out f (a :: l)) by (intros [E | E]; congruence).
    rewrite H1. apply restated_out. intros [E | []]. congruence.
Qed.

Lemma redraws_ext (CANVAS_SIZE : Z) (l : list nat)
    (m1 m2 : nat -> Status.zmk_widget_status) :
  (forall b : nat, In b l -> m1 b = m2 b) ->
  redraws CANVAS_SIZE l m1 = redraws CANVAS_SIZE l m2.
Proof.
  unfold redraws. induction l as [|a l IH]; intros H; [reflexivity|].
  cbn [flat_map]. rewrite (H a) by now left. f_equal.
  apply IH. intros b Hb. apply H. now right.
Qed.

(** The loop over the registered widgets, for either setter. *)
Lemma for_each_widget_spec (usb_device_stack : bool) (CANVAS_SIZE : Z)
    (u : Status.status_update) (l : list nat) :
  forall d : Status.display,
    exists d' : Status.display,
      Status.for_each_widget l
        (fun a =>
           match u with
           | Status.battery_update s =>
               Status.set_battery_status usb_device_stack CANVAS_SIZE a s
           | Status.connection_update s =>
               Status.set_connection_status CANVAS_SIZE a s
           end) d
      = Status.Ok tt d' /\
      status_frame d d' /\
      (forall b : nat,
         Status.memory d' b
         = restated (Status.updated usb_device_stack u) l (Status.memory d) b) /\
      Status.gui d' = Status.gui d ++ redraws CANVAS_SIZE l (Status.memory d').
Proof.
  induction l as [|a l IH]; intro d.
  - exists d. cbn [Status.for_each_widget]. split; [reflexivity|].
    split; [apply status_frame_refl|]. split.
    + intro b. now rewrite restated_nil.
    + unfold redraws. cbn [flat_map]. now rewrite app_nil_r.
  - cbn [Status.for_each_widget]. unfold Status.gbind at 1.
    destruct (set_status_spec usb_device_stack CANVAS_SIZE a u d)
      as [d1 [Hrun [Hfr [Hmem Hgui]]]].
    assert (Hrun' :
      match u with
      | Status.battery_update s =>
          Status.set_battery_status usb_device_stack CANVAS_SIZE a s
      | Status.connection_update s =>
          Status.set_connection_status CANVAS_SIZE a s
      end d = Status.Ok tt d1) by (destruct u; exact Hrun).
    rewrite Hrun'.
    destruct (IH d1) as [d' [Hrun2 [Hfr2 [Hmem2 Hgui2]]]].
    exists d'. split; [exact Hrun2|].
    split; [eapply status_frame_trans; eassumption|].
    assert (Hfinal : forall b : nat,
              Status.memory d' b
              = restated (Status.updated usb_device_stack u) (a :: l)
                  (Status.memory d) b).
    { intro b. rewrite Hmem2. apply restated_cons; [|apply Hmem].
      apply updated_idempotent. }
    split; [exact Hfinal|].
    rewrite Hgui2, Hgui, <- app_assoc. f_equal.
    unfold redraws at 2. cbn [flat_map]. fold (redraws CANVAS_SIZE l (Status.memory d')).
    f_equal.
    rewrite Hfinal, restated_in by now left.
    reflexivity.
Qed.

(** X8. An update of the status bar reaches every registered widget and
    nothing else.  [battery_status_update_cb] sets the battery level of each
    (and its charging flag, when the firmware has the USB stack) and leaves
    the connection flag alone; [output_status_update_cb] sets the connection
    flag and leaves the battery fields alone.  Either redraws each registered
    widget once, in the order of registration, with its new status; widgets
    that are not registered, the slideshow and the widget list are left as
    they were. *)
Theorem status_update_reaches_every_widget (usb_device_stack : bool)
    (CANVAS_SIZE : Z) (d : Status.display) :
  (forall s : Status.battery_status_state,
     exists d' : Status.display,
       Status.battery_status_update_cb usb_device_stack CANVAS_SIZE s d
       = Status.Ok tt d' /\
       status_frame d d' /\
       (forall b : nat, In b (Status.widgets d) ->
          Status.obj (Status.memory d' b) = Status.obj (Status.memory d b) /\
          Status.state (Status.memory d' b)
          = Status.mkStatus (Status.level s)
              (if usb_device_stack then Status.usb_present s
               else Status.charging (Status.state (Status.memory d b)))
              (Status.connected (Status.state (Status.memory d b)))) /\
       (forall b : nat, ~ In b (Status.widgets d) ->
          Status.memory d' b = Status.memory d b) /\
       Status.gui d'
       = Status.gui d
           ++ redraws CANVAS_SIZE (Status.widgets d) (Status.memory d')) /\
  (forall s : Status.peripheral_status_state,
     exists d' : Status.display,
       Status.output_status_update_cb CANVAS_SIZE s d = Status.Ok tt d' /\
       status_frame d d' /\
       (forall b : nat, In b (Status.widgets d) ->
          Status.obj (Status.memory d' b) = Status.obj (Status.memory d b) /\
          Status.state (Status.memory d' b)
          = Status.mkStatus
              (Status.battery (Status.state (Status.memory d b)))
              (Status.charging (Status.state (Status.memory d b)))
              (Status.peripheral_connected s)) /\
       (forall b : nat, ~ In b (Status.widgets d) ->
          Status.memory d' b = Status.memory d b) /\
       Status.gui d'
       = Status.gui d
           ++ redraws CANVAS_SIZE (Status.widgets d) (Status.memory d')).
Proof.
  split; intro s.
  - destruct (for_each_widget_spec usb_device_stack CANVAS_SIZE
                (Status.battery_update s) (Status.widgets d) d)
      as [d' [Hrun [Hfr [Hmem Hgui]]]].
    exists d'. split; [exact Hrun|]. split; [assumption|].
    split; [|split; [|assumption]].
    + intros b Hb. rewrite Hmem, restated_in by assumption. now split.
    + intros b Hb. now rewrite Hmem, restated_out.
  - destruct (for_each_widget_spec usb_device_stack CANVAS_SIZE
                (Status.connection_update s) (Status.widgets d) d)
      as [d' [Hrun [Hfr [Hmem Hgui]]]].
    exists d'. split; [exact Hrun|]. split; [assumption|].
    split; [|split; [|assumption]].
    + intros b Hb. rewrite Hmem, restated_in by assumption. now split.
    + intros b Hb. now rewrite Hmem, restated_out.
Qed.

Lemma deliver_spec (usb_device_stack : bool) (CANVAS_SIZE : Z)
    (u : Status.status_update) (d : Status.display) :
  exists d' : Status.display,
    Status.deliver usb_device_stack CANVAS_SIZE u d = Status.Ok tt d' /\
    status_frame d d' /\
    (forall b : nat,
       Status.memory d' b
       = restated (Status.updated usb_device_stack u) (Status.widgets d)
           (Status.memory d) b) /\
    Status.gui d'
    = Status.gui d ++ redraws CANVAS_SIZE (Status.widgets d) (Status.memory d').
Proof.
  destruct (for_each_widget_spec usb_device_stack CANVAS_SIZE u
              (Status.widgets d) d) as [d' [Hrun H]].
  exists d'. split; [|exact H].
  destruct u; exact Hrun.
Qed.

Lemma fold_updates_latest (usb_device_stack : bool)
    (us : list Status.status_update) :
  forall st : Status.status_state,
    fold_left (fun st u => Status.updated usb_device_stack u st) us st
    = Status.mkStatus
        (Status.latest_level us (Status.battery st))
        (if usb_device_stack
         then Status.latest_usb us (Status.charging st)
         else Status.charging st)
        (Status.latest_connected us (Status.connected st)).
Proof.
  induction us as [|u us IH]; intro st.
  - cbn. destruct st, usb_device_stack; reflexivity.
  - cbn [fold_left]. rewrite IH.
    destruct u, usb_device_stack; reflexivity.
Qed.

Lemma deliver_all_spec (usb_device_stack : bool) (CANVAS_SIZE : Z)
    (us : list Status.status_update) :
  forall d : Status.display,
    exists d' : Status.display,
      Status.deliver_all usb_device_stack CANVAS_SIZE us d = Status.Ok tt d' /\
      status_frame d d' /\
      (forall b : nat,
         Status.memory d' b
         = restated
             (fun st =>
                fold_left (fun st u => Status.updated usb_device_stack u st)
                  us st)
             (Status.widgets d) (Status.memory d) b) /\
      (us <> [] ->
       exists pre : list Status.gui_call,
         Status.gui d'
         = Status.gui d ++ pre
             ++ redraws CANVAS_SIZE (Status.widgets d) (Status.memory d')).
Proof.
  induction us as [|u us IH]; intro d.
  - exists d. split; [reflexivity|]. split; [apply status_frame_refl|].
    split; [|congruence].
    intro b. unfold restated. cbn [fold_left].
    destruct (in_dec Nat.eq_dec b (Status.widgets d)); [|reflexivity].
    now destruct (Status.memory d b).
  - cbn [Status.deliver_all]. unfold Status.gbind at 1.
    destruct (deliver_spec usb_device_stack CANVAS_SIZE u d)
      as [d1 [Hrun [Hfr [Hmem Hgui]]]].
    rewrite Hrun.
    destruct (IH d1) as [d' [Hrun2 [Hfr2 [Hmem2 Hgui2]]]].
    assert (Hw : Status.widgets d1 = Status.widgets d) by apply Hfr.
    exists d'. split; [exact Hrun2|].
    split; [eapply status_frame_trans; eassumption|].
    split.
    + intro b. rewrite Hmem2, Hw. unfold restated. rewrite Hmem.
      unfold restated.
      destruct (in_dec Nat.eq_dec b (Status.widgets d)); reflexivity.
    + intros _. rewrite Hw in *.
      destruct us as [|u' us'].
      * exists []. cbn [Status.deliver_all Status.gret] in Hrun2.
        inversion Hrun2; subst d'. exact Hgui.
      * destruct (Hgui2 ltac:(discriminate)) as [pre Hpre].
        exists (redraws CANVAS_SIZE (Status.widgets d) (Status.memory d1) ++ pre).
        rewrite Hpre, Hgui, <- !app_assoc. reflexivity.
Qed.

(** X9. However battery and connection updates are interleaved, the latest
    of each kind wins: after any sequence of updates every registered
    widget carries the battery level of the last battery update (and its USB
    flag, when the firmware has the USB stack) and the connection flag of
    the last connection update, each field keeping its old value when no
    update touched it; and the sequence ends with a redraw of every
    registered widget with exactly this status. *)
Theorem latest_status_wins (usb_device_stack : bool) (CANVAS_SIZE : Z)
    (us : list Status.status_update) (d : Status.display) :
  exists d' : Status.display,
    Status.deliver_all usb_device_stack CANVAS_SIZE us d = Status.Ok tt d' /\
    status_frame d d' /\
    (forall b : nat, In b (Status.widgets d) ->
       Status.obj (Status.memory d' b) = Status.obj (Status.memory d b) /\
       Status.state (Status.memory d' b)
       = Status.mkStatus
           (Status.latest_level us
              (Status.battery (Status.state (Status.memory d b))))
           (if usb_device_stack
            then Status.latest_usb us
                   (Status.charging (Status.state (Status.memory d b)))
            else Status.charging (Status.state (Status.memory d b)))
           (Status.latest_connected us
              (Status.connected (Status.state (Status.memory d b))))) /\
    (forall b : nat, ~ In b (Status.widgets d) ->
       Status.memory d' b = Status.memory d b) /\
    (us <> [] ->
     exists pre : list Status.gui_call,
       Status.gui d'
       = Status.gui d ++ pre
           ++ redraws CANVAS_SIZE (Status.widgets d) (Status.memory d')).
Proof.
  destruct (deliver_all_spec usb_device_stack CANVAS_SIZE us d)
    as [d' [Hrun [Hfr [Hmem Hgui]]]].
  exists d'. split; [exact Hrun|]. split; [assumption|].
  split; [|split; [|assumption]].
  - intros b Hb. rewrite Hmem, restated_in by assumption.
    cbn [Status.obj Status.state]. split; [reflexivity|].
    apply fold_updates_latest.
  - intros b Hb. now rewrite Hmem, restated_out.
Qed.

(** ** The initialisation in full *)

(** The initialisation up to the point where the listeners are started. *)
(** ** Registration in the list of widgets *)

Lemma before_fresh (a : nat) (l : list nat) : ~ In a l -> Status.before a l = l.
Proof.
  induction l as [|b l IH]; intros Hn; cbn [Status.before]; [reflexivity|].
  destruct (Nat.eqb_spec b a) as [->|Hne].
  - exfalso. apply Hn. now left.
  - f_equal. apply IH. intro Hin. apply Hn. now right.
Qed.

Lemma peek_tail_In (l : list nat) (t : nat) :
  Status.sys_slist_peek_tail l = Some t -> In t l.
Proof.
  destruct l as [|b l']; [discriminate|].
  unfold Status.sys_slist_peek_tail. intros E. inversion E; subst t.
  pose proof (app_removelast_last (l := b :: l') O ltac:(discriminate)) as Hl.
  set (x := last (b :: l') O) in *. rewrite Hl.
  apply in_or_app. right. now left.
Qed.






(** A widget that is not in the list is put at its end. *)
Lemma sys_slist_append_fresh (a : nat) (d : Status.display) :
  ~ In a (Status.widgets d) ->
  Status.sys_slist_append a d
  = Status.Ok tt (Status.set_widgets (Status.widgets d ++ [a]) d).
Proof.
  intros Hn. unfold Status.sys_slist_append.
  cbv beta iota delta [Status.gbind Status.gget].
  destruct (Status.sys_slist_peek_tail (Status.widgets d)) as [t|] eqn:E.
  - destruct (Nat.eqb_spec t a) as [->|Hne].
    + exfalso. apply Hn. now apply peek_tail_In.
    + unfold Status.gmodify. now rewrite before_fresh.
  - destruct (Status.widgets d); [reflexivity | discriminate].
Qed.

Lemma init_reaches_append (N : nat) (entropy : nat -> Z)
    (usb_device_stack : bool) (CANVAS_SIZE : Z) (fuel : nat) (a : nat)
    (parent : Status.lv_obj_t) (s : world) (c : nat) (ab : Status.lv_obj_t)
    (ws : list nat) (m : nat -> Status.zmk_widget_status) (soc : Z)
    (usb bt : bool) (g : list Status.gui_call) (w1 : world) :
  zmk_widget_status_init N entropy fuel s = Done tt w1 ->
  Status.zmk_widget_status_init N entropy usb_device_stack CANVAS_SIZE
    fuel a parent (Status.mkDisplay s c ab ws m soc usb bt g)
  = Status.gbind (Status.sys_slist_append a)
      (fun _ =>
         Status.gbind
           (Status.widget_battery_status_init usb_device_stack CANVAS_SIZE)
           (fun _ =>
              Status.gbind (Status.widget_peripheral_status_init CANVAS_SIZE)
                (fun _ => Status.gret 0)))
      (Status.mkDisplay w1 (S (S (S c))) (Status.lv_created (S (S c))) ws
         (Status.store a (Status.mkWidget (Status.lv_created c)
                            (Status.state (m a))) m)
         soc usb bt (g ++ layout_calls CANVAS_SIZE a parent c)).
Proof.
  intros H. unfold zmk_widget_status_init in H.
  unfold Status.zmk_widget_status_init.
  cbv beta iota delta [Status.gbind Status.lv_obj_create
    Status.lv_canvas_create Status.gget Status.gmodify Status.gemit
    Status.gret Status.write_obj Status.lift_seq
    Status.set_created Status.set_gui Status.set_memory Status.set_art_box
    Status.set_widgets Status.set_seq
    Status.seq Status.created Status.art_box Status.widgets Status.memory
    Status.state_of_charge Status.usb_powered
    Status.peripheral_is_connected Status.gui].
  unfold bind at 1 in H.
  destruct (shuffle_order N entropy fuel s) as [[] wa| |]; try discriminate.
  unfold bind at 1 in H. unfold emit at 1, modify at 1 in H.
  unfold emit at 1, modify at 1.
  unfold bind at 1 in H.
  destruct (slideshow_work_cb N entropy fuel (log k_work_init_delayable_call wa))
    as [[] wb| |]; try discriminate.
  rewrite H. unfold layout_calls. rewrite <- !app_assoc. reflexivity.
Qed.

Lemma init_reaches_listeners (N : nat) (entropy : nat -> Z)
    (usb_device_stack : bool) (CANVAS_SIZE : Z) (fuel : nat) (a : nat)
    (parent : Status.lv_obj_t) (s : world) (c : nat) (ab : Status.lv_obj_t)
    (ws : list nat) (m : nat -> Status.zmk_widget_status) (soc : Z)
    (usb bt : bool) (g : list Status.gui_call) (w1 : world) :
  ~ In a ws ->
  zmk_widget_status_init N entropy fuel s = Done tt w1 ->
  Status.zmk_widget_status_init N entropy usb_device_stack CANVAS_SIZE
    fuel a parent (Status.mkDisplay s c ab ws m soc usb bt g)
  = Status.gbind (Status.widget_battery_status_init usb_device_stack CANVAS_SIZE)
      (fun _ =>
         Status.gbind (Status.widget_peripheral_status_init CANVAS_SIZE)
           (fun _ => Status.gret 0))
      (Status.mkDisplay w1 (S (S (S c))) (Status.lv_created (S (S c)))
         (ws ++ [a])
         (Status.store a (Status.mkWidget (Status.lv_created c)
                            (Status.state (m a))) m)
         soc usb bt (g ++ layout_calls CANVAS_SIZE a parent c)).
Proof.
  intros Hfresh H. rewrite (init_reaches_append _ _ _ _ _ _ _ _ _ _ _ _ _ _ _ _ _ H).
  unfold Status.gbind at 1.
  rewrite sys_slist_append_fresh by (cbn [Status.widgets]; exact Hfresh).
  reflexivity.
Qed.

Lemma listeners_run (usb_device_stack : bool) (CANVAS_SIZE : Z)
    (d : Status.display) :
  exists d' : Status.display,
    Status.gbind (Status.widget_battery_status_init usb_device_stack CANVAS_SIZE)
      (fun _ =>
         Status.gbind (Status.widget_peripheral_status_init CANVAS_SIZE)
           (fun _ => Status.gret 0)) d
    = Status.Ok 0 d' /\
    status_frame d d' /\
    (forall b : nat,
       Status.memory d' b
       = restated (current_status usb_device_stack d) (Status.widgets d)
           (Status.memory d) b) /\
    exists pre : list Status.gui_call,
      Status.gui d'
      = Status.gui d ++ pre
          ++ redraws CANVAS_SIZE (Status.widgets d) (Status.memory d').
Proof.
  destruct (deliver_all_spec usb_device_stack CANVAS_SIZE
              [Status.battery_update
                 (Status.mkBattery (uint8 (Status.state_of_charge d))
                    (if usb_device_stack then Status.usb_powered d else false));
               Status.connection_update
                 (Status.mkPeripheral (Status.peripheral_is_connected d))] d)
    as [d' [Hrun [Hfr [Hmem Hgui]]]].
  exists d'. split.
  - revert Hrun. cbn [Status.deliver_all Status.deliver].
    unfold Status.widget_battery_status_init,
      Status.widget_peripheral_status_init,
      Status.battery_status_get_state, Status.get_state.
    cbv beta iota delta [Status.gbind Status.gget Status.gret].
    destruct (deliver_spec usb_device_stack CANVAS_SIZE
                (Status.battery_update
                   (Status.mkBattery (uint8 (Status.state_of_charge d))
                      (if usb_device_stack then Status.usb_powered d
                       else false))) d) as [d1 [Hrun1 [Hfr1 _]]].
    cbn [Status.deliver] in Hrun1. rewrite Hrun1.
    assert (Hbt : Status.peripheral_is_connected d1
                  = Status.peripheral_is_connected d) by apply Hfr1.
    rewrite Hbt.
    destruct (Status.output_status_update_cb CANVAS_SIZE
                {| Status.peripheral_connected :=
                     Status.peripheral_is_connected d |} d1)
      as [[] d2| |]; try discriminate.
    intros E. inversion E. reflexivity.
  - split; [assumption|]. split; [|apply Hgui; discriminate].
    intro b. rewrite Hmem. unfold restated, current_status.
    destruct (in_dec Nat.eq_dec b (Status.widgets d)); [|reflexivity].
    cbn [fold_left Status.updated Status.level Status.usb_present
         Status.peripheral_connected Status.battery Status.charging
         Status.connected].
    destruct usb_device_stack; reflexivity.
Qed.

(** X10. The initialisation in full, of a widget that is not yet in the
    list, given that its slideshow part returns:
    it returns 0; it has created the root object of the widget, its canvas
    and its art box, in this order, and made the art box the one the
    slideshow draws in; it has run the slideshow part on the sequencer; it
    has registered the widget last in the list; [zmk_widget_status_obj] then
    returns the root object it created; and by running both listeners once
    it leaves every registered widget, the new one included, with the
    battery, USB and connection state the drivers report at the time, and
    redrawn with this status as its last drawing. *)
Theorem full_initialisation (N : nat) (entropy : nat -> Z)
    (usb_device_stack : bool) (CANVAS_SIZE : Z) (fuel : nat) (a : nat)
    (parent : Status.lv_obj_t) (d : Status.display) (w1 : world) :
  ~ In a (Status.widgets d) ->
  zmk_widget_status_init N entropy fuel (Status.seq d) = Done tt w1 ->
  exists d' : Status.display,
    Status.zmk_widget_status_init N entropy usb_device_stack CANVAS_SIZE
      fuel a parent d = Status.Ok 0 d' /\
    Status.seq d' = w1 /\
    Status.created d' = S (S (S (Status.created d))) /\
    Status.art_box d' = Status.lv_created (S (S (Status.created d))) /\
    Status.widgets d' = Status.widgets d ++ [a] /\
    Status.zmk_widget_status_obj a d'
    = Status.Ok (Status.lv_created (Status.created d)) d' /\
    Status.state (Status.memory d' a)
    = current_status usb_device_stack d (Status.state (Status.memory d a)) /\
    (forall b : nat, In b (Status.widgets d) -> b <> a ->
       Status.obj (Status.memory d' b) = Status.obj (Status.memory d b) /\
       Status.state (Status.memory d' b)
       = current_status usb_device_stack d (Status.state (Status.memory d b))) /\
    (forall b : nat, ~ In b (Status.widgets d) -> b <> a ->
       Status.memory d' b = Status.memory d b) /\
    exists pre : list Status.gui_call,
      Status.gui d'
      = Status.gui d
          ++ layout_calls CANVAS_SIZE a parent (Status.created d)
          ++ pre
          ++ redraws CANVAS_SIZE (Status.widgets d') (Status.memory d').
Proof.
  intros Hfresh H. destruct d as [s c ab ws m soc usb bt g].
  cbn [Status.seq Status.created Status.art_box Status.widgets Status.memory
       Status.state_of_charge Status.usb_powered
       Status.peripheral_is_connected Status.gui] in *.
  rewrite (init_reaches_listeners N entropy usb_device_stack CANVAS_SIZE fuel
             a parent s c ab ws m soc usb bt g w1 Hfresh H).
  match goal with
  | |- context [Status.gbind _ _ ?x] =>
      destruct (listeners_run usb_device_stack CANVAS_SIZE x)
        as [d' [Hrun [Hfr [Hmem [pre Hgui]]]]]
  end.
  destruct Hfr as [F1 [F2 [F3 [F4 _]]]].
  unfold current_status in *.
  cbn [Status.seq Status.created Status.art_box Status.widgets Status.memory
       Status.state_of_charge Status.usb_powered
       Status.peripheral_is_connected Status.gui] in *.
  exists d'. split; [exact Hrun|].
  split; [exact F1|]. split; [exact F2|]. split; [exact F3|].
  split; [exact F4|].
  assert (Ha : Status.memory d' a
               = Status.mkWidget (Status.lv_created c)
                   (Status.mkStatus (uint8 soc)
                      (if usb_device_stack then usb
                       else Status.charging (Status.state (m a))) bt)).
  { rewrite Hmem, restated_in by (apply in_or_app; right; now left).
    unfold Status.store. now rewrite Nat.eqb_refl. }
  split; [unfold Status.zmk_widget_status_obj, Status.gget; now rewrite Ha|].
  split; [now rewrite Ha|].
  split; [|split].
  - intros b Hb Hne.
    rewrite Hmem, restated_in by (apply in_or_app; now left).
    unfold Status.store.
    replace (b =? a)%nat with false by (symmetry; now apply Nat.eqb_neq).
    split; reflexivity.
  - intros b Hb Hne.
    rewrite Hmem, restated_out.
    + unfold Status.store.
      now replace (b =? a)%nat with false by (symmetry; now apply Nat.eqb_neq).
    + intro Hc. apply in_app_or in Hc.
      destruct Hc as [Hc | [Hc | []]]; congruence.
  - exists pre. rewrite Hgui, F4, <- !app_assoc. reflexivity.
Qed.

Lemma full_initialisation_witness :
  exists d' : Status.display,
    Status.zmk_widget_status_init 2 sample_source true 68 3 7 Status.lv_null
      sample_display = Status.Ok 0 d' /\
    Status.seq d' = sample_started /\
    Status.created d' = S (S (S (Status.created sample_display))) /\
    Status.art_box d'
    = Status.lv_created (S (S (Status.created sample_display))) /\
    Status.widgets d' = Status.widgets sample_display ++ [7%nat] /\
    Status.zmk_widget_status_obj 7 d'
    = Status.Ok (Status.lv_created (Status.created sample_display)) d' /\
    Status.state (Status.memory d' 7)
    = current_status true sample_display
        (Status.state (Status.memory sample_display 7)) /\
    (forall b : nat, In b (Status.widgets sample_display) -> b <> 7%nat ->
       Status.obj (Status.memory d' b)
       = Status.obj (Status.memory sample_display b) /\
       Status.state (Status.memory d' b)
       = current_status true sample_display
           (Status.state (Status.memory sample_display b))) /\
    (forall b : nat, ~ In b (Status.widgets sample_display) -> b <> 7%nat ->
       Status.memory d' b = Status.memory sample_display b) /\
    exists pre : list Status.gui_call,
      Status.gui d'
      = Status.gui sample_display
          ++ layout_calls 68 7 Status.lv_null (Status.created sample_display)
          ++ pre
          ++ redraws 68 (Status.widgets d') (Status.memory d').
Proof.
  apply (full_initialisation 2 sample_source true 68 3 7 Status.lv_null
           sample_display sample_started).
  - simpl. tauto.
  - vm_compute. reflexivity.
Defined.





(** ** The sequencer in the three variants *)

Lemma rotate_art_cb_eq (N : nat) (entropy : nat -> Z) (fuel : nat) (w : world) :
  rotate_art_cb N entropy fuel w = slideshow_cb N entropy fuel w.
Proof.
  unfold rotate_art_cb, slideshow_cb, art_images, anim_imgs, ART_FRAME_COUNT.
  rewrite length_map, length_seq. reflexivity.
Qed.

Lemma handler_splits (N : nat) (entropy : nat -> Z) (fuel : nat) (w : world) :
  slideshow_work_cb N entropy fuel w
  = (slideshow_cb N entropy fuel ;; k_work_schedule ART_ROTATE_INTERVAL) w.
Proof.
  cbv beta iota delta [slideshow_work_cb slideshow_cb bind get emit modify
                          ret load_order lift].
  destruct (order_pos w >=? ART_FRAME_COUNT N).
  - destruct (shuffle_order N entropy fuel w) as [[] w1| |];
      try reflexivity.
    cbn [order order_pos log].
    destruct (array_get (order w1) (order_pos w1)) as [idx|];
      try reflexivity.
    destruct (array_get (anim_imgs N) idx); reflexivity.
  - cbn [order order_pos log].
    destruct (array_get (order w) (order_pos w)) as [idx|];
      try reflexivity.
    destruct (array_get (anim_imgs N) idx); reflexivity.
Qed.

(** One run of the work handler, as a step of the sequence. *)
Lemma handler_sequence (N : nat) (entropy : nat -> Z) (fuel : nat)
    (w w' : world) :
  (N <= 255)%nat -> sized N w -> Permutation (order w) (indices N) ->
  0 <= order_pos w <= Z.of_nat N ->
  slideshow_work_cb N entropy fuel w = Done tt w' ->
  (1 <= N)%nat /\
  sequence_of w' = sequencer_step N entropy (sequence_of w) /\
  sized N w' /\ Permutation (order w') (indices N) /\
  0 <= order_pos w' <= Z.of_nat N /\ uptime w' = uptime w.
Proof.
  intros HN Hs Hperm Hp H.
  destruct N as [|n] eqn:EN.
  { exfalso. revert H. now apply handler_empty_catalog. }
  rewrite <- EN in *. split; [lia|].
  unfold sequence_of, sequencer_step; cbn [seq_pos seq_order seq_drawn seq_frames].
  destruct (Z.eq_dec (order_pos w) (Z.of_nat N)) as [Hend|Hbelow].
  - apply handler_fuel with (fuel' := (fuel + S N)%nat) in H; [|lia].
    rewrite handler_run_exhausted in H by (auto; lia).
    inversion H; subst w'; clear H.
    cbn [order order_pos drawn uptime calls].
    assert (Hperm' : Permutation (shuffled N (words entropy (N - 1) (drawn w)))
                       (indices N)) by apply shuffled_perm, length_words.
    assert (Hidx : 0 <= nth 0 (shuffled N (words entropy (N - 1) (drawn w))) 0
                   < Z.of_nat N) by (apply perm_indices_range; [assumption|lia]).
    rewrite (proj2 (Z.eqb_eq _ _) Hend).
    change (shuffle_order_call :: ?l) with ([shuffle_order_call] ++ l).
    rewrite !shown_app, shown_rands, shown_display_calls by lia.
    cbn [shown flat_map frame_of app].
    repeat split; try assumption; try lia.
    red. cbn [order]. apply length_shuffled.
  - assert (Hidx : 0 <= frame_at_cursor w < Z.of_nat N).
    { unfold frame_at_cursor. apply perm_indices_range; [assumption | lia]. }
    rewrite handler_run_below in H by (auto; lia).
    inversion H; subst w'; clear H.
    cbn [order order_pos drawn uptime calls].
    rewrite (proj2 (Z.eqb_neq _ _) Hbelow).
    rewrite shown_app, shown_display_calls by lia.
    repeat split; try assumption; try lia.
Qed.

(** One run of a timer callback, as a step of the sequence. *)
Lemma callback_sequence (N : nat) (entropy : nat -> Z) (fuel : nat)
    (w w' : world) :
  (N <= 255)%nat -> sized N w -> Permutation (order w) (indices N) ->
  0 <= order_pos w <= Z.of_nat N ->
  slideshow_cb N entropy fuel w = Done tt w' ->
  (1 <= N)%nat /\
  sequence_of w' = sequencer_step N entropy (sequence_of w) /\
  sized N w' /\ Permutation (order w') (indices N) /\
  0 <= order_pos w' <= Z.of_nat N /\ uptime w' = uptime w.
Proof.
  intros HN Hs Hperm Hp H.
  pose proof (handler_splits N entropy fuel w) as Hsplit.
  unfold bind at 1 in Hsplit. rewrite H, k_work_schedule_run in Hsplit.
  destruct (handler_sequence _ _ _ _ _ HN Hs Hperm Hp Hsplit)
    as [H1 [Hq [Hs' [Hperm' [Hp' Hu]]]]].
  unfold sequence_of in Hq; cbn [order order_pos drawn uptime calls] in *.
  rewrite shown_app in Hq. cbn [shown flat_map frame_of app] in Hq.
  rewrite app_nil_r in Hq.
  repeat split; try assumption; try lia.
Qed.

(** A returned callback at a state of the sequencer returns with any larger
    bound on the array fill. *)
Lemma callback_returns (N : nat) (entropy : nat -> Z) (fuel : nat) (w : world) :
  (1 <= N <= 255)%nat -> sized N w -> Permutation (order w) (indices N) ->
  0 <= order_pos w <= Z.of_nat N -> (N < fuel)%nat ->
  exists w' : world, slideshow_cb N entropy fuel w = Done tt w'.
Proof.
  intros HN Hs Hperm Hp Hfuel.
  assert (Hw : exists w1, slideshow_work_cb N entropy fuel w = Done tt w1).
  { destruct (Z.eq_dec (order_pos w) (Z.of_nat N)) as [Hend|Hbelow].
    - eexists. apply handler_run_exhausted; auto; lia.
    - eexists. apply handler_run_below; auto; try lia.
      unfold frame_at_cursor. apply perm_indices_range; [assumption | lia]. }
  destruct Hw as [w1 Hw1]. rewrite handler_splits in Hw1.
  unfold bind at 1 in Hw1.
  destruct (slideshow_cb N entropy fuel w) as [[] w'| |]; try discriminate.
  now exists w'.
Qed.

(** The sequencer state after the initialisation of a timer variant. *)
Lemma timer_init_sequence (N : nat) (entropy : nat -> Z) (fuel : nat) (t : Z)
    (w1 w2 : world) :
  shuffle_order N entropy fuel (boot N t) = Done tt w1 ->
  slideshow_cb N entropy fuel w1 = Done tt w2 ->
  (1 <= N <= 255)%nat /\
  sequence_of w2 = sequence_after N entropy 0 /\
  sized N w2 /\ Permutation (order w2) (indices N) /\
  0 <= order_pos w2 <= Z.of_nat N /\ uptime w2 = t.
Proof.
  intros H1 H2.
  destruct (shuffle_order_done _ _ _ _ _ (sized_boot N t) H1) as [HN ->].
  assert (Hperm : Permutation (shuffled N (words entropy (N - 1) 0)) (indices N))
    by apply shuffled_perm, length_words.
  apply callback_sequence in H2; cbn [order order_pos boot drawn]; auto.
  - destruct H2 as [HN1 [Hq [Hs [Hp [Hpos Hu]]]]].
    split; [lia|]. split; [|auto].
    rewrite Hq. unfold sequence_of, boot; cbn [order order_pos drawn calls app].
    change (shuffle_order_call :: ?l) with ([shuffle_order_call] ++ l).
    rewrite shown_app, shown_rands. reflexivity.
  - red. cbn [order]. apply length_shuffled.
  - lia.
Qed.

(** The sequencer state of a timer variant after a run of its callback. *)
Lemma timer_exec_sequence (N : nat) (entropy : nat -> Z) (cb : M unit)
    (fuel : nat) (P : Z) (i : nat) (t : Z) (lw lw' : LvTimer.lv_world) :
  (forall w, cb w = slideshow_cb N entropy fuel w) ->
  (N <= 255)%nat ->
  sized N (LvTimer.base lw) ->
  Permutation (order (LvTimer.base lw)) (indices N) ->
  0 <= order_pos (LvTimer.base lw) <= Z.of_nat N ->
  LvTimer.timers lw = [LvTimer.mkTimer P (uptime (LvTimer.base lw))] ->
  LvTimer.lv_timer_exec cb i t lw = LvTimer.LvDone lw' ->
  i = O /\ uptime (LvTimer.base lw) + P <= t /\ uptime (LvTimer.base lw) <= t /\
  sequence_of (LvTimer.base lw')
  = sequencer_step N entropy (sequence_of (LvTimer.base lw)) /\
  sized N (LvTimer.base lw') /\
  Permutation (order (LvTimer.base lw')) (indices N) /\
  0 <= order_pos (LvTimer.base lw') <= Z.of_nat N /\
  LvTimer.timers lw' = [LvTimer.mkTimer P (uptime (LvTimer.base lw'))] /\
  uptime (LvTimer.base lw') = t.
Proof.
  intros Hcb HN Hs Hperm Hp Ht H.
  unfold LvTimer.lv_timer_exec in H. rewrite Ht in H.
  destruct i as [|i]; [|destruct i; discriminate].
  cbn [nth_error LvTimer.last_run LvTimer.period firstn skipn app] in H.
  destruct ((uptime (LvTimer.base lw) + P <=? t)
            && (uptime (LvTimer.base lw) <=? t)) eqn:Et; [|discriminate].
  apply andb_true_iff in Et. destruct Et as [Et1 Et2].
  rewrite Hcb in H.
  destruct (slideshow_cb N entropy fuel (set_uptime t (LvTimer.base lw)))
    as [[] w'| |] eqn:E; try discriminate.
  inversion H; subst lw'; clear H.
  apply callback_sequence in E; auto.
  destruct E as [_ [Hq [Hs' [Hperm' [Hp' Hu]]]]].
  cbn [LvTimer.base LvTimer.timers uptime set_uptime] in *.
  rewrite Hu. repeat split; auto; lia.
Qed.

(** The timer variants keep the sequence, the array and their one timer. *)
Lemma art_timer_inv (N : nat) (entropy : nat -> Z) (P : Z) (k : nat)
    (lw : LvTimer.lv_world) :
  ArtTimer.after N entropy P k lw ->
  (1 <= N <= 255)%nat /\
  sequence_of (LvTimer.base lw) = sequence_after N entropy k /\
  sized N (LvTimer.base lw) /\
  Permutation (order (LvTimer.base lw)) (indices N) /\
  0 <= order_pos (LvTimer.base lw) <= Z.of_nat N /\
  LvTimer.timers lw = [LvTimer.mkTimer P (uptime (LvTimer.base lw))].
Proof.
  induction 1 as [t fuel lw H | k fuel i t lw lw' Hr IH H].
  - unfold ArtTimer.zmk_widget_status_init, LvTimer.lift_base in H.
    cbn [LvTimer.lv_boot LvTimer.base LvTimer.timers] in H.
    destruct (shuffle_order N entropy fuel (boot N t)) as [[] w1| |] eqn:E1;
      try discriminate.
    cbn [LvTimer.base LvTimer.timers] in H.
    rewrite rotate_art_cb_eq in H.
    destruct (slideshow_cb N entropy fuel w1) as [[] w2| |] eqn:E2;
      try discriminate.
    inversion H; subst lw; clear H.
    destruct (timer_init_sequence _ _ _ _ _ _ E1 E2)
      as [HN [Hq [Hs [Hp [Hpos Hu]]]]].
    unfold LvTimer.lv_timer_create, ArtTimer.ART_ROTATE_INTERVAL.
    cbn [LvTimer.base LvTimer.timers app].
    repeat split; auto; lia.
  - destruct IH as [HN [Hq [Hs [Hp [Hpos Ht]]]]].
    destruct (timer_exec_sequence N entropy _ fuel P i t lw lw'
                (rotate_art_cb_eq N entropy fuel) ltac:(lia) Hs Hp Hpos Ht H)
      as [_ [_ [_ [Hq' [Hs' [Hp' [Hpos' [Ht' _]]]]]]]].
    rewrite Hq' , Hq. repeat split; auto; lia.
Qed.

Lemma slide_timer_inv (N : nat) (entropy : nat -> Z) (P : Z) (k : nat)
    (lw : LvTimer.lv_world) :
  SlideTimer.after N entropy P k lw ->
  (1 <= N <= 255)%nat /\
  sequence_of (LvTimer.base lw) = sequence_after N entropy k /\
  sized N (LvTimer.base lw) /\
  Permutation (order (LvTimer.base lw)) (indices N) /\
  0 <= order_pos (LvTimer.base lw) <= Z.of_nat N /\
  LvTimer.timers lw = [LvTimer.mkTimer P (uptime (LvTimer.base lw))].
Proof.
  induction 1 as [t fuel lw H | k fuel i t lw lw' Hr IH H].
  - unfold SlideTimer.zmk_widget_status_init, LvTimer.lift_base in H.
    cbn [LvTimer.lv_boot LvTimer.base LvTimer.timers] in H.
    destruct (shuffle_order N entropy fuel (boot N t)) as [[] w1| |] eqn:E1;
      try discriminate.
    cbn [LvTimer.base LvTimer.timers] in H.
    destruct (slideshow_cb N entropy fuel w1) as [[] w2| |] eqn:E2;
      try discriminate.
    inversion H; subst lw; clear H.
    destruct (timer_init_sequence _ _ _ _ _ _ E1 E2)
      as [HN [Hq [Hs [Hp [Hpos Hu]]]]].
    unfold LvTimer.lv_timer_create, SlideTimer.ART_ROTATE_INTERVAL.
    cbn [LvTimer.base LvTimer.timers app].
    repeat split; auto; lia.
  - destruct IH as [HN [Hq [Hs [Hp [Hpos Ht]]]]].
    destruct (timer_exec_sequence N entropy _ fuel P i t lw lw'
                (fun w => eq_refl) ltac:(lia) Hs Hp Hpos Ht H)
      as [_ [_ [_ [Hq' [Hs' [Hp' [Hpos' [Ht' _]]]]]]]].
    rewrite Hq' , Hq. repeat split; auto; lia.
Qed.

(** The work-queue variant keeps the sequence as well. *)
Lemma after_runs_inv (N : nat) (entropy : nat -> Z) (k : nat) (w : world) :
  after_runs N entropy k w ->
  (1 <= N <= 255)%nat /\
  sequence_of w = sequence_after N entropy k /\
  sized N w /\ Permutation (order w) (indices N) /\
  0 <= order_pos w <= Z.of_nat N.
Proof.
  induction 1 as [t fuel w H | k fuel t w w' Hr IH H].
  - destruct (init_done _ _ _ _ _ H) as [HN ->].
    assert (Hperm : Permutation (shuffled N (words entropy (N - 1) 0))
                      (indices N)) by apply shuffled_perm, length_words.
    assert (Hidx : 0 <= nth 0 (shuffled N (words entropy (N - 1) 0)) 0
                   < Z.of_nat N) by (apply perm_indices_range; [assumption|lia]).
    split; [assumption|].
    unfold sequence_of, sequence_after, sequencer_step;
      cbn [order order_pos drawn calls seq_pos seq_order seq_drawn seq_frames].
    split; [|repeat split; auto; try lia; red; cbn [order];
             apply length_shuffled].
    destruct (0 =? Z.of_nat N) eqn:E0; [lia|].
    change (shuffle_order_call :: ?l) with ([shuffle_order_call] ++ l).
    rewrite !shown_app, shown_rands, shown_display_calls by lia.
    cbn [shown flat_map frame_of app Z.to_nat]. f_equal; lia.
  - destruct IH as [HN [Hq [Hs [Hp Hpos]]]].
    unfold workq_dispatch in H.
    destruct (slideshow_work w) as [d|]; [|discriminate].
    destruct ((d <=? t) && (uptime w <=? t)); [|discriminate].
    apply handler_sequence in H; auto; try lia.
    destruct H as [_ [Hq' [Hs' [Hp' [Hpos' _]]]]].
    unfold sequence_of in Hq'.
    cbn [order order_pos drawn calls set_slideshow_work set_uptime] in Hq'.
    fold (sequence_of w) in Hq'. fold (sequence_of w') in Hq'.
    rewrite Hq', Hq. repeat split; auto; lia.
Qed.

Lemma length_step_frames (N : nat) (entropy : nat -> Z) (q : sequence) :
  length (seq_frames (sequencer_step N entropy q)) = S (length (seq_frames q)).
Proof.
  unfold sequencer_step. destruct (seq_pos q =? Z.of_nat N);
    cbn [seq_frames]; rewrite length_app; cbn [length]; lia.
Qed.

Lemma length_sequence_after (N : nat) (entropy : nat -> Z) (k : nat) :
  length (seq_frames (sequence_after N entropy k)) = S k.
Proof.
  induction k as [|k IH]; cbn [sequence_after]; rewrite length_step_frames.
  - reflexivity.
  - now rewrite IH.
Qed.

Lemma sample_art_timer_after :
  ArtTimer.after 2 sample_source 5000 1 sample_art_timer.
Proof.
  apply (ArtTimer.after_timer 2 sample_source 5000 0 3 0 5000
           (LvTimer.mkLv
              (mkWorld [1; 0] 1 1 0 None
                 [shuffle_order_call; sys_rand32_get_call 0;
                  lv_obj_clean_call; lv_img_create_call;
                  lv_img_set_src_call (hammerbeam 2); lv_obj_align_call])
              [LvTimer.mkTimer 5000 0])).
  - apply (ArtTimer.after_init 2 sample_source 5000 0 3). vm_compute. reflexivity.
  - vm_compute. reflexivity.
Qed.

Lemma sample_slide_timer_after :
  SlideTimer.after 2 sample_source 7000 1 sample_slide_timer.
Proof.
  apply (SlideTimer.after_timer 2 sample_source 7000 0 3 0 7000
           (LvTimer.mkLv
              (mkWorld [1; 0] 1 1 0 None
                 [shuffle_order_call; sys_rand32_get_call 0;
                  lv_obj_clean_call; lv_img_create_call;
                  lv_img_set_src_call (hammerbeam 2); lv_obj_align_call])
              [LvTimer.mkTimer 7000 0])).
  - apply (SlideTimer.after_init 2 sample_source 7000 0 3).
    vm_compute. reflexivity.
  - vm_compute. reflexivity.
Qed.

Lemma sample_second_after_runs : after_runs 2 sample_source 1 sample_second.
Proof.
  apply (after_runs_dispatch 2 sample_source 0 3 600000 sample_started).
  - apply (after_runs_init 2 sample_source 0 3). vm_compute. reflexivity.
  - vm_compute. reflexivity.
Qed.

(** X11. The three variants of the widget are the same sequencer: after the
    initialisation and [k] runs of the rotation callback (by an LVGL timer
    or by the work queue, at whatever times), the array [order], the cursor,
    the number of random words drawn and the list of the [k + 1] frames
    displayed are those of the pure sequence over the random source. *)
Theorem variants_show_the_same_frames (N : nat) (entropy : nat -> Z)
    (P1 P2 : Z) (k : nat) (lw1 lw2 : LvTimer.lv_world) (w : world) :
  ArtTimer.after N entropy P1 k lw1 ->
  SlideTimer.after N entropy P2 k lw2 ->
  after_runs N entropy k w ->
  sequence_of (LvTimer.base lw1) = sequence_after N entropy k /\
  sequence_of (LvTimer.base lw2) = sequence_after N entropy k /\
  sequence_of w = sequence_after N entropy k /\
  length (shown (calls w)) = S k.
Proof.
  intros H1 H2 H3.
  destruct (art_timer_inv _ _ _ _ _ H1) as [_ [Hq1 _]].
  destruct (slide_timer_inv _ _ _ _ _ H2) as [_ [Hq2 _]].
  destruct (after_runs_inv _ _ _ _ H3) as [_ [Hq3 _]].
  repeat split; try assumption.
  change (shown (calls w)) with (seq_frames (sequence_of w)).
  rewrite Hq3. apply length_sequence_after.
Qed.

Lemma variants_show_the_same_frames_witness :
  sequence_of (LvTimer.base sample_art_timer) = sequence_after 2 sample_source 1 /\
  sequence_of (LvTimer.base sample_slide_timer)
  = sequence_after 2 sample_source 1 /\
  sequence_of sample_second = sequence_after 2 sample_source 1 /\
  length (shown (calls sample_second)) = 2%nat.
Proof.
  apply (variants_show_the_same_frames 2 sample_source 5000 7000 1
           sample_art_timer sample_slide_timer sample_second).
  - exact sample_art_timer_after.
  - exact sample_slide_timer_after.
  - exact sample_second_after_runs.
Defined.

(** X12. In both LVGL-timer variants the widget owns exactly one timer, of
    period [ART_ROTATE_INTERVAL] and stamped with the time of the last frame:
    the callback cannot run earlier than one period after the previous
    frame, a run shows exactly one more frame and leaves the one timer
    stamped with the time of the run, and once the period has elapsed the
    run returns. *)
Theorem timer_shows_one_frame_per_period (N : nat) (entropy : nat -> Z)
    (P : Z) (k : nat) (lw : LvTimer.lv_world) :
  ArtTimer.after N entropy P k lw \/ SlideTimer.after N entropy P k lw ->
  LvTimer.timers lw = [LvTimer.mkTimer P (uptime (LvTimer.base lw))] /\
  (forall (cb : M unit) (fuel i : nat) (t : Z) (lw' : LvTimer.lv_world),
     cb = rotate_art_cb N entropy fuel \/ cb = slideshow_cb N entropy fuel ->
     LvTimer.lv_timer_exec cb i t lw = LvTimer.LvDone lw' ->
     i = O /\ uptime (LvTimer.base lw) + P <= t /\
     length (shown (calls (LvTimer.base lw')))
     = S (length (shown (calls (LvTimer.base lw)))) /\
     LvTimer.timers lw' = [LvTimer.mkTimer P t]) /\
  (forall (fuel : nat) (t : Z),
     (N < fuel)%nat ->
     uptime (LvTimer.base lw) <= t -> uptime (LvTimer.base lw) + P <= t ->
     (exists lw' : LvTimer.lv_world,
        LvTimer.lv_timer_exec (rotate_art_cb N entropy fuel) O t lw
        = LvTimer.LvDone lw') /\
     (exists lw' : LvTimer.lv_world,
        LvTimer.lv_timer_exec (slideshow_cb N entropy fuel) O t lw
        = LvTimer.LvDone lw')).
Proof.
  intros H.
  assert (Hinv : (1 <= N <= 255)%nat /\
                 sized N (LvTimer.base lw) /\
                 Permutation (order (LvTimer.base lw)) (indices N) /\
                 0 <= order_pos (LvTimer.base lw) <= Z.of_nat N /\
                 LvTimer.timers lw
                 = [LvTimer.mkTimer P (uptime (LvTimer.base lw))]).
  { destruct H as [H|H].
    - destruct (art_timer_inv _ _ _ _ _ H) as [HN [_ [Hs [Hp [Hpos Ht]]]]].
      auto.
    - destruct (slide_timer_inv _ _ _ _ _ H) as [HN [_ [Hs [Hp [Hpos Ht]]]]].
      auto. }
  destruct Hinv as [HN [Hs [Hp [Hpos Ht]]]].
  split; [assumption|]. split.
  - intros cb fuel i t lw' Hcb Hx.
    assert (Hcb' : forall w, cb w = slideshow_cb N entropy fuel w).
    { intro w. destruct Hcb as [-> | ->];
        [apply rotate_art_cb_eq | reflexivity]. }
    destruct (timer_exec_sequence N entropy cb fuel P i t lw lw'
                Hcb' ltac:(lia) Hs Hp Hpos Ht Hx)
      as [Hi [Hdue [_ [Hq [_ [_ [_ [Ht' Hu]]]]]]]].
    split; [assumption|]. split; [assumption|]. split.
    + change (shown (calls (LvTimer.base lw')))
        with (seq_frames (sequence_of (LvTimer.base lw'))).
      rewrite Hq, length_step_frames. reflexivity.
    + now rewrite Ht', Hu.
  - intros fuel t Hfuel Hle Hdue.
    assert (Hrun : exists w', slideshow_cb N entropy fuel
                                (set_uptime t (LvTimer.base lw)) = Done tt w').
    { apply callback_returns; auto. }
    destruct Hrun as [w' Hw'].
    assert (Hguard : (uptime (LvTimer.base lw) + P <=? t)
                     && (uptime (LvTimer.base lw) <=? t) = true).
    { apply andb_true_iff. split; apply Z.leb_le; assumption. }
    split; eexists; unfold LvTimer.lv_timer_exec; rewrite Ht;
      cbn [nth_error LvTimer.last_run LvTimer.period];
      rewrite Hguard, ?rotate_art_cb_eq, Hw'; reflexivity.
Qed.

Lemma timer_shows_one_frame_per_period_witness :
  LvTimer.timers sample_art_timer
  = [LvTimer.mkTimer 5000 (uptime (LvTimer.base sample_art_timer))] /\
  (forall (cb : M unit) (fuel i : nat) (t : Z) (lw' : LvTimer.lv_world),
     cb = rotate_art_cb 2 sample_source fuel \/
     cb = slideshow_cb 2 sample_source fuel ->
     LvTimer.lv_timer_exec cb i t sample_art_timer = LvTimer.LvDone lw' ->
     i = O /\ uptime (LvTimer.base sample_art_timer) + 5000 <= t /\
     length (shown (calls (LvTimer.base lw')))
     = S (length (shown (calls (LvTimer.base sample_art_timer)))) /\
     LvTimer.timers lw' = [LvTimer.mkTimer 5000 t]) /\
  (forall (fuel : nat) (t : Z),
     (2 < fuel)%nat ->
     uptime (LvTimer.base sample_art_timer) <= t ->
     uptime (LvTimer.base sample_art_timer) + 5000 <= t ->
     (exists lw' : LvTimer.lv_world,
        LvTimer.lv_timer_exec (rotate_art_cb 2 sample_source fuel) O t
          sample_art_timer = LvTimer.LvDone lw') /\
     (exists lw' : LvTimer.lv_world,
        LvTimer.lv_timer_exec (slideshow_cb 2 sample_source fuel) O t
          sample_art_timer = LvTimer.LvDone lw')).
Proof.
  apply (timer_shows_one_frame_per_period 2 sample_source 5000 1
           sample_art_timer).
  left. exact sample_art_timer_after.
Defined.

(** ** The empty catalog *)

(** X13. With no frame in the catalog the slideshow does not start: the
    shuffle has nothing to do and asks for no random word, and the first run
    of the rotation callback, reached from the initialisation, indexes
    [order] at 0, outside the empty array.  This holds for the work-queue
    variant and for both timer variants. *)
Theorem empty_catalog_faults (entropy : nat -> Z) (fuel : nat) (t : Z) (P : Z) :
  (1 <= fuel)%nat ->
  shuffle_order 0 entropy fuel (boot 0 t)
  = Done tt (mkWorld [] 0 0 t None [shuffle_order_call]) /\
  zmk_widget_status_init 0 entropy fuel (boot 0 t) = Fault /\
  ArtTimer.zmk_widget_status_init 0 entropy P fuel (LvTimer.lv_boot 0 t)
  = LvTimer.LvFault /\
  SlideTimer.zmk_widget_status_init 0 entropy P fuel (LvTimer.lv_boot 0 t)
  = LvTimer.LvFault.
Proof.
  intros Hfuel. destruct fuel as [|fuel]; [lia|].
  repeat split; reflexivity.
Qed.

Lemma empty_catalog_faults_witness :
  shuffle_order 0 sample_source 1 (boot 0 0)
  = Done tt (mkWorld [] 0 0 0 None [shuffle_order_call]) /\
  zmk_widget_status_init 0 sample_source 1 (boot 0 0) = Fault /\
  ArtTimer.zmk_widget_status_init 0 sample_source 5000 1 (LvTimer.lv_boot 0 0)
  = LvTimer.LvFault /\
  SlideTimer.zmk_widget_status_init 0 sample_source 5000 1 (LvTimer.lv_boot 0 0)
  = LvTimer.LvFault.
Proof.
  apply (empty_catalog_faults sample_source 1 0 5000). lia.
Defined.
